(** * BetXPes: match simulator, odds engine, phase clock, settlement pipeline
      and schedule lookup, embedded from the TypeScript sources.

    Conventions of the embedding.
    - A JavaScript number that only ever holds an integer (goal counts, tick
      numbers, millisecond timestamps, countdowns) is a [Z]; the decimal odds
      constants and the 0..1 outputs of [Math.random()] are exact rationals
      [Q].
    - [Math.random()] is a stream [rand : nat -> Q]; a function that draws
      from it takes the index of the next draw and returns the index after
      its last draw, so that short-circuit evaluation (which decides how many
      draws a tick consumes) is kept as in the source.
    - React state is a record; an effect is a function on that record which
      reads the values of the render it belongs to and returns the record
      with every [setX] of that run applied. *)

From Stdlib Require Import ZArith QArith Qround Qabs List String Ascii Bool Lia DecimalString.
From stdpp Require Import base option list gmap strings.

Local Open Scope Z_scope.

(** Strict comparison of rationals, as a boolean ([x < y] in the source). *)
Definition Qltb (x y : Q) : bool := negb (Qle_bool y x).

(* ===================================================================== *)
(** ** Match outcome simulator ([simulateMatch], [getProgressiveScore])  *)
(* ===================================================================== *)
Module Simulator.

Inductive Team := Home | Away.
Inductive Winner := WinHome | WinAway | Draw.

Record GoalEvent := mkEvent { time : Z; team : Team }.

Record SimResult := mkSim {
  homeGoals : Z;
  awayGoals : Z;
  winner : Winner;
  events : list GoalEvent
}.

(** The [adminOverride] argument.  A field that is [undefined] is [None];
    a [winner] that is falsy ([undefined], [null], the empty string) is
    [None] as well, which is all the [!winner] test looks at. *)
Record AdminOverride := mkOverride {
  ovHomeGoals : option Z;
  ovAwayGoals : option Z;
  ovWinner : option Winner
}.

Definition Team_eqb (a b : Team) : bool :=
  match a, b with Home, Home | Away, Away => true | _, _ => false end.

(** [if (h > a) "home" else if (a > h) "away" else "draw"]. *)
Definition winnerOf (h a : Z) : Winner :=
  if h >? a then WinHome else if a >? h then WinAway else Draw.

(** Number of events of one team. *)
Definition countTeam (tm : Team) (evs : list GoalEvent) : Z :=
  Z.of_nat (length (List.filter (fun e => Team_eqb (team e) tm) evs)).

(** The test that selects the forced path:
    [adminOverride && adminOverride.homeGoals !== undefined &&
     adminOverride.awayGoals !== undefined]; when it succeeds, the targets
    and the optional winner the branch reads. *)
Definition forcedTargets (adminOverride : option AdminOverride)
  : option (Z * Z * option Winner) :=
  match adminOverride with
  | Some ov =>
      match ovHomeGoals ov, ovAwayGoals ov with
      | Some h, Some a => Some (h, a, ovWinner ov)
      | _, _ => None
      end
  | None => None
  end.

Section WithRandom.
(** The outputs of successive [Math.random()] calls. *)
Variable rand : nat -> Q.

(** Loop state of the unforced path. *)
Record Tally := mkTally { tHome : Z; tAway : Z; tEvents : list GoalEvent }.

(** [for (let t = 1; t <= duration; t++)] of the unforced path: [n] is the
    number of iterations left, [t] the tick, [k] the next draw. *)
Fixpoint unforcedLoop (n : nat) (t : Z) (k : nat) (st : Tally) : Tally * nat :=
  match n with
  | O => (st, k)
  | S n' =>
      if Qltb (rand k) 0.07 then
        let who := if Qltb (rand (S k)) 0.5 then Home else Away in
        let st' :=
          match who with
          | Home => mkTally (tHome st + 1) (tAway st) (tEvents st ++ [mkEvent t who])
          | Away => mkTally (tHome st) (tAway st + 1) (tEvents st ++ [mkEvent t who])
          end in
        unforcedLoop n' (t + 1) (S (S k)) st'
      else unforcedLoop n' (t + 1) (S k) st
  end.

(** Loop state of the forced path: goals still to generate, events so far. *)
Record Pending := mkPending { toHome : Z; toAway : Z; pEvents : list GoalEvent }.

(** [for (t = 1; t <= duration && (h > 0 || a > 0); t++)] of the forced
    path.  The second draw of a tick is only taken when
    [homeGoalsToGenerate > 0] (the [&&] short-circuits). *)
Fixpoint forcedLoop (n : nat) (t : Z) (k : nat) (st : Pending) : Pending * nat :=
  match n with
  | O => (st, k)
  | S n' =>
      if (toHome st >? 0) || (toAway st >? 0) then
        if Qltb (rand k) 0.10 then
          if toHome st >? 0 then
            if Qltb (rand (S k)) 0.5 then
              forcedLoop n' (t + 1) (S (S k))
                (mkPending (toHome st - 1) (toAway st) (pEvents st ++ [mkEvent t Home]))
            else if toAway st >? 0 then
              forcedLoop n' (t + 1) (S (S k))
                (mkPending (toHome st) (toAway st - 1) (pEvents st ++ [mkEvent t Away]))
            else forcedLoop n' (t + 1) (S (S k)) st
          else if toAway st >? 0 then
            forcedLoop n' (t + 1) (S k)
              (mkPending (toHome st) (toAway st - 1) (pEvents st ++ [mkEvent t Away]))
          else forcedLoop n' (t + 1) (S k) st
        else forcedLoop n' (t + 1) (S k) st
      else (st, k)
  end.

(** The forced branch, once both target goals are known to be defined. *)
Definition simulateForced (duration : Z) (h a : Z) (w : option Winner) (k : nat)
  : SimResult * nat :=
  let winner := match w with Some x => x | None => winnerOf h a end in
  let '(st, k') := forcedLoop (Z.to_nat duration) 1 k (mkPending h a []) in
  (mkSim h a winner (pEvents st), k').

Definition simulateUnforced (duration : Z) (k : nat) : SimResult * nat :=
  let '(st, k') := unforcedLoop (Z.to_nat duration) 1 k (mkTally 0 0 []) in
  (mkSim (tHome st) (tAway st) (winnerOf (tHome st) (tAway st)) (tEvents st), k').

(** [simulateMatch(matchId, duration, adminOverride)].  [matchId] is not
    read by the body.  The result is paired with the index of the next
    unused draw. *)
Definition simulateMatch (matchId : string) (duration : Z)
    (adminOverride : option AdminOverride) (k : nat) : SimResult * nat :=
  match forcedTargets adminOverride with
  | Some (h, a, w) => simulateForced duration h a w k
  | None => simulateUnforced duration k
  end.
End WithRandom.

(** [getProgressiveScore(events, matchMinute, duration)]:
    [simSecond = Math.floor((matchMinute / 90) * duration)], then one pass
    over the events; anything that is not a home event counts as away. *)
Definition simSecondOf (matchMinute duration : Z) : Z :=
  Qfloor ((inject_Z matchMinute / 90) * inject_Z duration)%Q.

Fixpoint scoreUpTo (simSecond : Z) (evs : list GoalEvent) (home away : Z) : Z * Z :=
  match evs with
  | [] => (home, away)
  | ev :: rest =>
      if time ev <=? simSecond then
        match team ev with
        | Home => scoreUpTo simSecond rest (home + 1) away
        | Away => scoreUpTo simSecond rest home (away + 1)
        end
      else scoreUpTo simSecond rest home away
  end.

Definition getProgressiveScore (evs : list GoalEvent) (matchMinute duration : Z) : Z * Z :=
  scoreUpTo (simSecondOf matchMinute duration) evs 0 0.

(** Events in non-decreasing order of time. *)
Fixpoint nonDecreasing (evs : list GoalEvent) : bool :=
  match evs with
  | [] => true
  | e :: rest =>
      match rest with
      | [] => true
      | e' :: _ => (time e <=? time e') && nonDecreasing rest
      end
  end.

(** The invariant of the data model, as a predicate on a result. *)
Definition consistent (r : SimResult) : Prop :=
  homeGoals r = countTeam Home (events r) /\
  awayGoals r = countTeam Away (events r) /\
  nonDecreasing (events r) = true /\
  winner r = winnerOf (homeGoals r) (awayGoals r).

(** Every event of [evs] happens no later than [b]. *)
Definition allBy (b : Z) (evs : list GoalEvent) : Prop :=
  Forall (fun e => time e <= b) evs.

(** What the unforced loop keeps true of its tally at tick [t]. *)
Definition tallyOK (t : Z) (st : Tally) : Prop :=
  tHome st = countTeam Home (tEvents st) /\
  tAway st = countTeam Away (tEvents st) /\
  nonDecreasing (tEvents st) = true /\
  allBy (t - 1) (tEvents st).

(** What the forced loop keeps true at tick [t], for targets [h] and [a]. *)
Definition pendingOK (h a t : Z) (st : Pending) : Prop :=
  countTeam Home (pEvents st) + Z.max 0 (toHome st) = Z.max 0 h /\
  countTeam Away (pEvents st) + Z.max 0 (toAway st) = Z.max 0 a /\
  nonDecreasing (pEvents st) = true /\
  allBy (t - 1) (pEvents st).

(** Sample inputs: a generator whose draws never pass a goal test, one
    whose draws always do, an override that fixes the score 1-0, and one
    that fixes 2-0 and names the away team as winner. *)
Definition neverScores : nat -> Q := fun _ => 0.99%Q.
Definition alwaysScores : nat -> Q := fun _ => 0%Q.
Definition oneNil : AdminOverride := mkOverride (Some 1) (Some 0) None.
Definition twoNilAway : AdminOverride := mkOverride (Some 2) (Some 0) (Some WinAway).

End Simulator.

(* ===================================================================== *)
(** ** Odds engine ([calculateDynamicOdds])                              *)
(* ===================================================================== *)
Module Odds.

Record OddsEntry := mkEntry { selections : list string; odds : list string }.

(** An odds board: the object literal returned by the engine, as the
    ordered list of its keys and values. *)
Definition OddsBoard := list (string * OddsEntry).

Fixpoint boardLookup (key : string) (b : OddsBoard) : option OddsEntry :=
  match b with
  | [] => None
  | (k, e) :: rest => if String.eqb k key then Some e else boardLookup key rest
  end.

Fixpoint zeros (n : nat) : string :=
  match n with O => EmptyString | S n' => String "0" (zeros n') end.

(** [Number.prototype.toFixed(2)] on an exact value: the sign is split off,
    [n] is the integer closest to [100 * |x|] (the larger one on a tie), its
    decimal digits are left-padded with zeros to three characters, and the
    point goes before the last two. *)
Definition toFixed2 (x : Q) : string :=
  let sign := if Qltb x 0 then "-"%string else EmptyString in
  let n := Qfloor (Qabs x * 100 + 0.5)%Q in
  let m := NilZero.string_of_uint (N.to_uint (Z.to_N n)) in
  let m := if (String.length m <=? 2)%nat then (zeros (3 - String.length m) ++ m)%string else m in
  let k := String.length m in
  (sign ++ substring 0 (k - 2) m ++ "." ++ substring (k - 2) 2 m)%string.

(** The numbers computed by the body before they are rendered. *)
Record Quotes := mkQuotes {
  odds_1 : Q; odds_X : Q; odds_2 : Q;
  btts_yes : Q; btts_no : Q;
  ov15 : Q; un15 : Q;
  ov25 : Q; un25 : Q;
  ov35 : Q; un35 : Q;
  ov45 : Q; un45 : Q;
  odd_odds : Q; even_odds : Q
}.

Definition quotes (homeGoals awayGoals : Z) : Quotes :=
  let totalGoals := homeGoals + awayGoals in
  let total := inject_Z totalGoals in
  let '(o1, oX, o2) :=
    if homeGoals >? awayGoals then (1.20, 5.00, 8.00)%Q
    else if awayGoals >? homeGoals then (8.00, 5.00, 1.20)%Q
    else (4.00, 1.15, 4.00)%Q in
  let both := (homeGoals >? 0) && (awayGoals >? 0) in
  let oddGoals := Z.rem totalGoals 2 =? 1 in
  {| odds_1 := o1; odds_X := oX; odds_2 := o2;
     btts_yes := if both then 1.10%Q else 2.50%Q;
     btts_no := if both then 4.00%Q else 1.20%Q;
     ov15 := if Qltb 1.5 total then 1.15%Q else 3.20%Q;
     un15 := if Qltb total 1.5 then 1.15%Q else 3.20%Q;
     ov25 := if Qltb 2.5 total then 1.30%Q else 2.50%Q;
     un25 := if Qltb total 2.5 then 1.30%Q else 2.50%Q;
     ov35 := if Qltb 3.5 total then 1.40%Q else 2.20%Q;
     un35 := if Qltb total 3.5 then 1.40%Q else 2.20%Q;
     ov45 := if Qltb 4.5 total then 2.00%Q else 1.80%Q;
     un45 := if Qltb total 4.5 then 1.80%Q else 2.00%Q;
     odd_odds := if oddGoals then 1.10%Q else 3.00%Q;
     even_odds := if oddGoals then 3.00%Q else 1.10%Q |}.

Definition tofg_odds : list string :=
  ["1.05"; "1.05"; "1.05"; "2.50"; "3.50"; "4.00"]%string.

Definition render (q : Quotes) : OddsBoard :=
  [ ("1X2", mkEntry ["1"; "X"; "2"]
       [toFixed2 (odds_1 q); toFixed2 (odds_X q); toFixed2 (odds_2 q)]);
    ("BTTS", mkEntry ["Yes"; "No"]
       [toFixed2 (btts_yes q); toFixed2 (btts_no q)]);
    ("OV/UN 1.5", mkEntry ["Over 1.5"; "Under 1.5"]
       [toFixed2 (ov15 q); toFixed2 (un15 q)]);
    ("OV/UN 2.5", mkEntry ["Over 2.5"; "Under 2.5"]
       [toFixed2 (ov25 q); toFixed2 (un25 q)]);
    ("Total Goals",
       mkEntry ["Over 2.5"; "Over 3.5"; "Over 4.5"; "Under 2.5"; "Under 3.5"; "Under 4.5"]
       ["1.85"; toFixed2 (ov35 q); toFixed2 (ov45 q);
        toFixed2 (un25 q); toFixed2 (un35 q); toFixed2 (un45 q)]);
    ("Time of First Goal",
       mkEntry ["0-15 min"; "16-30 min"; "31-45 min"; "46-60 min"; "61-75 min"; "76-90 min"]
       tofg_odds);
    ("Total Goals Odd/Even", mkEntry ["Odd"; "Even"]
       [toFixed2 (odd_odds q); toFixed2 (even_odds q)]) ]%string.

(** [calculateDynamicOdds(homeGoals, awayGoals)]. *)
Definition calculateDynamicOdds (homeGoals awayGoals : Z) : OddsBoard :=
  render (quotes homeGoals awayGoals).

(** The odds list of one market of a board ([[]] if the key is absent). *)
Definition oddsOf (key : string) (b : OddsBoard) : list string :=
  match boardLookup key b with Some e => odds e | None => [] end.

Definition isDigit (c : ascii) : bool :=
  let n := nat_of_ascii c in ((48 <=? n) && (n <=? 57))%nat.

Fixpoint allDigits (s : string) : bool :=
  match s with
  | EmptyString => true
  | String c rest => isDigit c && allDigits rest
  end.

(** A decimal rendering with exactly two decimal places: one or more
    digits, a point, two digits. *)
Fixpoint twoDecimals (s : string) : bool :=
  match s with
  | EmptyString => false
  | String c rest =>
      isDigit c &&
      match rest with
      | String "." frac => (String.length frac =? 2)%nat && allDigits frac
      | _ => twoDecimals rest
      end
  end.

Definition wellFormedEntry (e : OddsEntry) : bool :=
  (length (selections e) =? length (odds e))%nat && forallb twoDecimals (odds e).

End Odds.

(* ===================================================================== *)
(** ** Global clock and week advancement (the match-flow effect and the
       transition-detection effect of the page component)                *)
(* ===================================================================== *)
Module Clock.

Inductive Phase := PreCountdown | Playing | Betting | NextCountdown.

Definition Phase_eqb (a b : Phase) : bool :=
  match a, b with
  | PreCountdown, PreCountdown | Playing, Playing
  | Betting, Betting | NextCountdown, NextCountdown => true
  | _, _ => false
  end.

(** The four pieces of state the match-flow effect and its interval
    callbacks write.  [timerArmed] says whether the effect's [setInterval]
    is currently installed. *)
Record Flow := mkFlow {
  matchState : Phase;
  countdown : Z;
  matchTimer : Z;
  bettingTimer : Z;
  timerArmed : bool
}.

(** State written by the transition-detection effect.  [fixtureGeneration]
    counts the calls [setFixtureSchedule(generateLeagueFixtures(league))]. *)
Record Weeks := mkWeeks {
  prevMatchState : Phase;
  hasAdvancedThisCycle : bool;
  currentTimeframeIdx : Z;
  liveTimeframeIdx : Z;
  fixtureGeneration : nat;
  selectedTimeSlot : option Z
}.

(** The object written by [saveSystemState]. *)
Record SystemState := mkSystemState {
  currentWeek : Z;
  savedTimeframeIdx : Z;
  savedMatchState : Phase;
  savedCountdown : Z
}.

(** What lives outside React: the [localStorage] keys the effect reads and
    writes, and the pending [window.location.reload()]. *)
Record Browser := mkBrowser {
  globalTimeActive : bool;          (* 'global_match_schedule_initialized' is set *)
  lastReshuffleWeek : option Z;     (* 'betting_last_reshuffle_week' *)
  shuffledFixturesStored : nat;     (* writes of 'betting_shuffled_fixtures' *)
  systemState : option SystemState; (* 'betting_system_state' *)
  reloadScheduled : bool
}.

Record State := mkState {
  flow : Flow;
  weeks : Weeks;
  browser : Browser;
  timeSlots : list Z
}.

Definition totalWeeks : Z := 36.

(** [Math.ceil(90 / 40)]. *)
Definition minuteStep : Z := Eval cbv in Qceiling (90 / 40)%Q.

(** One firing of the interval installed by the match-flow effect. *)
Definition tick (f : Flow) : Flow :=
  if timerArmed f then
    match matchState f with
    | PreCountdown =>
        if countdown f <=? 1
        then mkFlow Playing 10 0 (bettingTimer f) false
        else mkFlow PreCountdown (countdown f - 1) (matchTimer f) (bettingTimer f) true
    | Playing =>
        if matchTimer f >=? 90
        then mkFlow Betting (countdown f) 90 30 false
        else mkFlow Playing (countdown f) (matchTimer f + minuteStep) (bettingTimer f) true
    | Betting =>
        if bettingTimer f <=? 1
        then mkFlow NextCountdown 10 (matchTimer f) 30 false
        else mkFlow Betting (countdown f) (matchTimer f) (bettingTimer f - 1) true
    | NextCountdown =>
        if countdown f <=? 1
        then mkFlow PreCountdown 10 (matchTimer f) (bettingTimer f) false
        else mkFlow NextCountdown (countdown f - 1) (matchTimer f) (bettingTimer f) true
    end
  else f.

(** The body of the match-flow effect (dependency: [matchState]). *)
Definition flowEffect (f : Flow) : Flow :=
  match matchState f with
  | PreCountdown | NextCountdown =>
      mkFlow (matchState f) (countdown f) (matchTimer f) (bettingTimer f) (countdown f =? 10)
  | Playing => mkFlow Playing (countdown f) 0 (bettingTimer f) true
  | Betting => mkFlow Betting (countdown f) (matchTimer f) 30 true
  end.

(** [getLastReshuffleWeek]. *)
Definition getLastReshuffleWeek (b : Browser) : Z :=
  match lastReshuffleWeek b with Some w => w | None => 0 end.

(** [checkAndAutoReshuffle(currentWeek)]: the answer and the storage after
    the call. *)
Definition checkAndAutoReshuffle (week : Z) (b : Browser) : bool * Browser :=
  let lastReshuffle := getLastReshuffleWeek b in
  if (week >=? 36) && (lastReshuffle <? 36) then
    (true, mkBrowser (globalTimeActive b) (Some 36) (S (shuffledFixturesStored b))
             (systemState b) (reloadScheduled b))
  else (false, b).

(** [timeSlots[i]]. *)
Definition slotAt (slots : list Z) (i : Z) : option Z :=
  if i <? 0 then None else slots !! Z.to_nat i.

(** The tail of the transition-detection effect: reset the guard outside
    [pre-countdown], remember the phase just seen. *)
Definition rememberPhase (ms : Phase) (w : Weeks) : Weeks :=
  mkWeeks ms
    (if Phase_eqb ms PreCountdown then hasAdvancedThisCycle w else false)
    (currentTimeframeIdx w) (liveTimeframeIdx w) (fixtureGeneration w)
    (selectedTimeSlot w).

(** The part of the effect from [const newState = ...] to
    [setHasAdvancedThisCycle(true)]; [gen] is the fixture generation count
    after the optional regeneration. *)
Definition commitAdvance (nextIdx : Z) (gen : nat) (slots : list Z) (w : Weeks) : Weeks :=
  mkWeeks (prevMatchState w) true nextIdx nextIdx gen
    (match slotAt slots nextIdx with Some t => Some t | None => selectedTimeSlot w end).

Definition saveSystemState (st : SystemState) (b : Browser) : Browser :=
  mkBrowser (globalTimeActive b) (lastReshuffleWeek b) (shuffledFixturesStored b)
    (Some st) (reloadScheduled b).

Definition scheduleReload (b : Browser) : Browser :=
  mkBrowser (globalTimeActive b) (lastReshuffleWeek b) (shuffledFixturesStored b)
    (systemState b) true.

(** The transition-detection effect.  It reads the values of its render
    ([s]) and returns the state with its writes applied. *)
Definition advanceEffect (s : State) : State :=
  let ms := matchState (flow s) in
  let w := weeks s in
  if globalTimeActive (browser s) then s
  else if Phase_eqb (prevMatchState w) NextCountdown && Phase_eqb ms PreCountdown
          && negb (hasAdvancedThisCycle w) then
    let nextIdx := currentTimeframeIdx w + 1 in
    if nextIdx >=? totalWeeks then
      let '(reshuffled, b1) := checkAndAutoReshuffle totalWeeks (browser s) in
      if reshuffled then
        (* early [return]: nothing below runs in this evaluation *)
        mkState (flow s) w (scheduleReload b1) (timeSlots s)
      else
        let b2 := saveSystemState (mkSystemState (0 + 1) 0 PreCountdown 10) b1 in
        mkState (flow s)
          (rememberPhase ms (commitAdvance 0 (S (fixtureGeneration w)) (timeSlots s) w))
          b2 (timeSlots s)
    else
      let b2 := saveSystemState (mkSystemState (nextIdx + 1) nextIdx PreCountdown 10) (browser s) in
      mkState (flow s)
        (rememberPhase ms (commitAdvance nextIdx (fixtureGeneration w) (timeSlots s) w))
        b2 (timeSlots s)
  else mkState (flow s) (rememberPhase ms w) (browser s) (timeSlots s).



(** The flow state one second later: the interval fires and, if the phase
    changed, the match-flow effect runs. *)
Definition flowNext (f : Flow) : Flow :=
  let f1 := tick f in
  if Phase_eqb (matchState f1) (matchState f) then f1 else flowEffect f1.

Fixpoint flowAfter (n : nat) (f : Flow) : Flow :=
  match n with O => f | S n' => flowAfter n' (flowNext f) end.








(** The phase that follows a phase. *)
Definition nextPhase (p : Phase) : Phase :=
  match p with
  | PreCountdown => Playing
  | Playing => Betting
  | Betting => NextCountdown
  | NextCountdown => PreCountdown
  end.

(** The ranges the three timers are kept in. *)
Definition timersInRange (f : Flow) : Prop :=
  1 <= countdown f <= 10 /\
  1 <= bettingTimer f <= 30 /\
  0 <= matchTimer f <= 90 /\
  matchTimer f mod 3 = 0.

(** The answers of successive [checkAndAutoReshuffle] calls, one per week
    number passed, and the storage after them. *)
Fixpoint reshuffleAnswers (weeksPassed : list Z) (b : Browser) : list bool * Browser :=
  match weeksPassed with
  | [] => ([], b)
  | w :: rest =>
      let '(answer, b1) := checkAndAutoReshuffle w b in
      let '(answers, b2) := reshuffleAnswers rest b1 in
      (answer :: answers, b2)
  end.


End Clock.

(* ===================================================================== *)
(** ** Settlement pipeline (the "save results" effect of the page
       component and its [handleMatchResults] closure)                   *)
(* ===================================================================== *)
Module Settlement.
Import Simulator.

(** A match card of a timeframe (the fields settlement reads). *)
Record Match := mkMatch {
  matchId : string;
  homeShortName : string;
  awayShortName : string
}.

(** A record appended to the local history by [saveMatchResult]. *)
Record HistoryEntry := mkHistory {
  hId : string; hHomeTeam : string; hAwayTeam : string;
  hHomeGoals : Z; hAwayGoals : Z; hWinner : Winner;
  hTime : Z; hCountry : string
}.

(** The status fields the code writes into [matches.raw]. *)
Record RawMatch := mkRaw {
  raw_home_score : option Z;
  raw_away_score : option Z;
  raw_status : string;
  raw_finished : bool
}.

(** A row of [match_results], keyed by [match_id]. *)
Record ResultRow := mkRow {
  home_goals : Z;
  away_goals : Z;
  row_winner : Winner;
  is_final : bool
}.

(** Requests to the collaborators, in the order in which they are carried
    out. *)
Inductive Call :=
| SaveHistory (id : string)
| SelectMatchRaw (id : string)
| UpdateMatchRaw (id : string) (hg ag : Z)
| SelectResult (id : string)
| UpdateResult (id : string) (row : ResultRow)
| InsertResult (id : string) (row : ResultRow)
| ResolveBets (id : string) (hg ag : Z)
| ForceResolveStale (id : string).

(** The stores behind the component, and the log of requests. *)
Record Backend := mkBackend {
  history : list HistoryEntry;
  matchesTbl : gmap string RawMatch;
  matchResults : gmap string ResultRow;
  calls : list Call
}.

Definition logCall (c : Call) (b : Backend) : Backend :=
  mkBackend (history b) (matchesTbl b) (matchResults b) (calls b ++ [c]).

(** [saveMatchResult(result)]. *)
Definition saveMatchResult (e : HistoryEntry) (b : Backend) : Backend :=
  mkBackend (history b ++ [e]) (matchesTbl b) (matchResults b)
            (calls b ++ [SaveHistory (hId e)]).

(** How an awaited request ends.  [Served]: the store carries it out and
    answers.  [Refused]: the store answers [{ data: null, error }] and
    changes nothing.  [Rejected]: the awaited promise rejects, which the
    callback's [catch] turns into a console line. *)
Inductive Reply := Served | Refused | Rejected.

(** [from('matches').update({ raw: updatedRaw }).eq('id', id)]. *)
Definition updateMatchRaw (reply : Reply) (id : string) (hg ag : Z) (b : Backend) : Backend :=
  mkBackend (history b)
            (match reply with
             | Served => alter (fun _ => mkRaw (Some hg) (Some ag) "ft" true) id (matchesTbl b)
             | _ => matchesTbl b
             end)
            (matchResults b)
            (calls b ++ [UpdateMatchRaw id hg ag]).

(** [from('match_results').update({...}).eq('match_id', id)]: when the
    request is served the stored row, if there is one, is changed in
    place. *)
Definition updateResult (reply : Reply) (id : string) (row : ResultRow) (b : Backend) : Backend :=
  mkBackend (history b) (matchesTbl b)
            (match reply with
             | Served => alter (fun _ => row) id (matchResults b)
             | _ => matchResults b
             end)
            (calls b ++ [UpdateResult id row]).

(** [from('match_results').insert({match_id: id, ...})]: when the request
    is served the row is the one read back for [id] from then on. *)
Definition insertResult (reply : Reply) (id : string) (row : ResultRow) (b : Backend) : Backend :=
  mkBackend (history b) (matchesTbl b)
            (match reply with
             | Served => <[id := row]> (matchResults b)
             | _ => matchResults b
             end)
            (calls b ++ [InsertResult id row]).

(** What [handleMatchResults] closes over. *)
Record Snapshot := mkSnapshot {
  snapMatches : list Match;                  (* matchupsByTimeframe[slot] *)
  snapCache : gmap string SimResult;         (* matchSimCache *)
  snapCountry : string                       (* selectedCountry *)
}.

(** The row settlement writes for a score. *)
Definition finalRow (hg ag : Z) : ResultRow := mkRow hg ag (winnerOf hg ag) true.

(** Where a callback of [matches.map(async (match) => ...)] is suspended:
    at one of its five [await]s, or not at all any more. *)
Inductive Stage :=
| AwaitMatchRow                              (* matches: select raw *)
| AwaitRawUpdate                             (* matches: update raw *)
| AwaitResultRow                             (* match_results: select id *)
| AwaitResultWrite (existingResult : bool)   (* match_results: update or insert *)
| AwaitResolution                            (* resolveBetsForMatch *)
| Done.

(** A suspended callback: its [match], its [sim] and the [await] it is
    at. *)
Record Callback := mkCallback { cbMatch : Match; cbSim : SimResult; stage : Stage }.

Definition cbId (c : Callback) : string := matchId (cbMatch c).

Definition cbRow (c : Callback) : ResultRow :=
  finalRow (homeGoals (cbSim c)) (awayGoals (cbSim c)).

Definition moveTo (s : Stage) (c : Callback) : Callback :=
  mkCallback (cbMatch c) (cbSim c) s.

(** The synchronous start of the callback for [m], up to its first
    [await]: nothing without a cached simulation, [saveMatchResult]
    otherwise. *)
Definition startCallback (snap : Snapshot) (now : Z) (b : Backend) (m : Match) : Backend :=
  match snapCache snap !! matchId m with
  | None => b
  | Some sim =>
      saveMatchResult
        (mkHistory (matchId m) (homeShortName m) (awayShortName m)
           (homeGoals sim) (awayGoals sim) (winner sim) now (snapCountry snap)) b
  end.

(** The callback [m] leaves suspended at its first [await], if any. *)
Definition suspended (snap : Snapshot) (m : Match) : option Callback :=
  match snapCache snap !! matchId m with
  | None => None
  | Some sim => Some (mkCallback m sim AwaitMatchRow)
  end.

(** The request a suspended callback is waiting for is answered with
    [reply], and the callback runs on to its next [await] or to its end.
    Neither [error] of an answer nor the result of [resolveBetsForMatch]
    changes what the callback does next; a rejection ends it in its
    [catch]. *)
Definition resume (reply : Reply) (c : Callback) (b : Backend) : Backend * Callback :=
  let id := cbId c in
  let sim := cbSim c in
  match stage c with
  | AwaitMatchRow =>
      let existingMatch := match reply with Served => matchesTbl b !! id | _ => None end in
      (logCall (SelectMatchRaw id) b,
       match existingMatch with
       | Some _ => moveTo AwaitRawUpdate c
       | None => moveTo Done c
       end)
  | AwaitRawUpdate =>
      (updateMatchRaw reply id (homeGoals sim) (awayGoals sim) b,
       match reply with
       | Rejected => moveTo Done c
       | _ => moveTo AwaitResultRow c
       end)
  | AwaitResultRow =>
      (logCall (SelectResult id) b,
       match reply with
       | Served =>
           moveTo (AwaitResultWrite
                     (match matchResults b !! id with Some _ => true | None => false end)) c
       | Refused => moveTo (AwaitResultWrite false) c
       | Rejected => moveTo Done c
       end)
  | AwaitResultWrite existingResult =>
      let resultWinner := winnerOf (homeGoals sim) (awayGoals sim) in
      let row := mkRow (homeGoals sim) (awayGoals sim) resultWinner true in
      (if existingResult then updateResult reply id row b else insertResult reply id row b,
       match reply with
       | Rejected => moveTo Done c
       | _ => moveTo AwaitResolution c
       end)
  | AwaitResolution =>
      (logCall (ResolveBets id (homeGoals sim) (awayGoals sim)) b, moveTo Done c)
  | Done => (b, c)
  end.

(** What surrounds a run: [turn k] is the callback whose request is
    answered at step [k] of the run, [reply k] is the answer. *)
Record Network := mkNetwork { turn : nat -> nat; reply : nat -> Reply }.

Definition waiting (c : Callback) : bool :=
  match stage c with Done => false | _ => true end.

Fixpoint firstWaiting (cs : list Callback) : option nat :=
  match cs with
  | [] => None
  | c :: rest => if waiting c then Some 0%nat else option_map S (firstWaiting rest)
  end.

(** The callback answered next: the one the network names if it is
    suspended, otherwise the first suspended one. *)
Definition chosen (i : nat) (cs : list Callback) : option nat :=
  match cs !! i with
  | Some c => if waiting c then Some i else firstWaiting cs
  | None => firstWaiting cs
  end.

(** Step [k] of [Promise.all(matches.map(...))]: one suspended callback
    gets its answer and runs to its next [await]. *)
Definition stepCallbacks (net : Network) (k : nat) (st : Backend * list Callback)
  : Backend * list Callback :=
  match chosen (turn net k) (snd st) with
  | None => st
  | Some i =>
      match snd st !! i with
      | Some c =>
          let r := resume (reply net k) c (fst st) in
          (fst r, <[i := snd r]> (snd st))
      | None => st
      end
  end.

Fixpoint runCallbacks (net : Network) (steps : nat) (k : nat) (st : Backend * list Callback)
  : Backend * list Callback :=
  match steps with
  | O => st
  | S steps' => runCallbacks net steps' (S k) (stepCallbacks net k st)
  end.

(** The [await]s a callback still has before it. *)
Definition remaining (c : Callback) : nat :=
  match stage c with
  | AwaitMatchRow => 5
  | AwaitRawUpdate => 4
  | AwaitResultRow => 3
  | AwaitResultWrite _ => 2
  | AwaitResolution => 1
  | Done => 0
  end.

Definition totalRemaining (cs : list Callback) : nat :=
  foldr (fun c n => (remaining c + n)%nat) 0%nat cs.

(** [Promise.all(matches.map(...))] after [steps] answers: every callback
    has run its synchronous start in list order, then the suspended ones
    are answered one request at a time in the order of the network. *)
Definition settleUntil (steps : nat) (net : Network) (snap : Snapshot) (now : Z) (b : Backend)
  : Backend * list Callback :=
  let started := foldl (startCallback snap now) b (snapMatches snap) in
  let cs := omap (suspended snap) (snapMatches snap) in
  runCallbacks net steps 0 (started, cs).

(** The stores when [await Promise.all(...)] returns.  Five answers per
    callback end them all. *)
Definition settleAll (net : Network) (snap : Snapshot) (now : Z) (b : Backend)
  : Backend * list Callback :=
  settleUntil (5 * length (omap (suspended snap) (snapMatches snap))) net snap now b.

(** A pending [setTimeout]. *)
Record Timer := mkTimer { timerId : nat; fireAt : Z; sweepMatch : string }.

(** The React state the effect depends on. *)
Record Component := mkComponent {
  matchState : Clock.Phase;
  selectedTimeSlot : option string;
  matchupsByTimeframe : gmap string (list Match);
  matchSimCache : gmap string SimResult;
  selectedCountry : string;
  resultsSavedForPhase : bool;
  matchHistory : list HistoryEntry;
  mounted : bool
}.

(** The component together with what surrounds it: the stores, the
    [handleMatchResults] calls that were started and have not finished,
    the timers of the event loop, the time in milliseconds, and the cleanup
    function React holds for the effect ([None] when the effect returned
    none). *)
Record World := mkWorld {
  comp : Component;
  backend : Backend;
  inFlight : list Snapshot;
  timers : list Timer;
  nextTimerId : nat;
  clock : Z;
  effectCleanup : option (list nat)
}.

Definition setSaved (v : bool) (c : Component) : Component :=
  mkComponent (matchState c) (selectedTimeSlot c) (matchupsByTimeframe c)
    (matchSimCache c) (selectedCountry c) v (matchHistory c) (mounted c).

(** [clearTimeout] of every id of a cleanup function. *)
Definition clearTimers (ids : list nat) (ts : list Timer) : list Timer :=
  List.filter (fun t => negb (existsb (Nat.eqb (timerId t)) ids)) ts.

(** The sweep delay in milliseconds. *)
Definition sweepDelay : Z := 95000.

(** [allMatches.forEach(match => timeoutIds.push(setTimeout(..., 95000)))]:
    the new timers, from timer id [n] on. *)
Fixpoint scheduleSweeps (now : Z) (n : nat) (ms : list Match) : list Timer :=
  match ms with
  | [] => []
  | m :: rest => mkTimer n (now + sweepDelay) (matchId m) :: scheduleSweeps now (S n) rest
  end.

(** One run of [handleMatchResults] to completion: the per-match work
    under the network [net], the two [setState] calls, the sweeps.  The
    second component is the function the closure returns: the ids its
    cleanup would clear. *)
Definition handleMatchResults (net : Network) (snap : Snapshot) (w : World)
  : World * list nat :=
  let b := fst (settleAll net snap (clock w) (backend w)) in
  let c := comp w in
  let c := mkComponent (matchState c) (selectedTimeSlot c) (matchupsByTimeframe c)
             (matchSimCache c) (selectedCountry c) true (history b) (mounted c) in
  let sweeps := scheduleSweeps (clock w) (nextTimerId w) (snapMatches snap) in
  (mkWorld c b (inFlight w) (timers w ++ sweeps)
           (nextTimerId w + length sweeps)%nat (clock w) (effectCleanup w),
   map timerId sweeps).

(** The run the effect starts, if any: the test
    [matchState === 'betting' && selectedTimeSlot &&
     matchupsByTimeframe[slot] && !resultsSavedForPhase], and the values
    the new [handleMatchResults] closure captures. *)
Definition startedBy (c : Component) : list Snapshot :=
  match matchState c, selectedTimeSlot c with
  | Clock.Betting, Some slot =>
      match matchupsByTimeframe c !! slot with
      | Some matches =>
          if resultsSavedForPhase c then []
          else [mkSnapshot matches (matchSimCache c) (selectedCountry c)]
      | None => []
      end
  | _, _ => []
  end.

(** The body of the effect.  It returns the world with its writes applied
    and the cleanup function it hands to React: the arrow function has no
    [return] statement, and the value of the [handleMatchResults()] call (a
    promise of that closure's cleanup) is dropped. *)
Definition settlementEffectBody (w : World) : World * option (list nat) :=
  let c := comp w in
  let queue := inFlight w ++ startedBy c in
  let c' := match matchState c with
            | Clock.Betting => c
            | _ => setSaved false c
            end in
  (mkWorld c' (backend w) queue (timers w) (nextTimerId w) (clock w) (effectCleanup w), None).

(** React evaluating the effect: the cleanup of the previous evaluation
    runs first, then the body, whose return value becomes the new cleanup. *)
Definition runCleanup (w : World) : World :=
  match effectCleanup w with
  | Some ids => mkWorld (comp w) (backend w) (inFlight w) (clearTimers ids (timers w))
                        (nextTimerId w) (clock w) None
  | None => w
  end.

Definition settlementEffect (w : World) : World :=
  let '(w', cleanup) := settlementEffectBody (runCleanup w) in
  mkWorld (comp w') (backend w') (inFlight w') (timers w') (nextTimerId w') (clock w') cleanup.

(** The oldest started [handleMatchResults] call runs to completion. *)
Definition handlerCompletes (net : Network) (w : World) : World :=
  match inFlight w with
  | [] => w
  | snap :: rest =>
      fst (handleMatchResults net snap
             (mkWorld (comp w) (backend w) rest (timers w) (nextTimerId w) (clock w)
                      (effectCleanup w)))
  end.

(** The component is torn down: React runs the effect's cleanup. *)
Definition unmount (w : World) : World :=
  let w := runCleanup w in
  let c := comp w in
  mkWorld (mkComponent (matchState c) (selectedTimeSlot c) (matchupsByTimeframe c)
             (matchSimCache c) (selectedCountry c) (resultsSavedForPhase c)
             (matchHistory c) false)
          (backend w) (inFlight w) (timers w) (nextTimerId w) (clock w) (effectCleanup w).

(** Time passes: every timer that is due fires once, in order, calling
    [forceResolveStaleBets(match.id)], and is gone. *)
Definition advanceTime (dt : Z) (w : World) : World :=
  let now := clock w + dt in
  let due := List.filter (fun t => fireAt t <=? now) (timers w) in
  let rest := List.filter (fun t => negb (fireAt t <=? now)) (timers w) in
  let b := foldl (fun b t => logCall (ForceResolveStale (sweepMatch t)) b) (backend w) due in
  mkWorld (comp w) b (inFlight w) rest (nextTimerId w) now (effectCleanup w).

(** The phase clock moves the component to another phase. *)
Definition setMatchState (p : Clock.Phase) (w : World) : World :=
  let c := comp w in
  mkWorld (mkComponent p (selectedTimeSlot c) (matchupsByTimeframe c)
             (matchSimCache c) (selectedCountry c) (resultsSavedForPhase c)
             (matchHistory c) (mounted c))
          (backend w) (inFlight w) (timers w) (nextTimerId w) (clock w) (effectCleanup w).

(** Is this request a write of the row [row] for match [id]? *)
Definition isUpsertOf (id : string) (row : ResultRow) (c : Call) : Prop :=
  c = UpdateResult id row \/ c = InsertResult id row.

(** In a log, every bet resolution comes after a write request for the
    final row of the same match with the same score. *)
Definition writeBeforeResolve (log : list Call) : Prop :=
  forall pre id hg ag post,
    log = pre ++ ResolveBets id hg ag :: post ->
    exists u, In u pre /\ isUpsertOf id (finalRow hg ag) u.

(** The requests a run added to a log that had [n] entries. *)
Definition addedSince (n : nat) (b : Backend) : list Call := drop n (calls b).

(** The request a suspended callback is waiting for. *)
Definition requestOf (c : Callback) : list Call :=
  match stage c with
  | AwaitMatchRow => [SelectMatchRaw (cbId c)]
  | AwaitRawUpdate => [UpdateMatchRaw (cbId c) (homeGoals (cbSim c)) (awayGoals (cbSim c))]
  | AwaitResultRow => [SelectResult (cbId c)]
  | AwaitResultWrite true => [UpdateResult (cbId c) (cbRow c)]
  | AwaitResultWrite false => [InsertResult (cbId c) (cbRow c)]
  | AwaitResolution => [ResolveBets (cbId c) (homeGoals (cbSim c)) (awayGoals (cbSim c))]
  | Done => []
  end.

(** The callback carries the cached simulation of its match. *)
Definition fromCache (snap : Snapshot) (c : Callback) : Prop :=
  snapCache snap !! cbId c = Some (cbSim c).

(** During a run that started when the log had [n0] entries: every
    resolution in the log is for the cached score of its match and comes
    after the write request of that match, and a callback about to resolve
    has sent its write request. *)
Definition orderOK (snap : Snapshot) (n0 : nat) (b : Backend) (cs : list Callback) : Prop :=
  (n0 <= length (calls b))%nat /\
  writeBeforeResolve (addedSince n0 b) /\
  (forall id hg ag, In (ResolveBets id hg ag) (addedSince n0 b) ->
     exists sim, snapCache snap !! id = Some sim /\ homeGoals sim = hg /\ awayGoals sim = ag) /\
  Forall (fun c => fromCache snap c /\
                   (stage c = AwaitResolution ->
                    exists u, In u (addedSince n0 b) /\ isUpsertOf (cbId c) (cbRow c) u)) cs.

(** What the store holds for a callback, by the [await] it is at: the row
    it found is still there; once its write has been answered its final
    row is stored.  With [strict] the same is required of a callback that
    has ended, if its match is in [matches]. *)
Definition rowFor (strict : bool) (b : Backend) (c : Callback) : Prop :=
  match stage c with
  | AwaitResultWrite true => is_Some (matchResults b !! cbId c)
  | AwaitResolution => matchResults b !! cbId c = Some (cbRow c)
  | Done =>
      strict = true -> is_Some (matchesTbl b !! cbId c) ->
      matchResults b !! cbId c = Some (cbRow c)
  | _ => True
  end.

(** The replies under which [rowFor] is kept: all served when [strict],
    none refused otherwise. *)
Definition allowed (strict : bool) (r : Reply) : Prop :=
  if strict then r = Served else r <> Refused.

Definition storedOK (strict : bool) (snap : Snapshot) (n0 : nat)
    (b : Backend) (cs : list Callback) : Prop :=
  (n0 <= length (calls b))%nat /\
  (forall id hg ag, In (ResolveBets id hg ag) (addedSince n0 b) ->
     (exists sim, snapCache snap !! id = Some sim /\ homeGoals sim = hg /\ awayGoals sim = ag) /\
     matchResults b !! id = Some (finalRow hg ag)) /\
  Forall (fun c => fromCache snap c /\ rowFor strict b c) cs.

(** A callback past its first [await] and not ended has found its match
    in [matches]. *)
Definition foundInMatches (b : Backend) (c : Callback) : Prop :=
  stage c <> AwaitMatchRow -> stage c <> Done -> is_Some (matchesTbl b !! cbId c).

(** The matches of a list that have a cached simulation. *)
Definition simulatedIn (snap : Snapshot) (ms : list Match) : list Match :=
  List.filter (fun m => match snapCache snap !! matchId m with Some _ => true | None => false end) ms.

(** Every match of [ms] that a run would settle already has its final
    row. *)
Definition alreadySettled (snap : Snapshot) (ms : list Match) (b : Backend) : Prop :=
  forall m sim,
    In m ms -> snapCache snap !! matchId m = Some sim ->
    is_Some (matchesTbl b !! matchId m) ->
    matchResults b !! matchId m = Some (finalRow (homeGoals sim) (awayGoals sim)).

(** Sample data: one timeframe with two matches, both simulated, both
    present in [matches]; the first already has a (non-final) result row. *)
Definition m1 : Match := mkMatch "ke-1000-0" "GOR" "AFC".
Definition m2 : Match := mkMatch "ke-1000-1" "TUS" "ULI".

Definition sampleCache : gmap string SimResult :=
  <["ke-1000-0" := mkSim 2 1 WinHome [mkEvent 5 Home; mkEvent 9 Away; mkEvent 30 Home]]>
  (<["ke-1000-1" := mkSim 0 0 Draw []]> ∅).

Definition sampleBackend : Backend :=
  mkBackend []
    (<["ke-1000-0" := mkRaw None None "ns" false]>
     (<["ke-1000-1" := mkRaw None None "ns" false]> ∅))
    (<["ke-1000-0" := mkRow 0 0 Draw false]> ∅)
    [].

Definition sampleWorld : World :=
  mkWorld
    (mkComponent Clock.Betting (Some "slot-1000")
       (<["slot-1000" := [m1; m2]]> ∅) sampleCache "ke" false [] true)
    sampleBackend [] [] 0 1000 None.

Definition sampleSnapshot : Snapshot := mkSnapshot [m1; m2] sampleCache "ke".

(** Sample networks.  Every request served, the callbacks answered one
    after the other; every request served, the two callbacks answered in
    turns; and the same turns with the eighth answer, the one to the second
    match's insert, an error. *)
Definition oneByOne : Network := mkNetwork (fun _ => 0%nat) (fun _ => Served).

Definition inTurns : Network := mkNetwork (fun k => (k mod 2)%nat) (fun _ => Served).

Definition insertRefused : Network :=
  mkNetwork (fun k => (k mod 2)%nat) (fun k => if (k =? 7)%nat then Refused else Served).

End Settlement.

(* ===================================================================== *)
(** ** Schedule lookup ([matchScheduleService], [globalTimeMatchSystem]) *)
(* ===================================================================== *)
Module Schedule.

(** A JavaScript number as these functions produce it: an integer, or one
    of the three values a division by zero yields. *)
Inductive Num := Fin (z : Z) | PosInf | NegInf | NaN.

(** [x < 0]. *)
Definition isNegative (x : Num) : bool :=
  match x with Fin z => z <? 0 | NegInf => true | PosInf | NaN => false end.

Record GlobalSchedule := mkSchedule {
  referenceEpoch : Z;     (* Unix time in milliseconds *)
  matchInterval : Z       (* minutes between matches *)
}.

Record Match := mkMatch {
  id : string;
  homeTeam : string;
  awayTeam : string;
  kickoffTime : Z
}.

Record ScheduledMatch := mkScheduled {
  matchId : string;
  scheduleIndex : Z;
  scheduledStartTime : Z;
  sHomeTeam : string;
  sAwayTeam : string
}.

(** A call either returns a value or throws (reading a property of
    [undefined]). *)
Inductive Outcome (A : Type) := Returned (a : A) | Thrown.
Arguments Returned {A} a.
Arguments Thrown {A}.

(** [Math.floor(timeDiff / (matchInterval * 60000))].  For a non-zero
    divisor this is the floor of the exact quotient, which is what [Z.div]
    computes; a zero divisor gives an infinity or NaN by the sign of the
    dividend. *)
Definition findScheduleIndexForTime (time : Z) (sched : GlobalSchedule) : Num :=
  let timeDiff := time - referenceEpoch sched in
  let divisor := matchInterval sched * 60000 in
  if divisor =? 0 then
    (if timeDiff <? 0 then NegInf else if timeDiff =? 0 then NaN else PosInf)
  else Fin (timeDiff / divisor).

(** [calculateScheduledTime(scheduleIndex, sched).getTime()]. *)
Definition calculateScheduledTime (scheduleIndex : Z) (sched : GlobalSchedule) : Z :=
  referenceEpoch sched + scheduleIndex * matchInterval sched * 60000.

(** [scheduleIndex % allMatches.length]: the remainder has the sign of the
    dividend; a zero length or a non-finite index gives NaN. *)
Definition modLength (i : Num) (len : nat) : Num :=
  match i with
  | Fin z => if (len =? 0)%nat then NaN else Fin (Z.rem z (Z.of_nat len))
  | _ => NaN
  end.

(** [allMatches[i]]: [undefined] unless [i] is an index of the array. *)
Definition element {A} (l : list A) (i : Num) : option A :=
  match i with
  | Fin z => if z <? 0 then None else l !! Z.to_nat z
  | _ => None
  end.

(** Decimal rendering of an integer inside a template string. *)
Definition showZ (z : Z) : string :=
  let sign := if z <? 0 then "-"%string else EmptyString in
  String.append sign (NilZero.string_of_uint (N.to_uint (Z.abs_N z))).

(** The value a lookup returns, with the indices at which it read the
    match pool. *)
Record Lookup (A : Type) := mkLookup { reads : list Num; result : A }.
Arguments mkLookup {A} reads result.
Arguments reads {A} l.
Arguments result {A} l.

Section WithStoredSchedule.
(** What [getGlobalSchedule()] returns. *)
Variable storedSchedule : GlobalSchedule.

(** [matchScheduleService.getMatchAtTime(time, allMatches, schedule?)]. *)
Definition getMatchAtTimeTraced (time : Z) (allMatches : list Match)
    (schedule : option GlobalSchedule) : Lookup (option ScheduledMatch) :=
  let sched := match schedule with Some s => s | None => storedSchedule end in
  let scheduleIndex := findScheduleIndexForTime time sched in
  if isNegative scheduleIndex then mkLookup [] None
  else
    let matchIndex := modLength scheduleIndex (length allMatches) in
    match element allMatches matchIndex, scheduleIndex with
    | Some m, Fin si =>
        mkLookup [matchIndex]
          (Some (mkScheduled (id m) si (calculateScheduledTime si sched)
                             (homeTeam m) (awayTeam m)))
    | _, _ => mkLookup [matchIndex] None
    end.

Definition getMatchAtTime (time : Z) (allMatches : list Match)
    (schedule : option GlobalSchedule) : option ScheduledMatch :=
  result (getMatchAtTimeTraced time allMatches schedule).

(** The body of [globalTimeMatchSystem.getCurrentMatch()] from the pool
    on, with the value of [new Date()] and the pool as arguments;
    [getCurrentMatchLive] below runs it on the pool that
    [getAllAvailableMatches()] builds.  There is no [!match] test on this
    path: spreading [undefined] is harmless but reading [match.id]
    throws. *)
Definition getCurrentMatchTraced (now : Z) (allMatches : list Match)
    : Lookup (Outcome (option Match)) :=
  if (length allMatches =? 0)%nat then mkLookup [] (Returned None)
  else
    let currentIndex := findScheduleIndexForTime now storedSchedule in
    if isNegative currentIndex then mkLookup [] (Returned None)
    else
      let matchIndex := modLength currentIndex (length allMatches) in
      match element allMatches matchIndex, currentIndex with
      | Some m, Fin ci =>
          mkLookup [matchIndex]
            (Returned (Some (mkMatch (id m ++ "-" ++ showZ ci)%string (homeTeam m) (awayTeam m)
                                     (calculateScheduledTime ci storedSchedule))))
      | _, _ => mkLookup [matchIndex] Thrown
      end.

Definition getCurrentMatch (now : Z) (allMatches : list Match) : Outcome (option Match) :=
  result (getCurrentMatchTraced now allMatches).
End WithStoredSchedule.

(** Length of a slot in milliseconds. *)
Definition slotMs (sched : GlobalSchedule) : Z := matchInterval sched * 60000.

(** [x + i] for a number [x] and an integer [i]. *)
Definition numAdd (x : Num) (i : Z) : Num :=
  match x with Fin z => Fin (z + i) | other => other end.

(** The body shared by the loops of [getUpcomingMatches] and
    [getPastMatches] of the schedule service, after the index has been
    computed: [None] is a [continue]. *)
Definition entryAt (sched : GlobalSchedule) (allMatches : list Match)
    (scheduleIndex : Num) : option ScheduledMatch :=
  if isNegative scheduleIndex then None
  else
    match element allMatches (modLength scheduleIndex (length allMatches)), scheduleIndex with
    | Some m, Fin si =>
        Some (mkScheduled (id m) si (calculateScheduledTime si sched)
                          (homeTeam m) (awayTeam m))
    | _, _ => None
    end.

(** The pool entry that plays slot [z]. *)
Definition poolEntry (pool : list Match) (z : Z) : option Match :=
  pool !! Z.to_nat (z mod Z.of_nat (length pool)).

(** The record the service reports for slot [z] when the pool entry is
    [m]. *)
Definition scheduledAs (sched : GlobalSchedule) (z : Z) (m : Match) : ScheduledMatch :=
  mkScheduled (id m) z (calculateScheduledTime z sched) (homeTeam m) (awayTeam m).

Section MoreLookups.
(** What [getGlobalSchedule()] returns. *)
Variable storedSchedule : GlobalSchedule.

(** [matchScheduleService.getUpcomingMatches(fromTime, count, allMatches,
    schedule?)]: [i] runs from 0 to [count - 1]. *)
Definition getUpcomingMatches (fromTime : Z) (count : nat) (allMatches : list Match)
    (schedule : option GlobalSchedule) : list ScheduledMatch :=
  let sched := match schedule with Some s => s | None => storedSchedule end in
  let currentIndex := findScheduleIndexForTime fromTime sched in
  omap (fun i => entryAt sched allMatches (numAdd currentIndex (Z.of_nat i))) (seq 0 count).

(** [matchScheduleService.getPastMatches(fromTime, count, allMatches,
    schedule?)]: [i] runs from 1 to [count], and every entry is put in
    front of the ones found before it ([past.unshift]). *)
Definition getPastMatches (fromTime : Z) (count : nat) (allMatches : list Match)
    (schedule : option GlobalSchedule) : list ScheduledMatch :=
  let sched := match schedule with Some s => s | None => storedSchedule end in
  let currentIndex := findScheduleIndexForTime fromTime sched in
  foldl (fun past i =>
           match entryAt sched allMatches (numAdd currentIndex (- Z.of_nat i)) with
           | Some e => e :: past
           | None => past
           end)
        [] (seq 1 count).

(** [Math.ceil(x / 1000)] for an integer [x]. *)
Definition ceilDiv1000 (x : Z) : Z := - ((- x) / 1000).

(** [globalTimeMatchSystem.getTimeUntilNextMatch()], in seconds, with the
    value of [new Date()] as argument.  A non-finite index makes the
    scheduled time, and with it the result, NaN. *)
Definition getTimeUntilNextMatch (now : Z) : Num :=
  match findScheduleIndexForTime now storedSchedule with
  | Fin currentIndex =>
      let nextMatchTime := calculateScheduledTime (currentIndex + 1) storedSchedule in
      let diffMs := nextMatchTime - now in
      Fin (Z.max 0 (ceilDiv1000 diffMs))
  | _ => NaN
  end.
End MoreLookups.

(** The end of [getAllAvailableMatches()], from the shuffled pool on:
    [while (duplicatedMatches.length < 54) duplicatedMatches.push(...shuffled)]
    and [slice(0, 54)].  [fuel] bounds the number of loop iterations;
    [None] means the loop is still running when it is used up. *)
Fixpoint padLoop {A} (fuel : nat) (shuffled duplicated : list A) : option (list A) :=
  if (length duplicated <? 54)%nat then
    match fuel with
    | O => None
    | S fuel' => padLoop fuel' shuffled (duplicated ++ shuffled)
    end
  else Some duplicated.

Definition padPool {A} (fuel : nat) (shuffled : list A) : option (list A) :=
  if (length shuffled <? 54)%nat then
    match padLoop fuel shuffled shuffled with
    | Some duplicated => Some (take 54 duplicated)
    | None => None
    end
  else Some shuffled.

(** [globalTimeMatchSystem.getCurrentMatch()] as the module runs it: the
    pool is what [getAllAvailableMatches()] returns from the shuffled
    pairings.  [None] means that the padding loop is still running when
    [fuel] is used up, so that nothing is returned. *)
Definition getCurrentMatchLive (storedSchedule : GlobalSchedule) (now : Z) (fuel : nat)
    (shuffled : list Match) : option (Outcome (option Match)) :=
  match padPool fuel shuffled with
  | Some allMatches => Some (getCurrentMatch storedSchedule now allMatches)
  | None => None
  end.

(** [k] copies of a list, one after the other. *)
Fixpoint copies {A} (k : nat) (l : list A) : list A :=
  match k with O => [] | S k' => l ++ copies k' l end.

(** [dup] is [shuffled] repeated a whole number of times. *)
Definition repeats {A} (shuffled dup : list A) : Prop :=
  exists k, dup = copies k shuffled.

(** Sample data. *)
Definition sampleSchedule : GlobalSchedule := mkSchedule 1700000000000 30.
Definition samplePool : list Match :=
  [ mkMatch "ke-GOR-vs-AFC" "Gor Mahia" "AFC Leopards" 0;
    mkMatch "ke-TUS-vs-ULI" "Tusker" "Ulinzi Stars" 0 ].

End Schedule.

(* ===================================================================== *)
(** ** Fixtures and timeframes (helpers of the page component)           *)
(* ===================================================================== *)
Module Fixtures.

(** The index pairs of one week of [generateLeagueFixtures] for [n] teams:
    [i] runs while [i < n / 2] (a real-number division, so up to and
    including the middle team when [n] is odd). *)
Definition weekPairings (n week : nat) : list (nat * nat) :=
  map (fun i => ((week + i) mod n, (week + n - i - 1) mod n)%nat) (seq 0 ((n + 1) / 2)).

(** [generateLeagueFixtures(league)]: weeks 1 to 36; an array access is
    [None] where it would be [undefined]. *)
Definition generateLeagueFixtures {A} (teams : list A)
  : list (nat * list (option A * option A)) :=
  map (fun week =>
         (week, map (fun p => (teams !! fst p, teams !! snd p))
                    (weekPairings (length teams) week)))
      (seq 1 36).

(** The nested loops [for i] / [for j = i + 1] that build every pairing of
    a league once (in [loadGlobalTimeMatches] and in
    [getAllAvailableMatches]). *)
Fixpoint allPairs {A} (teams : list A) : list (A * A) :=
  match teams with
  | [] => []
  | home :: rest => map (fun away => (home, away)) rest ++ allPairs rest
  end.

(** [getTimeSlots(count)], with the value of [new Date()] in milliseconds:
    [i] runs from -2 to [count - 3], the slots are two minutes apart. *)
Definition getTimeSlots (now : Z) (count : nat) : list Z :=
  map (fun k => now + (Z.of_nat k - 2) * 2 * 60000) (seq 0 count).

(** [slots.findIndex(slot => Math.abs(slot - time) < 60000)]; -1 when no
    slot qualifies. *)
Fixpoint findSlotFrom (i : Z) (time : Z) (slots : list Z) : Z :=
  match slots with
  | [] => -1
  | slot :: rest =>
      if Z.abs (slot - time) <? 60000 then i else findSlotFrom (i + 1) time rest
  end.

Definition getSlotIndexForTime (time : Z) (slots : list Z) : Z :=
  findSlotFrom 0 time slots.

(** A match card of a timeframe, as [loadGlobalTimeMatches] builds it. *)
Record Card (A : Type) := mkCard {
  cardId : string;
  cardHome : A;
  cardAway : A;
  cardKickoff : Z
}.
Arguments mkCard {A} cardId cardHome cardAway cardKickoff.
Arguments cardId {A} c.
Arguments cardHome {A} c.
Arguments cardAway {A} c.
Arguments cardKickoff {A} c.

(** [while (availableMatches.length < 9) availableMatches.push(...shuffled)];
    [None] when the loop is still running after [fuel] iterations. *)
Fixpoint fillToNine {A} (fuel : nat) (shuffled available : list A) : option (list A) :=
  if (length available <? 9)%nat then
    match fuel with
    | O => None
    | S fuel' => fillToNine fuel' shuffled (available ++ shuffled)
    end
  else Some available.

(** What [loadGlobalTimeMatches] accumulates: the matches of every slot
    (keyed by the slot time), the simulation cache, and the next unused
    random draw. *)
Record Loaded (A : Type) := mkLoaded {
  matchups : list (Z * list (Card A));
  simCache : gmap string Simulator.SimResult;
  nextDraw : nat
}.
Arguments mkLoaded {A} matchups simCache nextDraw.
Arguments matchups {A} l.
Arguments simCache {A} l.
Arguments nextDraw {A} l.

(** [`${selectedCountry}-${slot.getTime()}-${i}`]. *)
Definition cardIdOf (country : string) (slot : Z) (i : nat) : string :=
  (country ++ "-" ++ Schedule.showZ slot ++ "-" ++ Schedule.showZ (Z.of_nat i))%string.

Section LoadTimeframes.
Context {A : Type}.
Variable rand : nat -> Q.
Variable country : string.
(** The pool after the shuffle and the padding, never empty here. *)
Variable available : list (A * A).

(** The inner loop [for (let i = 0; i < 9; i++)] for the slot with index
    [idx] and time [slot]: [i] is the first position still to build, [n]
    the number of positions left. *)
Fixpoint buildSlot (idx : nat) (slot : Z) (n i : nat)
    (cards : list (Card A)) (cache : gmap string Simulator.SimResult) (k : nat)
  : list (Card A) * gmap string Simulator.SimResult * nat :=
  match n with
  | O => (cards, cache, k)
  | S n' =>
      let matchIndex := ((idx * 9 + i) mod length available)%nat in
      match available !! matchIndex with
      | Some matchData =>
          let matchId := cardIdOf country slot i in
          let '(sim, k') := Simulator.simulateMatch rand matchId 40 None k in
          buildSlot idx slot n' (S i)
            (cards ++ [mkCard matchId (fst matchData) (snd matchData) slot])
            (<[matchId := sim]> cache) k'
      | None => (cards, cache, k)   (* reading a field of [undefined] throws *)
      end
  end.

(** [slots.forEach((slot, idx) => ...)]. *)
Fixpoint buildSlots (idx : nat) (slots : list Z) (acc : Loaded A) : Loaded A :=
  match slots with
  | [] => acc
  | slot :: rest =>
      let '(cards, cache, k) := buildSlot idx slot 9 0 [] (simCache acc) (nextDraw acc) in
      buildSlots (S idx) rest (mkLoaded (matchups acc ++ [(slot, cards)]) cache k)
  end.
End LoadTimeframes.

(** [loadGlobalTimeMatches] from the shuffled pairings on: [shuffled] is
    the result of [leagueMatches.sort(() => Math.random() - 0.5)] and [k]
    the first draw after it. *)
Definition loadGlobalTimeMatches {A} (rand : nat -> Q) (country : string)
    (slots : list Z) (shuffled : list (A * A)) (fuel k : nat) : option (Loaded A) :=
  match fillToNine fuel shuffled shuffled with
  | Some available => Some (buildSlots rand country available 0 slots (mkLoaded [] ∅ k))
  | None => None
  end.

End Fixtures.

(* ===================================================================== *)
(** ** Bet validation ([bettingService.validateBetsBeforePlacement]) and
       shuffled fixtures ([matchGenerator.generateShuffledFixtures])     *)
(* ===================================================================== *)
Module Betting.

(** A JavaScript number: a finite value (every finite double is a
    rational), an infinity, or NaN. *)
Inductive Number := Finite (q : Q) | PosInfinity | NegInfinity | NotANumber.

(** [x <= 0]. *)
Definition leZero (x : Number) : bool :=
  match x with
  | Finite q => Qle_bool q 0
  | NegInfinity => true
  | PosInfinity | NotANumber => false
  end.

(** [x < 50]. *)
Definition belowMinimum (x : Number) : bool :=
  match x with
  | Finite q => Qltb q 50
  | NegInfinity => true
  | PosInfinity | NotANumber => false
  end.

Record BetToBePlaced := mkBet {
  match_id : string;
  bet_type : string;
  selection : string;
  amount : Number;
  odds : Number
}.

(** [!s] for a string. *)
Definition isBlank (s : string) : bool :=
  match s with EmptyString => true | _ => false end.

(** [`Bet ${index}: ${text}`]. *)
Definition betError (index : nat) (text : string) : string :=
  ("Bet " ++ Schedule.showZ (Z.of_nat index) ++ ": " ++ text)%string.

(** The body of [bets.forEach((bet, index) => ...)]: the errors pushed for
    one bet.  Both fields are numbers by their type, so the two [typeof]
    tests never fire. *)
Definition errorsOf (index : nat) (bet : BetToBePlaced) : list string :=
  (if isBlank (match_id bet) then [betError index "Missing match ID"] else []) ++
  (if isBlank (bet_type bet) then [betError index "Missing bet type"] else []) ++
  (if isBlank (selection bet) then [betError index "Missing selection"] else []) ++
  (if leZero (amount bet) then [betError index "Invalid amount"] else []) ++
  (if belowMinimum (amount bet) then [betError index "Minimum stake is 50 KES"] else []) ++
  (if leZero (odds bet) then [betError index "Invalid odds"] else []).

Fixpoint errorsFrom (index : nat) (bets : list BetToBePlaced) : list string :=
  match bets with
  | [] => []
  | bet :: rest => errorsOf index bet ++ errorsFrom (S index) rest
  end.

(** [validateBetsBeforePlacement(bets)]: the pair of [valid] and
    [errors]. *)
Definition validateBetsBeforePlacement (bets : list BetToBePlaced) : bool * list string :=
  match bets with
  | [] => (false, ["No bets to place"%string])
  | _ =>
      let errors := errorsFrom 0 bets in
      (match errors with [] => true | _ => false end, errors)
  end.

(** What validation lets through, field by field. *)
Definition stakeAccepted (x : Number) : Prop :=
  match x with
  | Finite q => (50 <= q)%Q
  | PosInfinity | NotANumber => True
  | NegInfinity => False
  end.

Definition oddsAccepted (x : Number) : Prop :=
  match x with
  | Finite q => (0 < q)%Q
  | PosInfinity | NotANumber => True
  | NegInfinity => False
  end.

Definition accepted (bet : BetToBePlaced) : Prop :=
  match_id bet <> EmptyString /\ bet_type bet <> EmptyString /\
  selection bet <> EmptyString /\
  stakeAccepted (amount bet) /\ oddsAccepted (odds bet).

(** The inner loop of [generateShuffledFixtures]:
    [for (i = 0; i < shuffledTeams.length - 1; i += 2)] pairs neighbours. *)
Fixpoint pairNeighbours {A} (shuffledTeams : list A) : list (A * A) :=
  match shuffledTeams with
  | home :: away :: rest => (home, away) :: pairNeighbours rest
  | _ => []
  end.

(** [generateShuffledFixtures(league, weeks)], given for every week the
    order its [sort(() => Math.random() - 0.5)] produced. *)
Definition generateShuffledFixtures {A} (shuffleOf : nat -> list A) (weeks : nat)
  : list (nat * list (A * A)) :=
  map (fun week => (week, pairNeighbours (shuffleOf week))) (seq 1 weeks).

(** The two sides of every match, in order. *)
Definition sidesOf {A} (ms : list (A * A)) : list A :=
  flat_map (fun p => [fst p; snd p]) ms.

End Betting.

(* ===================================================================== *)
(** * Properties                                                         *)
(* ===================================================================== *)

(** ** Simulator *)
Section SimulatorProperties.
Import Simulator.

Lemma countTeam_nil tm : countTeam tm [] = 0.
Proof. reflexivity. Qed.

Lemma countTeam_snoc tm evs e :
  countTeam tm (evs ++ [e]) = countTeam tm evs + (if Team_eqb (team e) tm then 1 else 0).
Proof.
  unfold countTeam. rewrite List.filter_app, List.length_app. simpl.
  destruct (Team_eqb (team e) tm); simpl; lia.
Qed.

Lemma countTeam_nonneg tm evs : 0 <= countTeam tm evs.
Proof. unfold countTeam. lia. Qed.

Lemma allBy_weaken b b' evs : b <= b' -> allBy b evs -> allBy b' evs.
Proof.
  intros Hb H. unfold allBy in *. eapply List.Forall_impl; [| exact H].
  simpl. intros e He. lia.
Qed.

Lemma allBy_snoc b evs e : allBy b evs -> time e <= b -> allBy b (evs ++ [e]).
Proof.
  intros H He. unfold allBy. apply Forall_app. split; [exact H |].
  constructor; [exact He | constructor].
Qed.

Lemma nonDecreasing_snoc evs e :
  nonDecreasing evs = true -> allBy (time e) evs -> nonDecreasing (evs ++ [e]) = true.
Proof.
  induction evs as [| x rest IH]; intros Hs Hb; [reflexivity |].
  inversion Hb as [| ? ? Hx Hrest]; subst.
  destruct rest as [| y rest'].
  - simpl. apply andb_true_intro. split; [apply Z.leb_le; exact Hx | reflexivity].
  - change (nonDecreasing (x :: y :: rest') = true) in Hs.
    simpl in Hs. apply andb_prop in Hs as [Hxy Hs'].
    change ((time x <=? time y) && nonDecreasing ((y :: rest') ++ [e]) = true).
    rewrite Hxy. simpl. apply IH; assumption.
Qed.

Lemma unforcedLoop_tallyOK rand n : forall t k st,
  tallyOK t st -> tallyOK (t + Z.of_nat n) (fst (unforcedLoop rand n t k st)).
Proof.
  induction n as [| n IH]; intros t k st H.
  - simpl. replace (t + Z.of_nat 0) with t by lia. exact H.
  - destruct H as (Hh & Ha & Hs & Hb).
    replace (t + Z.of_nat (S n)) with ((t + 1) + Z.of_nat n) by lia.
    simpl. destruct (Qltb (rand k) 0.07).
    + apply IH. destruct (Qltb (rand (S k)) 0.5); unfold tallyOK; simpl;
        rewrite !countTeam_snoc; simpl; repeat split; try lia.
      * apply nonDecreasing_snoc; [exact Hs |].
        eapply allBy_weaken; [| exact Hb]. simpl. lia.
      * apply allBy_snoc; [eapply allBy_weaken; [| exact Hb] |]; simpl; lia.
      * apply nonDecreasing_snoc; [exact Hs |].
        eapply allBy_weaken; [| exact Hb]. simpl. lia.
      * apply allBy_snoc; [eapply allBy_weaken; [| exact Hb] |]; simpl; lia.
    + apply IH. unfold tallyOK. repeat split; try assumption.
      eapply allBy_weaken; [| exact Hb]. lia.
Qed.

Lemma forcedLoop_pendingOK rand h a n : forall t k st,
  pendingOK h a t st ->
  pendingOK h a (t + Z.of_nat n) (fst (forcedLoop rand n t k st)).
Proof.
  induction n as [| n IH]; intros t k st H.
  - simpl. replace (t + Z.of_nat 0) with t by lia. exact H.
  - assert (Hkeep : pendingOK h a (t + 1) st).
    { destruct H as (Hh & Ha & Hs & Hb). repeat split; try assumption.
      eapply allBy_weaken; [| exact Hb]. lia. }
    assert (Hstop : pendingOK h a (t + Z.of_nat (S n)) st).
    { destruct H as (Hh & Ha & Hs & Hb). repeat split; try assumption.
      eapply allBy_weaken; [| exact Hb]. lia. }
    assert (Hhome : toHome st > 0 ->
              pendingOK h a (t + 1)
                (mkPending (toHome st - 1) (toAway st) (pEvents st ++ [mkEvent t Home]))).
    { intros Hpos. destruct H as (Hh & Ha & Hs & Hb). unfold pendingOK. simpl.
      rewrite !countTeam_snoc. simpl. repeat split; try lia.
      - apply nonDecreasing_snoc; [exact Hs |].
        eapply allBy_weaken; [| exact Hb]. simpl. lia.
      - apply allBy_snoc; [eapply allBy_weaken; [| exact Hb] |]; simpl; lia. }
    assert (Haway : toAway st > 0 ->
              pendingOK h a (t + 1)
                (mkPending (toHome st) (toAway st - 1) (pEvents st ++ [mkEvent t Away]))).
    { intros Hpos. destruct H as (Hh & Ha & Hs & Hb). unfold pendingOK. simpl.
      rewrite !countTeam_snoc. simpl. repeat split; try lia.
      - apply nonDecreasing_snoc; [exact Hs |].
        eapply allBy_weaken; [| exact Hb]. simpl. lia.
      - apply allBy_snoc; [eapply allBy_weaken; [| exact Hb] |]; simpl; lia. }
    replace (t + Z.of_nat (S n)) with ((t + 1) + Z.of_nat n) in * by lia.
    simpl.
    destruct (toHome st >? 0) eqn:Eh; destruct (toAway st >? 0) eqn:Ea; simpl;
      try exact Hstop;
      destruct (Qltb (rand k) 0.10); try (apply IH; exact Hkeep);
      try destruct (Qltb (rand (S k)) 0.5);
      apply IH; try exact Hkeep;
      try (apply Hhome; apply Z.gtb_lt in Eh; lia);
      try (apply Haway; apply Z.gtb_lt in Ea; lia).
Qed.

Lemma forcedLoop_result rand duration h a k :
  let st := fst (forcedLoop rand (Z.to_nat duration) 1 k (mkPending h a [])) in
  countTeam Home (pEvents st) <= Z.max 0 h /\
  countTeam Away (pEvents st) <= Z.max 0 a /\
  nonDecreasing (pEvents st) = true /\
  allBy (Z.max 0 duration) (pEvents st).
Proof.
  intros st.
  assert (H0 : pendingOK h a 1 (mkPending h a [])).
  { unfold pendingOK. simpl. rewrite !countTeam_nil. repeat split; try lia. constructor. }
  pose proof (forcedLoop_pendingOK rand h a (Z.to_nat duration) 1 k _ H0) as (Hh & Ha & Hs & Hb).
  fold st in Hh, Ha, Hs, Hb. repeat split; try lia; try assumption.
  eapply allBy_weaken; [| exact Hb]. lia.
Qed.

Lemma unforcedLoop_result rand duration k :
  let st := fst (unforcedLoop rand (Z.to_nat duration) 1 k (mkTally 0 0 [])) in
  tHome st = countTeam Home (tEvents st) /\
  tAway st = countTeam Away (tEvents st) /\
  nonDecreasing (tEvents st) = true /\
  allBy (Z.max 0 duration) (tEvents st).
Proof.
  intros st.
  assert (H0 : tallyOK 1 (mkTally 0 0 [])).
  { unfold tallyOK. simpl. repeat split. constructor. }
  pose proof (unforcedLoop_tallyOK rand (Z.to_nat duration) 1 k _ H0) as (Hh & Ha & Hs & Hb).
  fold st in Hh, Ha, Hs, Hb. repeat split; try assumption.
  eapply allBy_weaken; [| exact Hb]. lia.
Qed.

Lemma simulateUnforced_fst rand duration k :
  fst (simulateUnforced rand duration k) =
  let st := fst (unforcedLoop rand (Z.to_nat duration) 1 k (mkTally 0 0 [])) in
  mkSim (tHome st) (tAway st) (winnerOf (tHome st) (tAway st)) (tEvents st).
Proof.
  unfold simulateUnforced.
  destruct (unforcedLoop rand (Z.to_nat duration) 1 k (mkTally 0 0 [])); reflexivity.
Qed.

Lemma simulateForced_fst rand duration h a w k :
  fst (simulateForced rand duration h a w k) =
  mkSim h a (match w with Some x => x | None => winnerOf h a end)
    (pEvents (fst (forcedLoop rand (Z.to_nat duration) 1 k (mkPending h a [])))).
Proof.
  unfold simulateForced.
  destruct (forcedLoop rand (Z.to_nat duration) 1 k (mkPending h a [])); reflexivity.
Qed.

End SimulatorProperties.

Section SimulatorClaims.
Import Simulator.

Lemma countTeam_cons tm e evs :
  countTeam tm (e :: evs) = (if Team_eqb (team e) tm then 1 else 0) + countTeam tm evs.
Proof.
  unfold countTeam. simpl. destruct (Team_eqb (team e) tm); simpl; lia.
Qed.

(** When every event is within the tick, the progressive score counts them
    all. *)
Lemma scoreUpTo_all s evs : forall home away,
  allBy s evs ->
  scoreUpTo s evs home away = (home + countTeam Home evs, away + countTeam Away evs).
Proof.
  induction evs as [| e rest IH]; intros home away H.
  - simpl. rewrite !countTeam_nil. f_equal; lia.
  - inversion H as [| ? ? He Hrest]; subst.
    simpl. apply Z.leb_le in He. rewrite He.
    rewrite !countTeam_cons.
    destruct (team e); simpl; rewrite IH by exact Hrest; f_equal; lia.
Qed.

Lemma simSecond_fullTime : simSecondOf 90 40 = 40.
Proof. reflexivity. Qed.

(** C5 (as amended).  Every result of [simulateMatch] has its events in
    non-decreasing order of time.  On the unforced path the result also
    satisfies the whole invariant: [homeGoals] and [awayGoals] are the
    numbers of home and away events and [winner] is the comparison of the
    two.  On the forced path the goals are the override's targets, the
    winner is the override's winner when it gives one and the comparison of
    the targets otherwise, and each team has at most as many events as its
    target (none for a target below one). *)
Theorem simulateMatch_invariant (rand : nat -> Q) matchId duration ov k :
  let r := fst (simulateMatch rand matchId duration ov k) in
  nonDecreasing (events r) = true /\
  match forcedTargets ov with
  | None => consistent r
  | Some (h, a, w) =>
      homeGoals r = h /\ awayGoals r = a /\
      winner r = match w with Some x => x | None => winnerOf h a end /\
      countTeam Home (events r) <= Z.max 0 h /\
      countTeam Away (events r) <= Z.max 0 a
  end.
Proof.
  unfold simulateMatch. destruct (forcedTargets ov) as [[[h a] w] |].
  - rewrite simulateForced_fst. cbn [events homeGoals awayGoals winner].
    destruct (forcedLoop_result rand duration h a k) as (Hh & Ha & Hs & _).
    repeat split; assumption.
  - rewrite simulateUnforced_fst. cbv zeta.
    destruct (unforcedLoop_result rand duration k) as (Hh & Ha & Hs & _).
    split; [exact Hs |]. unfold consistent. cbn [events homeGoals awayGoals winner].
    repeat split; assumption.
Qed.

(** C5 as stated fails on the forced path.  With the score forced to 1-0
    and draws that never pass the 10% test, the result reports one home
    goal and carries no event.  With the score forced to 2-0 and the
    winner forced to "away", the result has two home events and no away
    event, and its winner is still "away". *)
Lemma forced_result_not_consistent :
  ~ consistent (fst (simulateMatch neverScores "ke-1000-0" 40 (Some oneNil) 0)) /\
  (let r := fst (simulateMatch alwaysScores "ke-1000-0" 40 (Some twoNilAway) 0) in
   events r = [mkEvent 1 Home; mkEvent 2 Home] /\
   winner r = WinAway /\
   winner r <> winnerOf (homeGoals r) (awayGoals r)).
Proof.
  split.
  - intros (Hh & _). vm_compute in Hh. discriminate Hh.
  - vm_compute. repeat split; try reflexivity. intros H; discriminate H.
Qed.

(** C6.  On the forced path the returned [homeGoals] and [awayGoals] are
    the override's targets whatever the random draws are; the winner is the
    override's when it gives one, and otherwise the comparison of the
    targets, computed by the same rule ([winnerOf]) the unforced path
    applies to its own goal counts. *)
Theorem forced_score_is_target (rand : nat -> Q) matchId duration h a w k :
  let r := fst (simulateMatch rand matchId duration
                  (Some (mkOverride (Some h) (Some a) w)) k) in
  let u := fst (simulateMatch rand matchId duration None k) in
  homeGoals r = h /\ awayGoals r = a /\
  winner r = match w with Some x => x | None => winnerOf h a end /\
  winner u = winnerOf (homeGoals u) (awayGoals u).
Proof.
  unfold simulateMatch. cbn [forcedTargets ovHomeGoals ovAwayGoals ovWinner].
  rewrite simulateForced_fst, simulateUnforced_fst.
  cbn [events homeGoals awayGoals winner]. repeat split; reflexivity.
Qed.

(** C7 (as amended).  For a simulation of 40 ticks, the progressive score
    at minute 90 counts every event of the result.  On the unforced path
    this is the final score [(homeGoals, awayGoals)]; on the forced path it
    is the number of events generated for each team, which is at most the
    target. *)
Theorem fullTime_progressive_score (rand : nat -> Q) matchId ov k :
  let r := fst (simulateMatch rand matchId 40 ov k) in
  getProgressiveScore (events r) 90 40
    = (countTeam Home (events r), countTeam Away (events r)) /\
  match forcedTargets ov with
  | None => getProgressiveScore (events r) 90 40 = (homeGoals r, awayGoals r)
  | Some (h, a, _) =>
      fst (getProgressiveScore (events r) 90 40) <= Z.max 0 h /\
      snd (getProgressiveScore (events r) 90 40) <= Z.max 0 a
  end.
Proof.
  unfold getProgressiveScore. rewrite simSecond_fullTime.
  unfold simulateMatch. destruct (forcedTargets ov) as [[[h a] w] |].
  - rewrite simulateForced_fst. cbn [events homeGoals awayGoals winner].
    destruct (forcedLoop_result rand 40 h a k) as (Hh & Ha & _ & Hb).
    change (Z.max 0 40) with 40 in Hb.
    rewrite scoreUpTo_all by exact Hb. cbn [fst snd].
    rewrite !Z.add_0_l. repeat split; assumption.
  - rewrite simulateUnforced_fst. cbv zeta. cbn [events homeGoals awayGoals winner].
    destruct (unforcedLoop_result rand 40 k) as (Hh & Ha & _ & Hb).
    change (Z.max 0 40) with 40 in Hb.
    rewrite scoreUpTo_all by exact Hb. rewrite !Z.add_0_l.
    rewrite <- Hh, <- Ha. split; reflexivity.
Qed.

(** C7 as stated fails on the forced path: the same run as above ends 1-0
    while its full-time progressive score is 0-0. *)
Lemma forced_fullTime_score_differs :
  let r := fst (simulateMatch neverScores "ke-1000-0" 40 (Some oneNil) 0) in
  getProgressiveScore (events r) 90 40 <> (homeGoals r, awayGoals r).
Proof.
  vm_compute. intros H. discriminate H.
Qed.

End SimulatorClaims.

(** ** Odds engine *)
Section OddsClaims.
Import Odds.

(** Comparing an integer total with a decimal bracket. *)
Lemma Qltb_int_below (t n : Z) (d : positive) :
  Qltb (inject_Z t) (n # d) = (t * Z.pos d <? n).
Proof.
  unfold Qltb, Qle_bool. simpl. rewrite Z.mul_1_r.
  rewrite Z.ltb_antisym. reflexivity.
Qed.

Lemma Qltb_int_above (t n : Z) (d : positive) :
  Qltb (n # d) (inject_Z t) = (n <? t * Z.pos d).
Proof.
  unfold Qltb, Qle_bool. simpl. rewrite Z.mul_1_r.
  rewrite Z.ltb_antisym. reflexivity.
Qed.

(** The bracket tests of the engine, on an integer total. *)
Lemma over_test (t n : Z) :
  Qltb (n * 10 + 5 # 10) (inject_Z t) = (n <? t).
Proof.
  rewrite Qltb_int_above.
  destruct (Z.ltb_spec (n * 10 + 5) (t * 10)); destruct (Z.ltb_spec n t); lia || reflexivity.
Qed.

Lemma under_test (t n : Z) :
  Qltb (inject_Z t) (n * 10 + 5 # 10) = (t <=? n).
Proof.
  rewrite Qltb_int_below.
  destruct (Z.ltb_spec (t * 10) (n * 10 + 5)); destruct (Z.leb_spec t n); lia || reflexivity.
Qed.

(** The eight over/under quotes as functions of the total. *)
Lemma bracket_quotes (h a : Z) :
  let q := quotes h a in
  let t := h + a in
  ov15 q = (if 1 <? t then 1.15 else 3.20)%Q /\ un15 q = (if t <=? 1 then 1.15 else 3.20)%Q /\
  ov25 q = (if 2 <? t then 1.30 else 2.50)%Q /\ un25 q = (if t <=? 2 then 1.30 else 2.50)%Q /\
  ov35 q = (if 3 <? t then 1.40 else 2.20)%Q /\ un35 q = (if t <=? 3 then 1.40 else 2.20)%Q /\
  ov45 q = (if 4 <? t then 2.00 else 1.80)%Q /\ un45 q = (if t <=? 4 then 1.80 else 2.00)%Q.
Proof.
  unfold quotes.
  destruct (h >? a); [| destruct (a >? h)];
    cbn [ov15 un15 ov25 un25 ov35 un35 ov45 un45];
    change (1.5%Q) with (1 * 10 + 5 # 10); change (2.5%Q) with (2 * 10 + 5 # 10);
    change (3.5%Q) with (3 * 10 + 5 # 10); change (4.5%Q) with (4 * 10 + 5 # 10);
    rewrite !over_test, !under_test; repeat split; reflexivity.
Qed.

(** C8: what the code computes.  For the brackets 1.5, 2.5 and 3.5, the
    side that matches the actual total gets the low price of the bracket's
    pair and the other side the high one.  For the bracket 4.5 the two
    sides always get the same price (2.00 each when the total is above 4.5,
    1.80 each when it is below), so the matching side is never cheaper than
    the other; at 3-2 the board prices both "Over 4.5" and "Under 4.5" at
    "2.00". *)
Theorem over_under_brackets (h a : Z) :
  let q := quotes h a in
  let t := h + a in
  ((ov15 q, un15 q) = if 1 <? t then (1.15, 3.20)%Q else (3.20, 1.15)%Q) /\
  ((ov25 q, un25 q) = if 2 <? t then (1.30, 2.50)%Q else (2.50, 1.30)%Q) /\
  ((ov35 q, un35 q) = if 3 <? t then (1.40, 2.20)%Q else (2.20, 1.40)%Q) /\
  ((ov45 q, un45 q) = if 4 <? t then (2.00, 2.00)%Q else (1.80, 1.80)%Q) /\
  oddsOf "Total Goals" (calculateDynamicOdds 3 2)
    = ["1.85"; "1.40"; "2.00"; "2.50"; "2.20"; "2.00"]%string /\
  oddsOf "Total Goals" (calculateDynamicOdds 0 0)
    = ["1.85"; "2.20"; "1.80"; "1.30"; "1.40"; "1.80"]%string.
Proof.
  intros q t.
  destruct (bracket_quotes h a) as (H1 & H2 & H3 & H4 & H5 & H6 & H7 & H8).
  fold q t in H1, H2, H3, H4, H5, H6, H7, H8.
  rewrite H1, H2, H3, H4, H5, H6, H7, H8.
  rewrite !(Z.leb_antisym _ t).
  destruct (1 <? t), (2 <? t), (3 <? t), (4 <? t); repeat split; reflexivity.
Qed.

Lemma wellFormed_board (h a : Z) :
  forallb (fun p => wellFormedEntry (snd p)) (calculateDynamicOdds h a) = true.
Proof.
  unfold calculateDynamicOdds, quotes.
  destruct (h >? a); [| destruct (a >? h)];
    unfold render;
    cbn [odds_1 odds_X odds_2 btts_yes btts_no ov15 un15 ov25 un25 ov35 un35
         ov45 un45 odd_odds even_odds];
    apply forallb_forall; intros e He; cbn [In] in He;
    repeat (destruct He as [<- | He]); try contradiction;
    cbn [snd];
    repeat match goal with
           | |- context [if ?b then _ else _] => destruct b
           end;
    vm_compute; reflexivity.
Qed.

(** C9.  The three pinned vectors of the specification, and for every
    score, every entry of the board has as many odds as selections and
    every odds value is rendered with exactly two decimal places. *)
Theorem pinned_odds_and_format :
  oddsOf "1X2" (calculateDynamicOdds 2 0) = ["1.20"; "5.00"; "8.00"]%string /\
  oddsOf "1X2" (calculateDynamicOdds 1 1) = ["4.00"; "1.15"; "4.00"]%string /\
  oddsOf "BTTS" (calculateDynamicOdds 0 0) = ["2.50"; "1.20"]%string /\
  forall h a : Z,
    Forall (fun p => length (selections (snd p)) = length (odds (snd p)) /\
                     Forall (fun o => twoDecimals o = true) (odds (snd p)))
           (calculateDynamicOdds h a).
Proof.
  split; [reflexivity |]. split; [reflexivity |]. split; [reflexivity |].
  intros h a. pose proof (wellFormed_board h a) as H.
  rewrite forallb_forall in H. apply List.Forall_forall. intros p Hp.
  specialize (H p Hp). unfold wellFormedEntry in H.
  apply andb_prop in H as [Hlen Hfmt]. split.
  - apply Nat.eqb_eq. exact Hlen.
  - apply List.Forall_forall. rewrite forallb_forall in Hfmt. exact Hfmt.
Qed.

End OddsClaims.

(** ** Phase clock and week advancement *)
Section ClockClaims.
Import Clock.

Ltac crush_state s :=
  destruct s as [[ms cd mt bt armed] [prev flag idx live gen slot] [glob last sh sys rel] slots].

Lemma flowEffect_phase f : matchState (flowEffect f) = matchState f.
Proof. destruct f as [ms cd mt bt armed]; destruct ms; reflexivity. Qed.

Lemma flowNext_phase f : matchState (flowNext f) = matchState (tick f).
Proof.
  unfold flowNext. destruct (Phase_eqb (matchState (tick f)) (matchState f));
    [reflexivity | apply flowEffect_phase].
Qed.

Lemma advanceEffect_flow s : flow (advanceEffect s) = flow s.
Proof.
  crush_state s. unfold advanceEffect, checkAndAutoReshuffle. cbn.
  destruct glob; [reflexivity |].
  destruct prev, ms, flag; cbn; try reflexivity;
    destruct (idx + 1 >=? totalWeeks); cbn; try reflexivity;
    destruct (getLastReshuffleWeek _ <? 36); reflexivity.
Qed.

Lemma advanceEffect_slots s : timeSlots (advanceEffect s) = timeSlots s.
Proof.
  crush_state s. unfold advanceEffect, checkAndAutoReshuffle. cbn.
  destruct glob; [reflexivity |].
  destruct prev, ms, flag; cbn; try reflexivity;
    destruct (idx + 1 >=? totalWeeks); cbn; try reflexivity;
    destruct (getLastReshuffleWeek _ <? 36); reflexivity.
Qed.












End ClockClaims.

Section ClockCycle.
Import Clock.









End ClockCycle.

(** ** Settlement pipeline *)

(** *** Runs of the per-match callbacks *)
Section SettlementRun.
Import Settlement.
Import Simulator.

Lemma firstWaiting_Some cs : forall i,
  firstWaiting cs = Some i -> exists c, cs !! i = Some c /\ waiting c = true.
Proof.
  induction cs as [| c cs IH]; intros i H; cbn in H; [discriminate |].
  destruct (waiting c) eqn:E.
  - injection H as <-. exists c. split; [reflexivity | exact E].
  - destruct (firstWaiting cs) as [j |]; [| discriminate]. cbn in H. injection H as <-.
    destruct (IH j eq_refl) as (c' & Hc & Hw). exists c'. split; assumption.
Qed.

Lemma firstWaiting_None cs :
  firstWaiting cs = None -> Forall (fun c => waiting c = false) cs.
Proof.
  induction cs as [| c cs IH]; intros H; cbn in H; [constructor |].
  destruct (waiting c) eqn:E; [discriminate |].
  destruct (firstWaiting cs); [discriminate |].
  constructor; [exact E | apply IH; reflexivity].
Qed.

Lemma chosen_Some i cs j :
  chosen i cs = Some j -> exists c, cs !! j = Some c /\ waiting c = true.
Proof.
  unfold chosen. destruct (cs !! i) as [c |] eqn:Hc; [| apply firstWaiting_Some].
  destruct (waiting c) eqn:E; [| apply firstWaiting_Some].
  intros H. injection H as <-. exists c. split; assumption.
Qed.

Lemma chosen_None i cs :
  chosen i cs = None -> Forall (fun c => waiting c = false) cs.
Proof.
  unfold chosen. destruct (cs !! i) as [c |]; [| apply firstWaiting_None].
  destruct (waiting c); [discriminate | apply firstWaiting_None].
Qed.

(** A step either finds every callback ended and does nothing, or resumes
    one suspended callback. *)
Lemma stepCallbacks_cases net k b cs :
  (stepCallbacks net k (b, cs) = (b, cs) /\ Forall (fun c => waiting c = false) cs) \/
  (exists i c, cs !! i = Some c /\ waiting c = true /\
     stepCallbacks net k (b, cs)
     = (fst (resume (reply net k) c b), <[i := snd (resume (reply net k) c b)]> cs)).
Proof.
  unfold stepCallbacks. cbn [fst snd].
  destruct (chosen (turn net k) cs) as [i |] eqn:Hch.
  - destruct (chosen_Some _ _ _ Hch) as (c & Hc & Hw). rewrite Hc.
    right. exists i, c. repeat split; assumption.
  - left. split; [reflexivity | apply chosen_None with (i := turn net k); exact Hch].
Qed.

(** What every resumption preserves holds throughout a run. *)
Lemma runCallbacks_invariant (P : Backend -> list Callback -> Prop) net :
  (forall k b cs i c, P b cs -> cs !! i = Some c -> waiting c = true ->
     P (fst (resume (reply net k) c b)) (<[i := snd (resume (reply net k) c b)]> cs)) ->
  forall steps k b cs, P b cs ->
    P (fst (runCallbacks net steps k (b, cs))) (snd (runCallbacks net steps k (b, cs))).
Proof.
  intros Hstep. induction steps as [| steps IH]; intros k b cs HP; [exact HP |].
  cbn [runCallbacks].
  destruct (stepCallbacks_cases net k b cs) as [(-> & _) | (i & c & Hc & Hw & ->)].
  - apply IH. exact HP.
  - apply IH. apply Hstep; assumption.
Qed.

(** *** Every run ends *)

Lemma resume_remaining r c b :
  waiting c = true -> (S (remaining (snd (resume r c b))) <= remaining c)%nat.
Proof.
  destruct c as [m sim st]. unfold waiting, resume, remaining, moveTo. cbn [stage cbMatch cbSim].
  destruct st as [| | | e | |]; intros Hw; try discriminate Hw;
    destruct r; cbn [snd stage cbId cbMatch]; try lia;
    destruct (_ !! _); cbn [stage]; lia.
Qed.

Lemma totalRemaining_insert cs : forall i c c',
  cs !! i = Some c ->
  (totalRemaining (<[i := c']> cs) + remaining c = totalRemaining cs + remaining c')%nat.
Proof.
  induction cs as [| x cs IH]; intros i c c' H; [discriminate H |].
  destruct i as [| i]; cbn in H.
  - injection H as ->. unfold totalRemaining. cbn [insert list_insert foldr].
    generalize (foldr (fun c0 n => (remaining c0 + n)%nat) 0%nat cs). intros t. lia.
  - pose proof (IH i c c' H) as IH'.
    change (totalRemaining (<[S i := c']> (x :: cs)))
      with (remaining x + totalRemaining (<[i := c']> cs))%nat.
    change (totalRemaining (x :: cs)) with (remaining x + totalRemaining cs)%nat.
    lia.
Qed.

Lemma totalRemaining_bound cs : (totalRemaining cs <= 5 * length cs)%nat.
Proof.
  induction cs as [| c cs IH]; [cbn; lia |].
  change (totalRemaining (c :: cs)) with (remaining c + totalRemaining cs)%nat.
  cbn [length].
  assert (remaining c <= 5)%nat by (unfold remaining; destruct (stage c); lia). lia.
Qed.

Lemma totalRemaining_zero cs :
  totalRemaining cs = 0%nat -> Forall (fun c => stage c = Done) cs.
Proof.
  induction cs as [| c cs IH]; intros H; [constructor |].
  change (totalRemaining (c :: cs)) with (remaining c + totalRemaining cs)%nat in H.
  constructor; [| apply IH; lia].
  unfold remaining in H. destruct (stage c); try reflexivity; lia.
Qed.

Lemma runCallbacks_remaining net steps : forall k b cs,
  (totalRemaining (snd (runCallbacks net steps k (b, cs))) <= totalRemaining cs - steps)%nat.
Proof.
  induction steps as [| steps IH]; intros k b cs; [cbn [runCallbacks snd]; lia |].
  cbn [runCallbacks].
  destruct (stepCallbacks_cases net k b cs) as [(-> & Hall) | (i & c & Hc & Hw & ->)].
  - assert (H0 : totalRemaining cs = 0%nat).
    { clear -Hall. induction Hall as [| c cs Hc _ IH]; [reflexivity |].
      change (totalRemaining (c :: cs)) with (remaining c + totalRemaining cs)%nat.
      rewrite IH.
      unfold waiting in Hc. unfold remaining. destruct (stage c); try discriminate Hc.
      reflexivity. }
    pose proof (IH (S k) b cs). lia.
  - pose proof (IH (S k) (fst (resume (reply net k) c b))
                  (<[i := snd (resume (reply net k) c b)]> cs)) as H.
    pose proof (totalRemaining_insert cs i c (snd (resume (reply net k) c b)) Hc).
    pose proof (resume_remaining (reply net k) c b Hw). lia.
Qed.

(** When [Promise.all] returns, every callback has ended. *)
Lemma settleAll_completes net snap now b :
  Forall (fun c => stage c = Done) (snd (settleAll net snap now b)).
Proof.
  unfold settleAll, settleUntil. apply totalRemaining_zero.
  pose proof (runCallbacks_remaining net (5 * length (omap (suspended snap) (snapMatches snap)))
                0 (foldl (startCallback snap now) b (snapMatches snap))
                (omap (suspended snap) (snapMatches snap))).
  pose proof (totalRemaining_bound (omap (suspended snap) (snapMatches snap))). lia.
Qed.

(** *** What a resumption does to the stores and the log *)

Lemma resume_same r c b :
  cbMatch (snd (resume r c b)) = cbMatch c /\ cbSim (snd (resume r c b)) = cbSim c.
Proof.
  destruct c as [m sim st]. unfold resume, moveTo. cbn [stage cbMatch cbSim].
  destruct st as [| | | e | |]; cbn [snd]; try (split; reflexivity);
    destruct r; try (split; reflexivity);
    destruct (_ !! _); split; reflexivity.
Qed.

Lemma resume_cbId r c b : cbId (snd (resume r c b)) = cbId c.
Proof. unfold cbId. rewrite (proj1 (resume_same r c b)). reflexivity. Qed.

Lemma resume_cbRow r c b : cbRow (snd (resume r c b)) = cbRow c.
Proof. unfold cbRow. rewrite (proj2 (resume_same r c b)). reflexivity. Qed.

Lemma resume_fromCache snap r c b : fromCache snap c -> fromCache snap (snd (resume r c b)).
Proof.
  unfold fromCache. rewrite resume_cbId, (proj2 (resume_same r c b)). tauto.
Qed.

Lemma resume_history r c b : history (fst (resume r c b)) = history b.
Proof.
  unfold resume. destruct (stage c) as [| | | e | |]; try reflexivity.
  destruct e; reflexivity.
Qed.

Lemma resume_calls r c b : calls (fst (resume r c b)) = calls b ++ requestOf c.
Proof.
  unfold resume, requestOf. destruct (stage c) as [| | | e | |]; try reflexivity.
  - destruct e; reflexivity.
  - cbn. rewrite app_nil_r. reflexivity.
Qed.

Lemma alter_const_cases {A} (x : A) (i : string) (m : gmap string A) :
  (m !! i = None /\ alter (fun _ => x) i m = m) \/
  (is_Some (m !! i) /\ alter (fun _ => x) i m = <[i := x]> m).
Proof.
  destruct (m !! i) as [old |] eqn:E.
  - right. split; [eexists; reflexivity | apply (alter_alt_Some _ _ _ old); exact E].
  - left. split; [reflexivity |]. apply map_eq. intros j. rewrite lookup_alter.
    destruct (decide (i = j)) as [<- |]; [rewrite E |]; reflexivity.
Qed.

(** The result rows after a resumption: as before, or with the final row
    of the callback's match written. *)
Lemma resume_rows r c b :
  matchResults (fst (resume r c b)) = matchResults b \/
  ((exists e, stage c = AwaitResultWrite e) /\
   matchResults (fst (resume r c b)) = <[cbId c := cbRow c]> (matchResults b)).
Proof.
  unfold resume. destruct (stage c) as [| | | e | |]; try (left; reflexivity).
  cbn [fst]. destruct e; unfold updateResult, insertResult; cbn [matchResults];
    destruct r; try (left; reflexivity).
  - destruct (alter_const_cases (cbRow c) (cbId c) (matchResults b)) as [(_ & H) | (_ & H)];
      [left; exact H | right; split; [eexists; reflexivity | exact H]].
  - right. split; [eexists |]; reflexivity.
Qed.

Lemma resume_table r c b id :
  (is_Some (matchesTbl (fst (resume r c b)) !! id) <-> is_Some (matchesTbl b !! id)) /\
  (id <> cbId c -> matchesTbl (fst (resume r c b)) !! id = matchesTbl b !! id).
Proof.
  unfold resume. destruct (stage c) as [| | | e | |]; try (split; reflexivity).
  - cbn [fst]. unfold updateMatchRaw. cbn [matchesTbl].
    destruct r; try (split; reflexivity).
    split; [apply lookup_alter_is_Some |].
    intros Hne. apply lookup_alter_ne. congruence.
  - destruct e; split; reflexivity.
Qed.

(** Rows of other matches are not touched; a row that is there stays, and
    stays final if it was. *)
Lemma resume_rows_other r c b id :
  id <> cbId c -> matchResults (fst (resume r c b)) !! id = matchResults b !! id.
Proof.
  intros Hne. destruct (resume_rows r c b) as [-> | (_ & ->)]; [reflexivity |].
  apply lookup_insert_ne. congruence.
Qed.

Lemma resume_rows_keep r c b id row :
  matchResults b !! id = Some row ->
  exists row', matchResults (fst (resume r c b)) !! id = Some row' /\
               (is_final row = true -> is_final row' = true).
Proof.
  intros H. destruct (resume_rows r c b) as [-> | (_ & ->)]; [exists row; tauto |].
  destruct (decide (id = cbId c)) as [-> | Hne].
  - rewrite lookup_insert_eq. eexists. split; reflexivity.
  - rewrite lookup_insert_ne by congruence. exists row. tauto.
Qed.

(** Two callbacks of one run that work on the same match id write the
    same row. *)
Lemma fromCache_same_row snap c c' :
  fromCache snap c -> fromCache snap c' -> cbId c = cbId c' -> cbRow c = cbRow c'.
Proof.
  unfold fromCache, cbRow. intros H H' Heq. rewrite Heq, H' in H. injection H as ->.
  reflexivity.
Qed.

Lemma resume_final_stable snap r c b id sim :
  fromCache snap c -> snapCache snap !! id = Some sim ->
  matchResults b !! id = Some (finalRow (homeGoals sim) (awayGoals sim)) ->
  matchResults (fst (resume r c b)) !! id = Some (finalRow (homeGoals sim) (awayGoals sim)).
Proof.
  intros Hc Hsim H. destruct (resume_rows r c b) as [-> | (_ & ->)]; [exact H |].
  destruct (decide (id = cbId c)) as [-> | Hne].
  - rewrite lookup_insert_eq. unfold cbRow. unfold fromCache in Hc.
    rewrite Hsim in Hc. injection Hc as <-. reflexivity.
  - rewrite lookup_insert_ne by congruence. exact H.
Qed.

Lemma resume_row_stable snap r c b c' :
  fromCache snap c -> fromCache snap c' ->
  matchResults b !! cbId c' = Some (cbRow c') ->
  matchResults (fst (resume r c b)) !! cbId c' = Some (cbRow c').
Proof.
  intros Hc Hc'. apply (resume_final_stable snap r c b (cbId c') (cbSim c') Hc Hc').
Qed.

(** *** The synchronous starts *)

Lemma startCallback_stores snap now b m :
  matchesTbl (startCallback snap now b m) = matchesTbl b /\
  matchResults (startCallback snap now b m) = matchResults b.
Proof.
  unfold startCallback. destruct (snapCache snap !! matchId m); split; reflexivity.
Qed.

Lemma started_stores snap now ms : forall b,
  matchesTbl (foldl (startCallback snap now) b ms) = matchesTbl b /\
  matchResults (foldl (startCallback snap now) b ms) = matchResults b.
Proof.
  induction ms as [| m ms IH]; intros b; [split; reflexivity |].
  cbn [foldl]. destruct (IH (startCallback snap now b m)) as (-> & ->).
  apply startCallback_stores.
Qed.

Lemma started_calls snap now ms : forall b,
  calls (foldl (startCallback snap now) b ms)
  = calls b ++ map (fun m => SaveHistory (matchId m)) (simulatedIn snap ms).
Proof.
  induction ms as [| m ms IH]; intros b; [cbn; rewrite app_nil_r; reflexivity |].
  cbn [foldl]. rewrite IH. unfold simulatedIn, startCallback. cbn [List.filter].
  destruct (snapCache snap !! matchId m); [| reflexivity].
  cbn. rewrite <- app_assoc. reflexivity.
Qed.

Lemma started_history snap now ms : forall b,
  map hId (history (foldl (startCallback snap now) b ms))
  = map hId (history b) ++ map matchId (simulatedIn snap ms).
Proof.
  induction ms as [| m ms IH]; intros b; [cbn; rewrite app_nil_r; reflexivity |].
  cbn [foldl]. rewrite IH. unfold simulatedIn, startCallback. cbn [List.filter].
  destruct (snapCache snap !! matchId m); [| reflexivity].
  cbn. rewrite map_app. cbn. rewrite <- app_assoc. reflexivity.
Qed.

Lemma suspended_fromCache snap ms :
  Forall (fun c => fromCache snap c /\ In (cbMatch c) ms /\ stage c = AwaitMatchRow)
         (omap (suspended snap) ms).
Proof.
  induction ms as [| m ms IH]; [constructor |].
  cbn [omap list_omap]. unfold suspended at 1.
  assert (IH' : Forall (fun c => fromCache snap c /\ In (cbMatch c) (m :: ms)
                                 /\ stage c = AwaitMatchRow) (omap (suspended snap) ms)).
  { eapply List.Forall_impl; [| exact IH]. cbn. intros c (H1 & H2 & H3). tauto. }
  destruct (snapCache snap !! matchId m) as [sim |] eqn:E; [| exact IH'].
  constructor; [| exact IH'].
  split; [exact E |]. split; [left; reflexivity | reflexivity].
Qed.

Lemma suspended_all snap ms m sim :
  In m ms -> snapCache snap !! matchId m = Some sim ->
  exists c, In c (omap (suspended snap) ms) /\ cbMatch c = m /\ cbSim c = sim.
Proof.
  induction ms as [| x ms IH]; intros Hin Hsim; [contradiction |].
  cbn [omap list_omap]. destruct Hin as [-> | Hin].
  - unfold suspended at 1. rewrite Hsim. eexists. split; [left; reflexivity |].
    split; reflexivity.
  - destruct (IH Hin Hsim) as (c & Hc & Hm & Hs). exists c.
    split; [| split; assumption].
    destruct (suspended snap x); [right |]; exact Hc.
Qed.

Lemma handleMatchResults_backend net snap w :
  backend (fst (handleMatchResults net snap w)) = fst (settleAll net snap (clock w) (backend w)).
Proof. reflexivity. Qed.

Lemma requestOf_resolve c id hg ag :
  In (ResolveBets id hg ag) (requestOf c) ->
  stage c = AwaitResolution /\ id = cbId c /\
  hg = homeGoals (cbSim c) /\ ag = awayGoals (cbSim c).
Proof.
  unfold requestOf. destruct (stage c) as [| | | [] | |]; cbn [In]; intros H;
    try contradiction; destruct H as [H | []]; try discriminate H.
  injection H as <- <- <-. repeat split.
Qed.

Lemma requestOf_short c : (length (requestOf c) <= 1)%nat.
Proof. unfold requestOf. destruct (stage c) as [| | | [] | |]; cbn; lia. Qed.

(** A callback is about to resolve only after its write request. *)
Lemma resume_to_resolution r c b :
  stage (snd (resume r c b)) = AwaitResolution ->
  exists u, In u (requestOf c) /\ isUpsertOf (cbId c) (cbRow c) u.
Proof.
  destruct c as [m sim st]. unfold resume, requestOf, moveTo, isUpsertOf.
  cbn [stage cbMatch cbSim].
  destruct st as [| | | e | |]; cbn [snd stage];
    try (destruct r; try destruct (_ !! _); cbn [stage]; discriminate).
  intros _. destruct e; eexists; (split; [left; reflexivity |]); [left | right]; reflexivity.
Qed.

(** What a resumption leaves in the store for the resumed callback. *)
Lemma resume_rowFor strict r c b :
  allowed strict r -> rowFor strict b c ->
  rowFor strict (fst (resume r c b)) (snd (resume r c b)).
Proof.
  destruct c as [m sim st]. unfold rowFor, resume, moveTo, cbId, cbRow, allowed.
  cbn [stage cbMatch cbSim].
  destruct st as [| | | e | |]; cbn [fst snd stage cbMatch cbSim].
  - intros Hr _. destruct r; cbn [stage cbMatch];
      [| destruct strict; [discriminate Hr | contradiction] | ].
    + destruct (matchesTbl b !! matchId m) eqn:E; cbn [stage cbMatch]; [exact I |].
      intros _ (x & Hx). unfold logCall in Hx. cbn [matchesTbl] in Hx. congruence.
    + destruct strict; [discriminate Hr |]. intros H. discriminate H.
  - intros Hr _. destruct r; cbn [stage]; try exact I.
    destruct strict; [discriminate Hr |]. intros H. discriminate H.
  - intros Hr _. destruct r; cbn [stage cbMatch].
    + unfold logCall. cbn [matchResults].
      destruct (matchResults b !! matchId m) eqn:E; [eexists; reflexivity | exact I].
    + exact I.
    + destruct strict; [discriminate Hr |]. intros H. discriminate H.
  - intros Hr Hrow. destruct r; cbn [stage cbMatch cbSim].
    + destruct e; unfold updateResult, insertResult; cbn [matchResults].
      * destruct Hrow as (old & Hold). rewrite lookup_alter_eq, Hold. reflexivity.
      * apply lookup_insert_eq.
    + destruct strict; [discriminate Hr | contradiction].
    + destruct strict; [discriminate Hr |]. intros H. discriminate H.
  - intros _ Hrow _ _. unfold logCall. cbn [matchResults]. exact Hrow.
  - tauto.
Qed.

(** What a resumption leaves in the store for the other callbacks. *)
Lemma resume_rowFor_other snap strict r c b c' :
  fromCache snap c -> fromCache snap c' ->
  rowFor strict b c' -> rowFor strict (fst (resume r c b)) c'.
Proof.
  intros Hc Hc'. unfold rowFor. destruct (stage c') as [| | | e | |]; try tauto.
  - destruct e; [| tauto]. intros (old & Hold).
    destruct (resume_rows_keep r c b _ _ Hold) as (row' & -> & _). eexists. reflexivity.
  - apply (resume_row_stable snap); assumption.
  - intros H Hs Ht. apply (resume_row_stable snap); [assumption | assumption |].
    apply (H Hs). apply (proj1 (resume_table r c b (cbId c'))). exact Ht.
Qed.

Lemma resume_foundInMatches r c b :
  foundInMatches b c -> foundInMatches (fst (resume r c b)) (snd (resume r c b)).
Proof.
  intros H H1 H2. rewrite resume_cbId.
  apply (proj2 (proj1 (resume_table r c b (cbId c)))).
  revert H H1 H2. destruct c as [m sim st]. unfold foundInMatches, resume, moveTo, cbId.
  cbn [stage cbMatch cbSim].
  destruct st as [| | | e | |]; cbn [snd stage cbMatch]; intros H H1 H2;
    try (apply H; discriminate); try contradiction.
  destruct r; cbn [stage] in H1, H2; try contradiction.
  destruct (matchesTbl b !! matchId m) eqn:E; [eexists; reflexivity |].
  cbn [stage] in H2. contradiction.
Qed.

Lemma foundInMatches_other r c b c' :
  foundInMatches b c' -> foundInMatches (fst (resume r c b)) c'.
Proof.
  intros H H1 H2. apply (proj2 (proj1 (resume_table r c b (cbId c')))). apply H; assumption.
Qed.

Lemma snoc_split {A} (l pre post : list A) (x y : A) :
  l ++ [x] = pre ++ y :: post ->
  (post = [] /\ l = pre /\ x = y) \/
  (exists post', post = post' ++ [x] /\ l = pre ++ y :: post').
Proof.
  destruct post as [| z post _] using rev_ind.
  - intros H. apply app_inj_tail in H as (-> & ->). left. repeat split.
  - intros H. rewrite app_comm_cons, app_assoc in H. apply app_inj_tail in H as (-> & ->).
    right. exists post. split; reflexivity.
Qed.

Lemma writeBeforeResolve_app log req :
  writeBeforeResolve log -> (length req <= 1)%nat ->
  (forall id hg ag, In (ResolveBets id hg ag) req ->
     exists u, In u log /\ isUpsertOf id (finalRow hg ag) u) ->
  writeBeforeResolve (log ++ req).
Proof.
  intros Hlog Hlen Hreq.
  destruct req as [| x [| y req]]; [rewrite app_nil_r; exact Hlog | | cbn in Hlen; lia].
  intros pre id hg ag post Heq.
  apply snoc_split in Heq as [(_ & -> & ->) | (post' & _ & ->)].
  - apply Hreq. left. reflexivity.
  - apply (Hlog pre id hg ag post'). reflexivity.
Qed.

Lemma addedSince_resume n0 r c b :
  (n0 <= length (calls b))%nat ->
  addedSince n0 (fst (resume r c b)) = addedSince n0 b ++ requestOf c.
Proof.
  intros H. unfold addedSince. rewrite resume_calls. apply drop_app_le. exact H.
Qed.

(** *** The order of requests, under every network *)

Lemma orderOK_step snap n0 r b cs i c :
  orderOK snap n0 b cs -> cs !! i = Some c ->
  orderOK snap n0 (fst (resume r c b)) (<[i := snd (resume r c b)]> cs).
Proof.
  intros (Hlen & Hord & Hsim & Hcs) Hi.
  pose proof (proj1 (List.Forall_forall _ _) Hcs c
                ltac:(apply list_elem_of_In, (list_elem_of_lookup_2 _ i); exact Hi))
    as (Hcache & Hsent).
  unfold orderOK. rewrite (addedSince_resume n0 r c b Hlen).
  split; [rewrite resume_calls, length_app; lia |]. split; [| split].
  - apply writeBeforeResolve_app; [exact Hord | apply requestOf_short |].
    intros id hg ag Hin. apply requestOf_resolve in Hin as (Hst & -> & -> & ->).
    apply Hsent. exact Hst.
  - intros id hg ag Hin. apply in_app_or in Hin as [Hin | Hin]; [apply Hsim; exact Hin |].
    apply requestOf_resolve in Hin as (_ & -> & -> & ->).
    exists (cbSim c). repeat split. exact Hcache.
  - apply Forall_insert.
    + eapply List.Forall_impl; [| exact Hcs]. cbn. intros c' (Hc' & Hs').
      split; [exact Hc' |]. intros Hst. destruct (Hs' Hst) as (u & Hu & Hup).
      exists u. split; [apply in_or_app; left; exact Hu | exact Hup].
    + split; [apply resume_fromCache; exact Hcache |].
      intros Hst. destruct (resume_to_resolution r c b Hst) as (u & Hu & Hup).
      exists u. rewrite resume_cbId, resume_cbRow.
      split; [apply in_or_app; right; exact Hu | exact Hup].
Qed.

Lemma orderOK_start snap now b ms :
  orderOK snap (length (calls b)) (foldl (startCallback snap now) b ms)
          (omap (suspended snap) ms).
Proof.
  unfold orderOK, addedSince. rewrite started_calls.
  rewrite drop_app_length.
  assert (Hno : forall id hg ag,
            ~ In (ResolveBets id hg ag)
                 (map (fun m => SaveHistory (matchId m)) (simulatedIn snap ms))).
  { intros id hg ag Hin. apply in_map_iff in Hin as (m & Hm & _). discriminate Hm. }
  split; [rewrite length_app; lia |]. split; [| split].
  - intros pre id hg ag post Heq. exfalso. apply (Hno id hg ag). rewrite Heq.
    apply in_or_app. right. left. reflexivity.
  - intros id hg ag Hin. exfalso. exact (Hno id hg ag Hin).
  - eapply List.Forall_impl; [| apply (suspended_fromCache snap ms)].
    cbn. intros c (Hc & _ & Hst). split; [exact Hc |]. rewrite Hst. discriminate.
Qed.

Lemma settleUntil_orderOK steps net snap now b :
  orderOK snap (length (calls b)) (fst (settleUntil steps net snap now b))
          (snd (settleUntil steps net snap now b)).
Proof.
  unfold settleUntil.
  apply (runCallbacks_invariant (orderOK snap (length (calls b))) net).
  - intros k b' cs i c H Hi _. apply orderOK_step; assumption.
  - apply orderOK_start.
Qed.

(** *** What is stored when bets are resolved *)

Lemma storedOK_step strict snap n0 r b cs i c :
  allowed strict r ->
  storedOK strict snap n0 b cs -> cs !! i = Some c ->
  storedOK strict snap n0 (fst (resume r c b)) (<[i := snd (resume r c b)]> cs).
Proof.
  intros Hr (Hlen & Hlog & Hcs) Hi.
  pose proof (proj1 (List.Forall_forall _ _) Hcs c
                ltac:(apply list_elem_of_In, (list_elem_of_lookup_2 _ i); exact Hi))
    as (Hcache & Hrow).
  unfold storedOK. rewrite (addedSince_resume n0 r c b Hlen).
  split; [rewrite resume_calls, length_app; lia |]. split.
  - intros id hg ag Hin. apply in_app_or in Hin as [Hin | Hin].
    + destruct (Hlog id hg ag Hin) as ((sim & Hsim & <- & <-) & Hstored).
      split; [exists sim; repeat split; exact Hsim |].
      apply (resume_final_stable snap r c b id sim Hcache Hsim Hstored).
    + apply requestOf_resolve in Hin as (Hst & -> & -> & ->).
      split; [exists (cbSim c); repeat split; exact Hcache |].
      apply (resume_row_stable snap r c b c Hcache Hcache).
      unfold rowFor in Hrow. rewrite Hst in Hrow. exact Hrow.
  - apply Forall_insert.
    + eapply List.Forall_impl; [| exact Hcs]. cbn. intros c' (Hc' & Hrow').
      split; [exact Hc' |]. apply (resume_rowFor_other snap); assumption.
    + split; [apply resume_fromCache; exact Hcache |].
      apply resume_rowFor; assumption.
Qed.

Lemma storedOK_start strict snap now b ms :
  storedOK strict snap (length (calls b)) (foldl (startCallback snap now) b ms)
           (omap (suspended snap) ms).
Proof.
  unfold storedOK, addedSince. rewrite started_calls, drop_app_length.
  split; [rewrite length_app; lia |]. split.
  - intros id hg ag Hin. apply in_map_iff in Hin as (m & Hm & _). discriminate Hm.
  - eapply List.Forall_impl; [| apply (suspended_fromCache snap ms)].
    cbn. intros c (Hc & _ & Hst). split; [exact Hc |]. unfold rowFor. rewrite Hst. exact I.
Qed.

Lemma settleUntil_storedOK strict steps net snap now b :
  (forall k, allowed strict (reply net k)) ->
  storedOK strict snap (length (calls b)) (fst (settleUntil steps net snap now b))
           (snd (settleUntil steps net snap now b)).
Proof.
  intros Hnet. unfold settleUntil.
  apply (runCallbacks_invariant (storedOK strict snap (length (calls b))) net).
  - intros k b' cs i c H Hi _. apply storedOK_step; [apply Hnet | assumption | assumption].
  - apply storedOK_start.
Qed.

(** *** What a run leaves alone *)

Lemma runCallbacks_cbMatch net steps (ms : list Match) : forall k b cs,
  Forall (fun c => In (cbMatch c) ms) cs ->
  Forall (fun c => In (cbMatch c) ms) (snd (runCallbacks net steps k (b, cs))).
Proof.
  intros k b cs H.
  apply (runCallbacks_invariant (fun _ cs => Forall (fun c => In (cbMatch c) ms) cs) net);
    [| exact H].
  clear. intros k b cs i c H Hi _. apply Forall_insert; [exact H |].
  rewrite (proj1 (resume_same _ _ _)).
  apply (proj1 (List.Forall_forall _ _) H).
  apply list_elem_of_In, (list_elem_of_lookup_2 _ i). exact Hi.
Qed.

Lemma settleUntil_history steps net snap now b :
  map hId (history (fst (settleUntil steps net snap now b)))
  = map hId (history b) ++ map matchId (simulatedIn snap (snapMatches snap)).
Proof.
  unfold settleUntil. rewrite <- (started_history snap now (snapMatches snap) b).
  apply (runCallbacks_invariant
           (fun b' _ => map hId (history b')
                        = map hId (history (foldl (startCallback snap now) b (snapMatches snap))))
           net); [| reflexivity].
  intros k b' cs i c H _ _. rewrite resume_history. exact H.
Qed.

(** Rows of matches outside the timeframe are as before; rows that were
    there are still there, final if they were; [matches] has the same
    ids. *)
Lemma settleUntil_frame steps net snap now b id :
  let b' := fst (settleUntil steps net snap now b) in
  (~ In id (map matchId (snapMatches snap)) ->
   matchResults b' !! id = matchResults b !! id /\
   matchesTbl b' !! id = matchesTbl b !! id) /\
  (forall row, matchResults b !! id = Some row ->
     exists row', matchResults b' !! id = Some row' /\
                  (is_final row = true -> is_final row' = true)) /\
  (is_Some (matchesTbl b' !! id) <-> is_Some (matchesTbl b !! id)).
Proof.
  cbv zeta. unfold settleUntil.
  destruct (started_stores snap now (snapMatches snap) b) as (Ht0 & Hr0).
  set (b0 := foldl (startCallback snap now) b (snapMatches snap)) in *.
  set (cs0 := omap (suspended snap) (snapMatches snap)).
  assert (Hin0 : Forall (fun c => In (cbMatch c) (snapMatches snap)) cs0).
  { eapply List.Forall_impl; [| apply (suspended_fromCache snap (snapMatches snap))].
    cbn. tauto. }
  split; [| split].
  - intros Hnot. rewrite <- Hr0, <- Ht0.
    apply (runCallbacks_invariant
             (fun b' cs => Forall (fun c => In (cbMatch c) (snapMatches snap)) cs /\
                           (matchResults b' !! id = matchResults b0 !! id /\
                            matchesTbl b' !! id = matchesTbl b0 !! id)) net);
      [| split; [exact Hin0 | split; reflexivity]].
    intros k b' cs i c (Hall & Hr & Ht) Hi _.
    assert (Hc : In (cbMatch c) (snapMatches snap)).
    { apply (proj1 (List.Forall_forall _ _) Hall).
      apply list_elem_of_In, (list_elem_of_lookup_2 _ i). exact Hi. }
    assert (Hne : id <> cbId c).
    { intros ->. apply Hnot. unfold cbId. apply in_map. exact Hc. }
    split; [apply Forall_insert; [exact Hall | rewrite (proj1 (resume_same _ _ _)); exact Hc] |].
    rewrite (resume_rows_other _ _ _ _ Hne), (proj2 (resume_table _ c b' id) Hne).
    split; assumption.
  - intros row Hrow. rewrite <- Hr0 in Hrow.
    apply (runCallbacks_invariant
             (fun b' _ => exists row', matchResults b' !! id = Some row' /\
                                       (is_final row = true -> is_final row' = true)) net);
      [| exists row; tauto].
    intros k b' cs i c (row1 & Hrow1 & Hf1) _ _.
    destruct (resume_rows_keep (reply net k) c b' id row1 Hrow1) as (row2 & Hrow2 & Hf2).
    exists row2. split; [exact Hrow2 | tauto].
  - rewrite <- Ht0.
    apply (runCallbacks_invariant
             (fun b' _ => is_Some (matchesTbl b' !! id) <-> is_Some (matchesTbl b0 !! id)) net);
      [| reflexivity].
    intros k b' cs i c H _ _. rewrite (proj1 (resume_table _ c b' id)). exact H.
Qed.

(** Once the final rows are stored, no run changes the result rows,
    whatever its network. *)
Lemma settleUntil_settled steps net snap now b :
  alreadySettled snap (snapMatches snap) b ->
  matchResults (fst (settleUntil steps net snap now b)) = matchResults b.
Proof.
  intros Hset. unfold settleUntil.
  destruct (started_stores snap now (snapMatches snap) b) as (Ht0 & Hr0).
  set (b0 := foldl (startCallback snap now) b (snapMatches snap)) in *.
  rewrite <- Hr0.
  apply (runCallbacks_invariant
           (fun b' cs =>
              (matchResults b' = matchResults b0 /\
               forall id, is_Some (matchesTbl b' !! id) <-> is_Some (matchesTbl b0 !! id)) /\
              Forall (fun c => fromCache snap c /\ In (cbMatch c) (snapMatches snap) /\
                               foundInMatches b' c) cs) net).
  - intros k b' cs i c ((Hr & Ht) & Hall) Hi _.
    pose proof (proj1 (List.Forall_forall _ _) Hall c
                  ltac:(apply list_elem_of_In, (list_elem_of_lookup_2 _ i); exact Hi))
      as (Hcache & Hin & Hfound).
    split; [split |].
    + destruct (resume_rows (reply net k) c b') as [-> | ((e & He) & ->)]; [exact Hr |].
      rewrite Hr. apply insert_id. rewrite Hr0.
      apply (Hset (cbMatch c) (cbSim c) Hin Hcache).
      rewrite <- Ht0. apply Ht. apply Hfound; rewrite He; discriminate.
    + intros id. rewrite (proj1 (resume_table _ c b' id)). apply Ht.
    + apply Forall_insert.
      * eapply List.Forall_impl; [| exact Hall]. cbn. intros c' (H1 & H2 & H3).
        split; [exact H1 |]. split; [exact H2 |]. apply foundInMatches_other. exact H3.
      * split; [apply resume_fromCache; exact Hcache |].
        split; [rewrite (proj1 (resume_same _ _ _)); exact Hin |].
        apply resume_foundInMatches. exact Hfound.
  - split; [split; [reflexivity | intros id; reflexivity] |].
    eapply List.Forall_impl; [| apply (suspended_fromCache snap (snapMatches snap))].
    cbn. intros c (H1 & H2 & H3). split; [exact H1 |]. split; [exact H2 |].
    intros Hne. rewrite H3 in Hne. contradiction.
Qed.

(** A run in which every request is served stores the final row of every
    simulated match that is in [matches]. *)
Lemma settleAll_settles net snap now b :
  (forall k, reply net k = Served) ->
  alreadySettled snap (snapMatches snap) (fst (settleAll net snap now b)).
Proof.
  intros Hnet m sim Hin Hsim Htbl.
  pose proof (settleAll_completes net snap now b) as Hdone.
  unfold settleAll in *.
  set (steps := (5 * length (omap (suspended snap) (snapMatches snap)))%nat) in *.
  destruct (settleUntil_storedOK true steps net snap now b Hnet) as (_ & _ & Hcs).
  assert (Hex : exists c, In c (snd (settleUntil steps net snap now b))
                          /\ cbMatch c = m /\ cbSim c = sim).
  { unfold settleUntil.
    apply (runCallbacks_invariant
             (fun _ cs => exists c, In c cs /\ cbMatch c = m /\ cbSim c = sim) net).
    - intros k b' cs i c (c0 & Hc0 & Hm0 & Hs0) Hi _.
      apply list_elem_of_In, list_elem_of_lookup_1 in Hc0 as (j & Hj).
      destruct (decide (i = j)) as [-> | Hne].
      + rewrite Hi in Hj. injection Hj as ->.
        exists (snd (resume (reply net k) c0 b')). split; [| split].
        * apply list_elem_of_In, (list_elem_of_lookup_2 _ j).
          apply list_lookup_insert_eq. apply lookup_lt_Some in Hi. exact Hi.
        * rewrite (proj1 (resume_same _ _ _)). exact Hm0.
        * rewrite (proj2 (resume_same _ _ _)). exact Hs0.
      + exists c0. split; [| split; assumption].
        apply list_elem_of_In, (list_elem_of_lookup_2 _ j).
        rewrite list_lookup_insert_ne by exact Hne. exact Hj.
    - apply suspended_all; assumption. }
  destruct Hex as (c & Hc & Hm & Hs).
  pose proof (proj1 (List.Forall_forall _ _) Hcs c Hc) as (_ & Hrow).
  pose proof (proj1 (List.Forall_forall _ _) Hdone c Hc) as Hst.
  unfold rowFor in Hrow. rewrite Hst in Hrow.
  unfold cbId, cbRow in Hrow. rewrite Hm, Hs in Hrow. apply Hrow; [reflexivity | exact Htbl].
Qed.

End SettlementRun.

Section SettlementClaims.
Import Settlement.
Import Simulator.

(** *** The idempotency flag *)

Lemma settlementEffect_comp w :
  comp (settlementEffect w)
  = match matchState (comp w) with
    | Clock.Betting => comp w
    | _ => setSaved false (comp w)
    end.
Proof.
  unfold settlementEffect, settlementEffectBody, runCleanup.
  destruct (effectCleanup w); reflexivity.
Qed.

Lemma settlementEffect_backend w : backend (settlementEffect w) = backend w.
Proof.
  unfold settlementEffect, settlementEffectBody, runCleanup.
  destruct (effectCleanup w); reflexivity.
Qed.

Lemma settlementEffect_cleanup w : effectCleanup (settlementEffect w) = None.
Proof.
  unfold settlementEffect, settlementEffectBody, runCleanup.
  destruct (effectCleanup w); reflexivity.
Qed.

Lemma settlementEffect_inFlight w :
  inFlight (settlementEffect w) = inFlight w ++ startedBy (comp w).
Proof.
  unfold settlementEffect, settlementEffectBody, runCleanup.
  destruct (effectCleanup w); reflexivity.
Qed.

Lemma startedBy_saved c : resultsSavedForPhase c = true -> startedBy c = [].
Proof.
  intros H. unfold startedBy. rewrite H.
  destruct (matchState c); try reflexivity.
  destruct (selectedTimeSlot c) as [slot |]; try reflexivity.
  destruct (matchupsByTimeframe c !! slot); reflexivity.
Qed.

Lemma startedBy_not_betting c : matchState c <> Clock.Betting -> startedBy c = [].
Proof.
  intros H. unfold startedBy. destruct (matchState c); try reflexivity. contradiction.
Qed.

Lemma startedBy_stable w :
  startedBy (comp w) = [] -> startedBy (comp (settlementEffect w)) = [].
Proof.
  intros H. rewrite settlementEffect_comp.
  destruct (matchState (comp w)) eqn:E; try exact H;
    apply startedBy_not_betting; unfold setSaved; cbn [matchState]; rewrite E; discriminate.
Qed.

(** While an evaluation of the effect would start nothing, repeating it
    starts nothing and issues no request. *)
Lemma settlementEffect_idle n : forall w,
  startedBy (comp w) = [] ->
  backend (Nat.iter n settlementEffect w) = backend w /\
  inFlight (Nat.iter n settlementEffect w) = inFlight w /\
  startedBy (comp (Nat.iter n settlementEffect w)) = [].
Proof.
  induction n as [| n IH]; intros w H.
  - repeat split. exact H.
  - rewrite !Nat.iter_succ. destruct (IH w H) as (Hb & Hq & Hs).
    rewrite settlementEffect_backend, settlementEffect_inFlight, Hs, app_nil_r.
    split; [exact Hb |]. split; [exact Hq |]. apply startedBy_stable. exact Hs.
Qed.

Lemma handlerCompletes_saved net w :
  inFlight w <> [] -> resultsSavedForPhase (comp (handlerCompletes net w)) = true.
Proof.
  unfold handlerCompletes. destruct (inFlight w); [contradiction | reflexivity].
Qed.

(** After an evaluation of the effect and the completion of the run it
    started (if any), an evaluation starts nothing. *)
Lemma settled_then_idle net w :
  inFlight w = [] ->
  startedBy (comp (handlerCompletes net (settlementEffect w))) = [].
Proof.
  intros Hq.
  destruct (startedBy (comp w)) as [| snap rest] eqn:Hs.
  - assert (Hq' : inFlight (settlementEffect w) = [])
      by (rewrite settlementEffect_inFlight, Hq, Hs; reflexivity).
    unfold handlerCompletes. rewrite Hq'. apply startedBy_stable. exact Hs.
  - apply startedBy_saved. apply handlerCompletes_saved.
    rewrite settlementEffect_inFlight, Hq, Hs. discriminate.
Qed.

(** C2.  While [resultsSavedForPhase] is set, evaluating the settlement
    effect any number of times starts no new [handleMatchResults] run and
    issues no request (no history save, no upsert, no bet resolution).
    Hence, once the run started on entering the betting phase has
    completed (in whatever order its requests were answered), further
    evaluations in that phase add nothing.  An
    evaluation leaves the flag as it is in the betting phase and clears it
    in every other phase, so that the first evaluation after the phase
    returns to betting starts exactly one run for the timeframe's matches. *)
Theorem settlement_runs_once (w : World) (n : nat) :
  resultsSavedForPhase (comp w) = true ->
  (backend (Nat.iter n settlementEffect w) = backend w /\
   inFlight (Nat.iter n settlementEffect w) = inFlight w) /\
  (forall net x k,
     inFlight x = [] ->
     let settled := handlerCompletes net (settlementEffect x) in
     backend (Nat.iter k settlementEffect settled) = backend settled /\
     inFlight (Nat.iter k settlementEffect settled) = []) /\
  (forall x, resultsSavedForPhase (comp (settlementEffect x))
             = match matchState (comp x) with
               | Clock.Betting => resultsSavedForPhase (comp x)
               | _ => false
               end) /\
  (forall x p slot matches,
     p <> Clock.Betting ->
     selectedTimeSlot (comp x) = Some slot ->
     matchupsByTimeframe (comp x) !! slot = Some matches ->
     inFlight (settlementEffect (setMatchState Clock.Betting
                 (settlementEffect (setMatchState p x))))
     = inFlight x ++ [mkSnapshot matches (matchSimCache (comp x)) (selectedCountry (comp x))]).
Proof.
  intros Hsaved. split; [| split; [| split]].
  - destruct (settlementEffect_idle n w (startedBy_saved _ Hsaved)) as (Hb & Hq & _).
    split; assumption.
  - intros net x k Hq settled.
    destruct (settlementEffect_idle k settled (settled_then_idle net x Hq)) as (Hb & Hq' & _).
    split; [exact Hb |]. rewrite Hq'. subst settled.
    unfold handlerCompletes. rewrite settlementEffect_inFlight, Hq.
    destruct (startedBy (comp x)) as [| snap rest] eqn:Hs.
    { cbn [app]. rewrite settlementEffect_inFlight, Hq, Hs. reflexivity. }
    assert (Hone : rest = []).
    { unfold startedBy in Hs.
      destruct (matchState (comp x)); try discriminate Hs.
      destruct (selectedTimeSlot (comp x)) as [slot |]; try discriminate Hs.
      destruct (matchupsByTimeframe (comp x) !! slot); try discriminate Hs.
      destruct (resultsSavedForPhase (comp x)); [discriminate Hs |].
      injection Hs as _ <-. reflexivity. }
    subst rest. reflexivity.
  - intros x. rewrite settlementEffect_comp.
    destruct (matchState (comp x)); reflexivity.
  - intros x p slot matches Hp Hslot Hms.
    rewrite settlementEffect_inFlight.
    assert (Hc : comp (setMatchState Clock.Betting (settlementEffect (setMatchState p x)))
                 = mkComponent Clock.Betting (selectedTimeSlot (comp x))
                     (matchupsByTimeframe (comp x)) (matchSimCache (comp x))
                     (selectedCountry (comp x)) false (matchHistory (comp x))
                     (mounted (comp x))).
    { unfold setMatchState at 1. cbn [comp]. rewrite settlementEffect_comp.
      unfold setMatchState. cbn [comp matchState].
      destruct p; try contradiction; reflexivity. }
    rewrite Hc. unfold startedBy. cbn [matchState selectedTimeSlot matchupsByTimeframe
      resultsSavedForPhase matchSimCache selectedCountry].
    rewrite Hslot, Hms.
    unfold setMatchState at 1. cbn [inFlight].
    rewrite settlementEffect_inFlight.
    rewrite startedBy_not_betting; [rewrite app_nil_r; reflexivity |].
    unfold setMatchState. cbn [comp matchState]. exact Hp.
Qed.

(** After the sample timeframe has been settled, three more evaluations of
    the effect leave the stores and the request log as they are. *)
Lemma settlement_runs_once_witness :
  let w := handlerCompletes inTurns (settlementEffect sampleWorld) in
  resultsSavedForPhase (comp w) = true /\
  backend (Nat.iter 3 settlementEffect w) = backend w.
Proof.
  cbv zeta.
  assert (H : resultsSavedForPhase
                (comp (handlerCompletes inTurns (settlementEffect sampleWorld)))
              = true) by reflexivity.
  split; [exact H |].
  exact (proj1 (proj1 (settlement_runs_once _ 3 H))).
Defined.

End SettlementClaims.

Section SettlementOrdering.
Import Settlement.
Import Simulator.

(** *** Write, then resolve *)

(** C3: what the code does.  Under every order of answers and whatever
    fails, each [resolveBetsForMatch(id, hg, ag)] of a run is for the
    cached score of the match and comes after the request that writes the
    final row of the same match (update of the row found, insert
    otherwise; winner derived from the goals, [is_final = true]).  When no
    request is answered with an error, that row is in the store from the
    moment the resolution is invoked, at every step of the run.  But the
    answer to the write is never read: after an error the callback goes on
    to resolve the bets with the store unchanged.  On the sample timeframe,
    with the insert for the second match refused, the bets of that match
    are resolved and the run ends with no result row for it. *)
Theorem resolution_ignores_refused_write :
  (forall net snap w,
     let added := addedSince (length (calls (backend w)))
                    (backend (fst (handleMatchResults net snap w))) in
     writeBeforeResolve added /\
     forall id hg ag, In (ResolveBets id hg ag) added ->
       exists sim, snapCache snap !! id = Some sim /\ homeGoals sim = hg /\ awayGoals sim = ag) /\
  (forall net snap w steps,
     (forall k, reply net k <> Refused) ->
     let b := fst (settleUntil steps net snap (clock w) (backend w)) in
     forall id hg ag,
       In (ResolveBets id hg ag) (addedSince (length (calls (backend w))) b) ->
       matchResults b !! id = Some (finalRow hg ag)) /\
  (forall c b existing r,
     stage c = AwaitResultWrite existing ->
     let refused := resume Refused c b in
     matchResults (fst refused) = matchResults b /\
     calls (fst (resume r (snd refused) (fst refused)))
     = calls b ++ [if existing then UpdateResult (cbId c) (cbRow c)
                   else InsertResult (cbId c) (cbRow c);
                   ResolveBets (cbId c) (homeGoals (cbSim c)) (awayGoals (cbSim c))]) /\
  (forall hg ag,
     finalRow hg ag
     = mkRow hg ag (match hg ?= ag with Gt => WinHome | Lt => WinAway | Eq => Draw end) true) /\
  (let w' := fst (handleMatchResults insertRefused sampleSnapshot sampleWorld) in
   calls (backend w')
   = [SaveHistory "ke-1000-0"; SaveHistory "ke-1000-1";
      SelectMatchRaw "ke-1000-0"; SelectMatchRaw "ke-1000-1";
      UpdateMatchRaw "ke-1000-0" 2 1; UpdateMatchRaw "ke-1000-1" 0 0;
      SelectResult "ke-1000-0"; SelectResult "ke-1000-1";
      UpdateResult "ke-1000-0" (mkRow 2 1 WinHome true);
      InsertResult "ke-1000-1" (mkRow 0 0 Draw true);
      ResolveBets "ke-1000-0" 2 1; ResolveBets "ke-1000-1" 0 0] /\
   matchResults (backend w') !! "ke-1000-0" = Some (mkRow 2 1 WinHome true) /\
   matchResults (backend w') !! "ke-1000-1" = None).
Proof.
  split; [| split; [| split; [| split]]].
  - intros net snap w added. subst added. rewrite handleMatchResults_backend.
    unfold settleAll.
    destruct (settleUntil_orderOK
                (5 * length (omap (suspended snap) (snapMatches snap)))
                net snap (clock w) (backend w)) as (_ & Hord & Hsim & _).
    split; [exact Hord | exact Hsim].
  - intros net snap w steps Hnet b id hg ag Hin. subst b.
    destruct (settleUntil_storedOK false steps net snap (clock w) (backend w) Hnet)
      as (_ & Hlog & _).
    exact (proj2 (Hlog id hg ag Hin)).
  - intros c b existing r Hst refused. subst refused.
    destruct c as [m sim st]. cbn [stage] in Hst. subst st.
    unfold resume at 2 3. cbn [stage cbId cbMatch cbSim fst snd moveTo].
    unfold resume. cbn [stage cbId cbMatch cbSim fst snd moveTo].
    destruct existing; unfold updateResult, insertResult, logCall;
      cbn [matchResults calls]; rewrite <- app_assoc; split; reflexivity.
  - intros hg ag. unfold finalRow, winnerOf, Z.gtb.
    rewrite (Z.compare_antisym hg ag). destruct (hg ?= ag); reflexivity.
  - vm_compute. repeat split; reflexivity.
Qed.

End SettlementOrdering.

Section SettlementSweeps.
Import Settlement.

(** *** The deferred stale-bet sweep *)

Lemma scheduleSweeps_matches now n ms :
  map sweepMatch (scheduleSweeps now n ms) = map matchId ms /\
  Forall (fun t => fireAt t = now + sweepDelay) (scheduleSweeps now n ms).
Proof.
  revert n. induction ms as [| m ms IH]; intros n; cbn.
  - split; [reflexivity | constructor].
  - destruct (IH (S n)) as (Hm & Hf). rewrite Hm. split; [reflexivity |].
    constructor; [reflexivity | exact Hf].
Qed.

Lemma handlerCompletes_cleanup net w :
  effectCleanup (handlerCompletes net w) = effectCleanup w.
Proof.
  unfold handlerCompletes. destruct (inFlight w); reflexivity.
Qed.

Lemma advanceTime_calls dt w :
  calls (backend (advanceTime dt w))
  = calls (backend w)
    ++ map (fun t => ForceResolveStale (sweepMatch t))
           (List.filter (fun t => fireAt t <=? clock w + dt) (timers w)).
Proof.
  unfold advanceTime. cbn [backend]. generalize (backend w).
  induction (List.filter _ _) as [| t ts IH]; intros b0; [cbn; rewrite app_nil_r; reflexivity |].
  cbn [foldl map]. rewrite IH. unfold logCall. cbn [calls]. rewrite <- app_assoc. reflexivity.
Qed.

Lemma unmount_keeps_timers w : effectCleanup w = None -> timers (unmount w) = timers w.
Proof.
  intros H. unfold unmount, runCleanup. rewrite H. reflexivity.
Qed.

(** C4: what the code does.  Each run of [handleMatchResults] schedules
    one sweep per match of the timeframe, due 95000 ms after the moment it
    is scheduled.  The function that would clear these timers is returned
    by the asynchronous closure, not by the effect: React holds no cleanup
    for the effect, so tearing the component down cancels none of them.  On
    the sample timeframe, however the run went, the two sweeps are still
    pending after the unmount and both call [forceResolveStaleBets] 95
    seconds later, against the unmounted component. *)
Theorem sweeps_survive_unmount :
  (forall net snap w,
     timers (fst (handleMatchResults net snap w))
       = timers w ++ scheduleSweeps (clock w) (nextTimerId w) (snapMatches snap) /\
     map sweepMatch (scheduleSweeps (clock w) (nextTimerId w) (snapMatches snap))
       = map matchId (snapMatches snap) /\
     Forall (fun t => fireAt t = clock w + 95000)
       (scheduleSweeps (clock w) (nextTimerId w) (snapMatches snap))) /\
  (forall w, snd (settlementEffectBody w) = None) /\
  (forall net w, timers (unmount (handlerCompletes net (settlementEffect w)))
                 = timers (handlerCompletes net (settlementEffect w))) /\
  (forall net,
   let settled := handlerCompletes net (settlementEffect sampleWorld) in
   let tornDown := unmount settled in
   let later := advanceTime 95000 tornDown in
   timers settled = [mkTimer 0 96000 "ke-1000-0"; mkTimer 1 96000 "ke-1000-1"] /\
   mounted (comp tornDown) = false /\
   timers tornDown = timers settled /\
   calls (backend later)
     = calls (backend tornDown)
       ++ [ForceResolveStale "ke-1000-0"; ForceResolveStale "ke-1000-1"]).
Proof.
  split; [| split; [| split]].
  - intros net snap w. split; [reflexivity |].
    apply scheduleSweeps_matches.
  - intros w. reflexivity.
  - intros net w. apply unmount_keeps_timers.
    rewrite handlerCompletes_cleanup. apply settlementEffect_cleanup.
  - intros net settled tornDown later.
    assert (Hstart : settlementEffect sampleWorld
                     = mkWorld (comp sampleWorld) (backend sampleWorld) [sampleSnapshot]
                               [] 0 1000 None) by (vm_compute; reflexivity).
    assert (Htimers : timers settled
                      = [mkTimer 0 96000 "ke-1000-0"; mkTimer 1 96000 "ke-1000-1"]).
    { subst settled. rewrite Hstart. reflexivity. }
    assert (Hkept : timers tornDown = timers settled).
    { subst tornDown settled. apply unmount_keeps_timers.
      rewrite handlerCompletes_cleanup. apply settlementEffect_cleanup. }
    assert (Hclock : clock tornDown = 1000).
    { subst tornDown settled. rewrite Hstart. reflexivity. }
    split; [exact Htimers |]. split; [reflexivity |]. split; [exact Hkept |].
    subst later. rewrite advanceTime_calls, Hkept, Htimers, Hclock. reflexivity.
Qed.

End SettlementSweeps.

(** ** Schedule lookup *)
Section ScheduleClaims.
Import Schedule.

Lemma index_before_epoch time sched :
  time < referenceEpoch sched -> 0 <= matchInterval sched ->
  isNegative (findScheduleIndexForTime time sched) = true.
Proof.
  intros Ht Hi. unfold findScheduleIndexForTime.
  destruct (Z.eqb_spec (matchInterval sched * 60000) 0) as [Hz | Hz].
  - assert (Hn : (time - referenceEpoch sched <? 0) = true) by (apply Z.ltb_lt; lia).
    rewrite Hn. reflexivity.
  - unfold isNegative. apply Z.ltb_lt.
    assert (Hpos : 0 < matchInterval sched * 60000) by lia.
    apply Z.div_lt_upper_bound; [exact Hpos |]. rewrite Z.mul_0_r. lia.
Qed.

Lemma modLength_not_negative i len :
  isNegative i = false -> isNegative (modLength i len) = false.
Proof.
  destruct i as [z | | |]; cbn; intros H; try reflexivity.
  destruct (Nat.eqb_spec len 0) as [Hl | Hl]; [reflexivity |]. cbn.
  apply Z.ltb_ge in H. apply Z.ltb_ge. apply Z.rem_nonneg; lia.
Qed.

(** C10.  When the time precedes the reference epoch of a schedule whose
    interval is not negative, the derived schedule index is negative,
    [getMatchAtTime] and [getCurrentMatch] return null and do not read the
    match pool.  More generally both return null without reading the pool
    whenever the derived index is negative, and for every input every
    index at which either of them reads the pool is not negative. *)
Theorem before_epoch_returns_null (stored : GlobalSchedule) (time : Z)
    (allMatches : list Match) (schedule : option GlobalSchedule) :
  let sched := match schedule with Some s => s | None => stored end in
  time < referenceEpoch sched ->
  0 <= matchInterval sched ->
  isNegative (findScheduleIndexForTime time sched) = true /\
  getMatchAtTime stored time allMatches schedule = None /\
  reads (getMatchAtTimeTraced stored time allMatches schedule) = [] /\
  (time < referenceEpoch stored -> 0 <= matchInterval stored ->
   getCurrentMatch stored time allMatches = Returned None /\
   reads (getCurrentMatchTraced stored time allMatches) = []) /\
  (forall t pool sch,
     isNegative (findScheduleIndexForTime t
                   (match sch with Some s => s | None => stored end)) = true ->
     getMatchAtTimeTraced stored t pool sch = mkLookup [] None) /\
  (forall t pool,
     isNegative (findScheduleIndexForTime t stored) = true ->
     getCurrentMatchTraced stored t pool = mkLookup [] (Returned None)) /\
  (forall t pool sch,
     Forall (fun i => isNegative i = false)
       (reads (getMatchAtTimeTraced stored t pool sch)
        ++ reads (getCurrentMatchTraced stored t pool))).
Proof.
  intros sched Ht Hi.
  assert (Hneg : isNegative (findScheduleIndexForTime time sched) = true)
    by (apply index_before_epoch; assumption).
  assert (Hat : forall t pool sch,
            isNegative (findScheduleIndexForTime t
                          (match sch with Some s => s | None => stored end)) = true ->
            getMatchAtTimeTraced stored t pool sch = mkLookup [] None).
  { intros t pool sch H. unfold getMatchAtTimeTraced. rewrite H. reflexivity. }
  assert (Hcur : forall t pool,
            isNegative (findScheduleIndexForTime t stored) = true ->
            getCurrentMatchTraced stored t pool = mkLookup [] (Returned None)).
  { intros t pool H. unfold getCurrentMatchTraced. rewrite H.
    destruct (length pool =? 0)%nat; reflexivity. }
  split; [exact Hneg |].
  split; [unfold getMatchAtTime; rewrite (Hat time allMatches schedule Hneg); reflexivity |].
  split; [rewrite (Hat time allMatches schedule Hneg); reflexivity |].
  split.
  { intros Ht' Hi'. pose proof (index_before_epoch time stored Ht' Hi') as Hn.
    unfold getCurrentMatch. rewrite (Hcur time allMatches Hn). split; reflexivity. }
  split; [exact Hat |]. split; [exact Hcur |].
  intros t pool sch. apply Forall_app. split.
  - unfold getMatchAtTimeTraced.
    set (idx := findScheduleIndexForTime t _).
    destruct (isNegative idx) eqn:E; [constructor |].
    pose proof (modLength_not_negative idx (length pool) E) as Hm.
    destruct (element pool (modLength idx (length pool))); [destruct idx |];
      cbn [reads]; repeat constructor; exact Hm.
  - unfold getCurrentMatchTraced.
    destruct (length pool =? 0)%nat; [constructor |].
    set (idx := findScheduleIndexForTime t stored).
    destruct (isNegative idx) eqn:E; [constructor |].
    pose proof (modLength_not_negative idx (length pool) E) as Hm.
    destruct (element pool (modLength idx (length pool))); [destruct idx |];
      cbn [reads]; repeat constructor; exact Hm.
Qed.

(** One millisecond before the sample epoch both lookups return null. *)
Lemma before_epoch_returns_null_witness :
  1699999999999 < referenceEpoch sampleSchedule /\
  0 <= matchInterval sampleSchedule /\
  getMatchAtTime sampleSchedule 1699999999999 samplePool None = None /\
  getCurrentMatch sampleSchedule 1699999999999 samplePool = Returned None.
Proof.
  assert (Ht : 1699999999999 < referenceEpoch sampleSchedule) by reflexivity.
  assert (Hi : 0 <= matchInterval sampleSchedule) by (cbn; lia).
  split; [exact Ht |]. split; [exact Hi |].
  pose proof (before_epoch_returns_null sampleSchedule 1699999999999 samplePool None Ht Hi)
    as (_ & Hat & _ & Hcur & _).
  split; [exact Hat | exact (proj1 (Hcur Ht Hi))].
Defined.

End ScheduleClaims.

(* ===================================================================== *)
(** * Further properties of the code around the claims                   *)
(* ===================================================================== *)

(** ** Schedule service: slots, lookups, neighbours *)
Section ScheduleSlots.
Import Schedule.

Lemma index_is_quotient sched t :
  0 < matchInterval sched ->
  findScheduleIndexForTime t sched = Fin ((t - referenceEpoch sched) / slotMs sched).
Proof.
  intros Hi. unfold findScheduleIndexForTime, slotMs.
  destruct (Z.eqb_spec (matchInterval sched * 60000) 0) as [Hz | Hz]; [lia | reflexivity].
Qed.

Lemma scheduled_time_linear sched i :
  calculateScheduledTime i sched = referenceEpoch sched + i * slotMs sched.
Proof. unfold calculateScheduledTime, slotMs. lia. Qed.

(** The schedule index of any instant of slot [i] is [i]. *)
Lemma index_within_slot sched i off :
  0 < matchInterval sched -> 0 <= off < slotMs sched ->
  findScheduleIndexForTime (calculateScheduledTime i sched + off) sched = Fin i.
Proof.
  intros Hi Hoff. rewrite index_is_quotient by exact Hi. f_equal.
  rewrite scheduled_time_linear.
  replace (referenceEpoch sched + i * slotMs sched + off - referenceEpoch sched)
    with (off + i * slotMs sched) by lia.
  rewrite Z.div_add by lia. rewrite Z.div_small by lia. lia.
Qed.

(** X1.  For a positive interval, the index of the scheduled start of
    slot [i] is [i] again, and every instant lies in the slot its index
    names: from the slot's scheduled start up to, not including, the
    start of the next one. *)
Theorem schedule_index_round_trip (sched : GlobalSchedule) (i t : Z) :
  0 < matchInterval sched ->
  findScheduleIndexForTime (calculateScheduledTime i sched) sched = Fin i /\
  exists idx,
    findScheduleIndexForTime t sched = Fin idx /\
    calculateScheduledTime idx sched <= t < calculateScheduledTime (idx + 1) sched.
Proof.
  intros Hi. split.
  - replace (calculateScheduledTime i sched) with (calculateScheduledTime i sched + 0) by lia.
    apply index_within_slot; [exact Hi | unfold slotMs; lia].
  - exists ((t - referenceEpoch sched) / slotMs sched).
    split; [apply index_is_quotient; exact Hi |].
    rewrite !scheduled_time_linear.
    assert (Hd : 0 < slotMs sched) by (unfold slotMs; lia).
    pose proof (Z.div_mod (t - referenceEpoch sched) (slotMs sched)) as Hdm.
    pose proof (Z.mod_pos_bound (t - referenceEpoch sched) (slotMs sched) Hd) as Hb.
    specialize (Hdm ltac:(lia)). nia.
Qed.

Lemma schedule_index_round_trip_witness :
  0 < matchInterval sampleSchedule /\
  findScheduleIndexForTime (calculateScheduledTime 7 sampleSchedule) sampleSchedule = Fin 7.
Proof.
  assert (Hi : 0 < matchInterval sampleSchedule) by reflexivity.
  split; [exact Hi |].
  exact (proj1 (schedule_index_round_trip sampleSchedule 7 0 Hi)).
Defined.

(** Reading the pool at a non-negative index modulo its length. *)
Lemma element_cycle {A} (pool : list A) (z : Z) :
  0 <= z -> pool <> [] ->
  element pool (modLength (Fin z) (length pool))
  = pool !! Z.to_nat (z mod Z.of_nat (length pool)).
Proof.
  intros Hz Hne. unfold modLength.
  destruct (Nat.eqb_spec (length pool) 0) as [Hl | Hl].
  - destruct pool; [contradiction | discriminate Hl].
  - unfold element. rewrite Z.rem_mod_nonneg by lia.
    destruct (Z.ltb_spec (z mod Z.of_nat (length pool)) 0) as [Hn | Hn]; [| reflexivity].
    pose proof (Z.mod_pos_bound z (Z.of_nat (length pool))). lia.
Qed.

Lemma element_cycle_some {A} (pool : list A) (z : Z) :
  0 <= z -> pool <> [] ->
  exists m, pool !! Z.to_nat (z mod Z.of_nat (length pool)) = Some m.
Proof.
  intros Hz Hne. apply lookup_lt_is_Some_2.
  assert (0 < length pool)%nat by (destruct pool; [contradiction | cbn; lia]).
  pose proof (Z.mod_pos_bound z (Z.of_nat (length pool))). lia.
Qed.

Lemma entryAt_live sched (pool : list Match) z :
  0 <= z -> pool <> [] ->
  exists m, pool !! Z.to_nat (z mod Z.of_nat (length pool)) = Some m /\
    entryAt sched pool (Fin z)
    = Some (mkScheduled (id m) z (calculateScheduledTime z sched) (homeTeam m) (awayTeam m)).
Proof.
  intros Hz Hne. destruct (element_cycle_some pool z Hz Hne) as (m & Hm).
  exists m. split; [exact Hm |]. unfold entryAt.
  assert (Hn : isNegative (Fin z) = false) by (cbn; apply Z.ltb_ge; exact Hz).
  rewrite Hn, (element_cycle pool z Hz Hne), Hm. reflexivity.
Qed.

Lemma getMatchAtTime_entryAt stored t pool sch :
  getMatchAtTime stored t pool sch
  = entryAt (match sch with Some s => s | None => stored end) pool
      (findScheduleIndexForTime t (match sch with Some s => s | None => stored end)).
Proof.
  unfold getMatchAtTime, getMatchAtTimeTraced, entryAt.
  destruct (isNegative _); [reflexivity |].
  destruct (element pool _); [destruct (findScheduleIndexForTime _ _) |]; reflexivity.
Qed.

(** X2.  On or after the reference epoch, with a positive interval and a
    non-empty pool, [getMatchAtTime] always finds a match: the pool entry
    at the schedule index modulo the pool length, reported with that index
    and with a scheduled start that is not after the requested time and
    less than one interval before it. *)
Theorem getMatchAtTime_live (stored : GlobalSchedule) (t : Z) (pool : list Match)
    (schedule : option GlobalSchedule) :
  let sched := match schedule with Some s => s | None => stored end in
  0 < matchInterval sched -> referenceEpoch sched <= t -> pool <> [] ->
  exists idx m,
    0 <= idx /\
    pool !! Z.to_nat (idx mod Z.of_nat (length pool)) = Some m /\
    getMatchAtTime stored t pool schedule
      = Some (mkScheduled (id m) idx (calculateScheduledTime idx sched)
                          (homeTeam m) (awayTeam m)) /\
    calculateScheduledTime idx sched <= t < calculateScheduledTime idx sched + slotMs sched.
Proof.
  intros sched Hi Ht Hne.
  destruct (schedule_index_round_trip sched 0 t Hi) as (_ & idx & Hidx & Hin).
  assert (Hpos : 0 <= idx).
  { rewrite index_is_quotient in Hidx by exact Hi. injection Hidx as <-.
    apply Z.div_pos; unfold slotMs; lia. }
  destruct (entryAt_live sched pool idx Hpos Hne) as (m & Hm & He).
  exists idx, m. split; [exact Hpos |]. split; [exact Hm |]. split.
  - rewrite getMatchAtTime_entryAt. fold sched. rewrite Hidx. exact He.
  - rewrite !scheduled_time_linear in *. lia.
Qed.

Lemma getMatchAtTime_live_witness :
  0 < matchInterval sampleSchedule /\ referenceEpoch sampleSchedule <= 1700005400005 /\
  samplePool <> [] /\
  exists idx m, 0 <= idx /\
    samplePool !! Z.to_nat (idx mod Z.of_nat (length samplePool)) = Some m /\
    getMatchAtTime sampleSchedule 1700005400005 samplePool None
      = Some (mkScheduled (id m) idx (calculateScheduledTime idx sampleSchedule)
                          (homeTeam m) (awayTeam m)).
Proof.
  assert (Hi : 0 < matchInterval sampleSchedule) by reflexivity.
  assert (Ht : referenceEpoch sampleSchedule <= 1700005400005) by (cbn; lia).
  assert (Hne : samplePool <> []) by discriminate.
  split; [exact Hi |]. split; [exact Ht |]. split; [exact Hne |].
  destruct (getMatchAtTime_live sampleSchedule 1700005400005 samplePool None Hi Ht Hne)
    as (idx & m & H0 & Hm & Hget & _).
  exists idx, m. split; [exact H0 |]. split; [exact Hm | exact Hget].
Defined.

(** X3.  The pool cycles: one full round of the pool later (pool length
    times the interval), [getMatchAtTime] names the same pool match, with
    the schedule index advanced by the pool length. *)
Theorem getMatchAtTime_cycles (stored : GlobalSchedule) (t : Z) (pool : list Match)
    (schedule : option GlobalSchedule) :
  let sched := match schedule with Some s => s | None => stored end in
  let round := Z.of_nat (length pool) * slotMs sched in
  0 < matchInterval sched -> referenceEpoch sched <= t ->
  option_map matchId (getMatchAtTime stored (t + round) pool schedule)
    = option_map matchId (getMatchAtTime stored t pool schedule) /\
  option_map scheduleIndex (getMatchAtTime stored (t + round) pool schedule)
    = option_map (fun i => i + Z.of_nat (length pool))
        (option_map scheduleIndex (getMatchAtTime stored t pool schedule)).
Proof.
  intros sched round Hi Ht.
  destruct pool as [| m0 rest].
  { subst round. cbn [length]. rewrite Z.mul_0_l, Z.add_0_r.
    rewrite getMatchAtTime_entryAt. fold sched. rewrite index_is_quotient by exact Hi.
    unfold entryAt, modLength. cbn [length Nat.eqb element].
    destruct (isNegative _); split; reflexivity. }
  set (pool := m0 :: rest) in *.
  assert (Hne : pool <> []) by discriminate.
  assert (Hd : 0 < slotMs sched) by (unfold slotMs; lia).
  rewrite !getMatchAtTime_entryAt. fold sched.
  rewrite !index_is_quotient by exact Hi.
  set (idx := (t - referenceEpoch sched) / slotMs sched).
  assert (Hidx : (t + round - referenceEpoch sched) / slotMs sched
                 = idx + Z.of_nat (length pool)).
  { subst round idx.
    replace (t + Z.of_nat (length pool) * slotMs sched - referenceEpoch sched)
      with (t - referenceEpoch sched + Z.of_nat (length pool) * slotMs sched) by lia.
    apply Z.div_add. lia. }
  rewrite Hidx.
  assert (Hpos : 0 <= idx) by (apply Z.div_pos; lia).
  destruct (entryAt_live sched pool idx Hpos Hne) as (m & Hm & He).
  destruct (entryAt_live sched pool (idx + Z.of_nat (length pool)) ltac:(lia) Hne)
    as (m' & Hm' & He').
  assert (Hlen : Z.of_nat (length pool) <> 0) by (subst pool; cbn [length]; lia).
  replace ((idx + Z.of_nat (length pool)) mod Z.of_nat (length pool))
    with (idx mod Z.of_nat (length pool)) in Hm'
    by (rewrite <- (Z.mul_1_l (Z.of_nat (length pool))) at 2;
        rewrite Z.mod_add by exact Hlen; reflexivity).
  rewrite Hm in Hm'. injection Hm' as <-.
  rewrite He, He'. split; reflexivity.
Qed.

Lemma getMatchAtTime_cycles_witness :
  0 < matchInterval sampleSchedule /\ referenceEpoch sampleSchedule <= 1700005400005 /\
  option_map matchId
    (getMatchAtTime sampleSchedule (1700005400005 + 2 * slotMs sampleSchedule) samplePool None)
  = option_map matchId (getMatchAtTime sampleSchedule 1700005400005 samplePool None).
Proof.
  assert (Hi : 0 < matchInterval sampleSchedule) by reflexivity.
  assert (Ht : referenceEpoch sampleSchedule <= 1700005400005) by (cbn; lia).
  split; [exact Hi |]. split; [exact Ht |].
  exact (proj1 (getMatchAtTime_cycles sampleSchedule 1700005400005 samplePool None Hi Ht)).
Defined.

End ScheduleSlots.

Section ScheduleEdges.
Import Schedule.

(** X5.  [getCurrentMatch] and the service's [getMatchAtTime] agree: when
    the service finds a match for a time under the stored schedule,
    [getCurrentMatch] returns the same pool entry with the scheduled start
    as kickoff time and the schedule index appended to the id; when the
    service finds none, [getCurrentMatch] returns null or throws, never a
    match. *)
Theorem current_match_agrees (stored : GlobalSchedule) (t : Z) (pool : list Match) :
  match getMatchAtTime stored t pool None with
  | Some e =>
      getCurrentMatch stored t pool
      = Returned (Some (mkMatch (matchId e ++ "-" ++ showZ (scheduleIndex e))%string
                          (sHomeTeam e) (sAwayTeam e) (scheduledStartTime e)))
  | None =>
      getCurrentMatch stored t pool = Returned None \/ getCurrentMatch stored t pool = Thrown
  end.
Proof.
  unfold getMatchAtTime, getMatchAtTimeTraced, getCurrentMatch, getCurrentMatchTraced.
  destruct (Nat.eqb_spec (length pool) 0) as [Hl | Hl].
  - destruct pool; [| discriminate Hl].
    destruct (isNegative _); cbn; [left; reflexivity |].
    destruct (findScheduleIndexForTime t stored); cbn; left; reflexivity.
  - destruct (isNegative (findScheduleIndexForTime t stored)); cbn [result];
      [left; reflexivity |].
    destruct (element pool _) as [m |];
      [destruct (findScheduleIndexForTime t stored) |]; cbn [result];
      try (right; reflexivity). reflexivity.
Qed.

End ScheduleEdges.

Section ScheduleNeighbours.
Import Schedule.

Lemma omap_length_le {A B} (f : A -> option B) (l : list A) :
  (length (omap f l) <= length l)%nat.
Proof.
  induction l as [| x l IH]; [reflexivity |]. cbn.
  destruct (f x); cbn; lia.
Qed.

Lemma omap_all_some {A B} (f : A -> option B) (g : A -> B) (l : list A) :
  (forall x, In x l -> f x = Some (g x)) -> omap f l = map g l.
Proof.
  induction l as [| x l IH]; intros H; [reflexivity |]. cbn.
  rewrite (H x (or_introl eq_refl)). cbn. f_equal. apply IH.
  intros y Hy. apply H. right. exact Hy.
Qed.

Lemma entryAt_live_fn sched (pool : list Match) (d : Match) z :
  0 <= z -> pool <> [] ->
  entryAt sched pool (Fin z)
  = Some (scheduledAs sched z (default d (poolEntry pool z))).
Proof.
  intros Hz Hne. destruct (entryAt_live sched pool z Hz Hne) as (m & Hm & He).
  unfold poolEntry. rewrite Hm. exact He.
Qed.

(** X6.  [getUpcomingMatches] never returns more than [count] entries.
    From a time on or after the reference epoch, with a positive interval
    and a non-empty pool, it returns exactly [count]: entry [k] is the pool
    entry of slot [current + k] (so the list starts with the match that is
    playing now), and consecutive entries start one interval apart. *)
Theorem upcoming_matches_listed (stored : GlobalSchedule) (fromTime : Z) (count : nat)
    (pool : list Match) (schedule : option GlobalSchedule) (d : Match) :
  let sched := match schedule with Some s => s | None => stored end in
  (length (getUpcomingMatches stored fromTime count pool schedule) <= count)%nat /\
  (0 < matchInterval sched -> referenceEpoch sched <= fromTime -> pool <> [] ->
   let current := (fromTime - referenceEpoch sched) / slotMs sched in
   getUpcomingMatches stored fromTime count pool schedule
   = map (fun k => scheduledAs sched (current + Z.of_nat k)
                     (default d (poolEntry pool (current + Z.of_nat k))))
         (seq 0 count)).
Proof.
  intros sched. split.
  - unfold getUpcomingMatches. etransitivity; [apply omap_length_le |].
    rewrite length_seq. reflexivity.
  - intros Hi Ht Hne current. unfold getUpcomingMatches. fold sched.
    rewrite index_is_quotient by exact Hi. fold current.
    apply omap_all_some. intros k _. cbn [numAdd].
    apply entryAt_live_fn; [| exact Hne].
    assert (0 <= current) by (apply Z.div_pos; unfold slotMs; lia). lia.
Qed.

Lemma upcoming_matches_listed_witness :
  0 < matchInterval sampleSchedule /\ referenceEpoch sampleSchedule <= 1700005400005 /\
  samplePool <> [] /\
  map scheduleIndex (getUpcomingMatches sampleSchedule 1700005400005 3 samplePool None)
  = [3; 4; 5].
Proof.
  assert (Hi : 0 < matchInterval sampleSchedule) by reflexivity.
  assert (Ht : referenceEpoch sampleSchedule <= 1700005400005) by (cbn; lia).
  assert (Hne : samplePool <> []) by discriminate.
  split; [exact Hi |]. split; [exact Ht |]. split; [exact Hne |].
  rewrite (proj2 (upcoming_matches_listed sampleSchedule 1700005400005 3 samplePool None
                    (mkMatch "" "" "" 0)) Hi Ht Hne).
  reflexivity.
Defined.

Lemma foldl_unshift {A B} (f : A -> option B) (l : list A) : forall acc,
  foldl (fun past i => match f i with Some e => e :: past | None => past end) acc l
  = rev (omap f l) ++ acc.
Proof.
  induction l as [| x l IH]; intros acc; [reflexivity |].
  cbn [foldl omap]. rewrite IH. cbn. destruct (f x); cbn; [| reflexivity].
  rewrite <- app_assoc. reflexivity.
Qed.

Lemma omap_app' {A B} (f : A -> option B) (l1 l2 : list A) :
  omap f (l1 ++ l2) = omap f l1 ++ omap f l2.
Proof.
  induction l1 as [| x l1 IH]; [reflexivity |]. cbn.
  rewrite IH. destruct (f x); reflexivity.
Qed.

Lemma omap_all_none {A B} (f : A -> option B) (l : list A) :
  (forall x, In x l -> f x = None) -> omap f l = [].
Proof.
  induction l as [| x l IH]; intros H; [reflexivity |]. cbn.
  rewrite (H x (or_introl eq_refl)). cbn. apply IH.
  intros y Hy. apply H. right. exact Hy.
Qed.

(** X7.  [getPastMatches], from a time on or after the reference epoch
    with a positive interval and a non-empty pool, returns the
    [min(count, current)] slots just before the current one, oldest first:
    it never reaches before slot 0 and never includes the current slot. *)
Theorem past_matches_listed (stored : GlobalSchedule) (fromTime : Z) (count : nat)
    (pool : list Match) (schedule : option GlobalSchedule) (d : Match) :
  let sched := match schedule with Some s => s | None => stored end in
  0 < matchInterval sched -> referenceEpoch sched <= fromTime -> pool <> [] ->
  let current := (fromTime - referenceEpoch sched) / slotMs sched in
  let n := Nat.min count (Z.to_nat current) in
  getPastMatches stored fromTime count pool schedule
  = rev (map (fun i => scheduledAs sched (current - Z.of_nat i)
                         (default d (poolEntry pool (current - Z.of_nat i))))
             (seq 1 n)).
Proof.
  intros sched Hi Ht Hne current n. unfold getPastMatches. fold sched.
  rewrite index_is_quotient by exact Hi. fold current.
  rewrite foldl_unshift, app_nil_r. f_equal.
  assert (Hcur : 0 <= current) by (apply Z.div_pos; unfold slotMs; lia).
  replace count with (n + (count - n))%nat at 1 by (subst n; lia).
  rewrite seq_app, omap_app'.
  rewrite (omap_all_none _ (seq (1 + n) (count - n))).
  - rewrite app_nil_r. apply omap_all_some. intros i Hin. apply in_seq in Hin.
    cbn [numAdd]. replace (current + - Z.of_nat i) with (current - Z.of_nat i) by lia.
    apply entryAt_live_fn; [subst n; lia | exact Hne].
  - intros i Hin. apply in_seq in Hin. cbn [numAdd]. unfold entryAt.
    assert (Hneg : isNegative (Fin (current + - Z.of_nat i)) = true).
    { cbn. apply Z.ltb_lt. subst n. lia. }
    rewrite Hneg. reflexivity.
Qed.

Lemma past_matches_listed_witness :
  0 < matchInterval sampleSchedule /\ referenceEpoch sampleSchedule <= 1700005400005 /\
  samplePool <> [] /\
  map scheduleIndex (getPastMatches sampleSchedule 1700005400005 5 samplePool None)
  = [0; 1; 2].
Proof.
  assert (Hi : 0 < matchInterval sampleSchedule) by reflexivity.
  assert (Ht : referenceEpoch sampleSchedule <= 1700005400005) by (cbn; lia).
  assert (Hne : samplePool <> []) by discriminate.
  split; [exact Hi |]. split; [exact Ht |]. split; [exact Hne |].
  rewrite (past_matches_listed sampleSchedule 1700005400005 5 samplePool None
             (mkMatch "" "" "" 0) Hi Ht Hne).
  reflexivity.
Defined.

(** X8.  With a positive interval, the time until the next match is a
    whole number of seconds between 1 and the interval length: it is never
    0, and at the scheduled start of a slot it is the full interval. *)
Theorem next_match_countdown (stored : GlobalSchedule) (now i : Z) :
  0 < matchInterval stored ->
  (exists s, getTimeUntilNextMatch stored now = Fin s /\
             1 <= s <= matchInterval stored * 60) /\
  getTimeUntilNextMatch stored (calculateScheduledTime i stored)
    = Fin (matchInterval stored * 60).
Proof.
  intros Hi.
  assert (Hgen : forall t idx,
            findScheduleIndexForTime t stored = Fin idx ->
            calculateScheduledTime idx stored <= t < calculateScheduledTime (idx + 1) stored ->
            getTimeUntilNextMatch stored t
            = Fin (- (- (calculateScheduledTime (idx + 1) stored - t) / 1000))
            /\ 1 <= - (- (calculateScheduledTime (idx + 1) stored - t) / 1000)
               <= matchInterval stored * 60).
  { intros t idx Hidx Hin. unfold getTimeUntilNextMatch, ceilDiv1000. rewrite Hidx.
    set (diff := calculateScheduledTime (idx + 1) stored - t).
    assert (Hdiff : 1 <= diff <= matchInterval stored * 60 * 1000).
    { subst diff. rewrite !scheduled_time_linear in *. unfold slotMs in *. lia. }
    assert (Hq : 1 <= - (- diff / 1000) <= matchInterval stored * 60).
    { pose proof (Z.div_mod (- diff) 1000 ltac:(lia)) as Hdm.
      pose proof (Z.mod_pos_bound (- diff) 1000 ltac:(lia)) as Hb. lia. }
    split; [| exact Hq]. f_equal. lia. }
  split.
  - destruct (schedule_index_round_trip stored 0 now Hi) as (_ & idx & Hidx & Hin).
    destruct (Hgen now idx Hidx Hin) as (Heq & Hb). eexists. split; [exact Heq | exact Hb].
  - destruct (schedule_index_round_trip stored i 0 Hi) as (Hidx & _).
    assert (Hin : calculateScheduledTime i stored <= calculateScheduledTime i stored
                  < calculateScheduledTime (i + 1) stored).
    { rewrite !scheduled_time_linear. unfold slotMs. lia. }
    destruct (Hgen _ i Hidx Hin) as (Heq & _). rewrite Heq. f_equal.
    rewrite !scheduled_time_linear. unfold slotMs.
    replace (- (referenceEpoch stored + (i + 1) * (matchInterval stored * 60000)
                - (referenceEpoch stored + i * (matchInterval stored * 60000))))
      with ((- (matchInterval stored * 60)) * 1000) by lia.
    rewrite Z.div_mul by lia. lia.
Qed.

Lemma next_match_countdown_witness :
  0 < matchInterval sampleSchedule /\
  getTimeUntilNextMatch sampleSchedule (calculateScheduledTime 2 sampleSchedule) = Fin 1800.
Proof.
  assert (Hi : 0 < matchInterval sampleSchedule) by reflexivity.
  split; [exact Hi |].
  exact (proj2 (next_match_countdown sampleSchedule 0 2 Hi)).
Defined.

End ScheduleNeighbours.

Section PoolPadding.
Import Schedule.

Lemma repeats_step {A} (shuffled dup : list A) :
  repeats shuffled dup -> repeats shuffled (dup ++ shuffled).
Proof.
  intros (k & ->). exists (S k).
  induction k as [| k IH]; cbn.
  - rewrite app_nil_r. reflexivity.
  - rewrite <- app_assoc. f_equal. exact IH.
Qed.

Lemma repeats_lookup {A} (shuffled dup : list A) i :
  repeats shuffled dup -> (i < length dup)%nat ->
  dup !! i = shuffled !! (i mod length shuffled)%nat.
Proof.
  intros (k & ->). revert i. induction k as [| k IH]; intros i Hi; cbn in *; [lia |].
  rewrite length_app in Hi.
  destruct (Nat.lt_ge_cases i (length shuffled)) as [Hlt | Hge].
  - rewrite lookup_app_l by exact Hlt. rewrite Nat.mod_small by exact Hlt. reflexivity.
  - rewrite lookup_app_r by exact Hge. rewrite IH by lia.
    replace i with ((i - length shuffled) + 1 * length shuffled)%nat at 2 by lia.
    rewrite Nat.Div0.mod_add. reflexivity.
Qed.

Lemma padLoop_finishes {A} (shuffled : list A) fuel : forall dup,
  shuffled <> [] -> repeats shuffled dup -> (54 <= length dup + fuel)%nat ->
  exists l, padLoop fuel shuffled dup = Some l /\ repeats shuffled l /\ (54 <= length l)%nat.
Proof.
  induction fuel as [| fuel IH]; intros dup Hne Hrep Hfuel.
  - exists dup. cbn [padLoop]. destruct (Nat.ltb_spec (length dup) 54); [lia |].
    repeat split; [exact Hrep | lia].
  - cbn [padLoop]. destruct (Nat.ltb_spec (length dup) 54) as [Hlt | Hge].
    + apply IH; [exact Hne | apply repeats_step; exact Hrep |].
      rewrite length_app. destruct shuffled; [contradiction | cbn; lia].
    + exists dup. repeat split; [exact Hrep | exact Hge].
Qed.

Lemma padLoop_empty {A} fuel : padLoop fuel (@nil A) [] = None.
Proof. induction fuel as [| fuel IH]; [reflexivity | cbn [padLoop]; exact IH]. Qed.

(** X9.  The padding at the end of [getAllAvailableMatches].  A pool of
    54 or more matches is returned as it is.  A non-empty smaller pool is
    padded to exactly 54 entries by repeating it in order (entry [i] is
    entry [i mod n] of the shuffled pool); 54 loop iterations are always
    enough.  On an empty pool the padding loop never ends, however many
    iterations it is given. *)
Theorem pool_padding (shuffled : list Match) :
  ((54 <= length shuffled)%nat -> forall fuel, padPool fuel shuffled = Some shuffled) /\
  (shuffled <> [] -> (length shuffled < 54)%nat ->
   exists pool, padPool 54 shuffled = Some pool /\ length pool = 54%nat /\
     forall i, (i < 54)%nat -> pool !! i = shuffled !! (i mod length shuffled)%nat) /\
  (forall fuel, padPool fuel (@nil Match) = None).
Proof.
  split; [| split].
  - intros Hlen fuel. unfold padPool.
    destruct (Nat.ltb_spec (length shuffled) 54); [lia | reflexivity].
  - intros Hne Hlt. unfold padPool.
    destruct (Nat.ltb_spec (length shuffled) 54); [| lia].
    assert (Hrep : repeats shuffled shuffled).
    { exists 1%nat. cbn. rewrite app_nil_r. reflexivity. }
    destruct (padLoop_finishes shuffled 54 shuffled Hne Hrep ltac:(lia))
      as (l & Hl & Hrl & Hlen).
    rewrite Hl. exists (take 54 l). split; [reflexivity |].
    split; [rewrite length_take; lia |].
    intros i Hi. rewrite lookup_take_lt by exact Hi.
    apply repeats_lookup; [exact Hrl | lia].
  - intros fuel. unfold padPool. rewrite padLoop_empty. reflexivity.
Qed.

Lemma pool_padding_witness :
  samplePool <> [] /\ (length samplePool < 54)%nat /\
  exists pool, padPool 54 samplePool = Some pool /\ length pool = 54%nat.
Proof.
  assert (Hne : samplePool <> []) by discriminate.
  assert (Hlt : (length samplePool < 54)%nat) by (cbn; lia).
  split; [exact Hne |]. split; [exact Hlt |].
  destruct (proj1 (proj2 (pool_padding samplePool)) Hne Hlt) as (pool & Hp & Hl & _).
  exists pool. split; [exact Hp | exact Hl].
Defined.

End PoolPadding.

Section LivePool.
Import Schedule.

Lemma padLoop_length {A} (shuffled : list A) fuel : forall dup l,
  padLoop fuel shuffled dup = Some l -> (54 <= length l)%nat.
Proof.
  induction fuel as [| fuel IH]; intros dup l; cbn [padLoop];
    destruct (Nat.ltb_spec (length dup) 54) as [Hlt | Hge]; intros H.
  - discriminate H.
  - injection H as <-. exact Hge.
  - apply (IH _ _ H).
  - injection H as <-. exact Hge.
Qed.

Lemma padPool_length {A} (shuffled : list A) fuel pool :
  padPool fuel shuffled = Some pool -> (54 <= length pool)%nat.
Proof.
  unfold padPool. destruct (Nat.ltb_spec (length shuffled) 54) as [Hlt | Hge].
  - destruct (padLoop fuel shuffled shuffled) as [l |] eqn:E; [| discriminate].
    intros H. injection H as <-. apply padLoop_length in E. rewrite length_take. lia.
  - intros H. injection H as <-. exact Hge.
Qed.

Lemma padPool_returns {A} (shuffled : list A) :
  shuffled <> [] -> exists pool, padPool 54 shuffled = Some pool.
Proof.
  intros Hne. unfold padPool. destruct (Nat.ltb_spec (length shuffled) 54); [| eexists; reflexivity].
  assert (Hrep : repeats shuffled shuffled).
  { exists 1%nat. cbn. rewrite app_nil_r. reflexivity. }
  destruct (padLoop_finishes shuffled 54 shuffled Hne Hrep ltac:(lia)) as (l & -> & _).
  eexists. reflexivity.
Qed.

(** X4.  Edge inputs of the lookups.  With an empty pool the service's
    [getMatchAtTime] returns null for every time, and with a zero interval
    it returns null for every pool (its [!match] test).  [getCurrentMatch]
    never sees an empty pool: with no pairing at all the pool is never
    built and nothing is returned, and every pool that is built has at
    least 54 entries, so that its empty-pool test is dead.  It does return
    whenever there is a pairing; but it has no [!match] test, and with a
    zero interval it throws for every time at or after the reference
    epoch. *)
Theorem lookups_on_edge_inputs (stored : GlobalSchedule) (t : Z) (pool shuffled : list Match)
    (schedule : option GlobalSchedule) (fuel : nat) :
  getMatchAtTime stored t [] schedule = None /\
  (let sched := match schedule with Some s => s | None => stored end in
   matchInterval sched = 0 -> getMatchAtTime stored t pool schedule = None) /\
  getCurrentMatchLive stored t fuel [] = None /\
  (shuffled <> [] -> exists out, getCurrentMatchLive stored t 54 shuffled = Some out) /\
  (forall out, getCurrentMatchLive stored t fuel shuffled = Some out ->
     exists live,
       padPool fuel shuffled = Some live /\ (54 <= length live)%nat /\
       out = getCurrentMatch stored t live /\
       (matchInterval stored = 0 -> referenceEpoch stored <= t -> out = Thrown)).
Proof.
  split; [| split; [| split; [| split]]].
  - rewrite getMatchAtTime_entryAt. unfold entryAt.
    destruct (isNegative _); [reflexivity |].
    destruct (findScheduleIndexForTime _ _); reflexivity.
  - intros sched H0. rewrite getMatchAtTime_entryAt. fold sched.
    unfold findScheduleIndexForTime. rewrite H0. cbn [Z.mul Z.eqb].
    destruct (t - referenceEpoch sched <? 0); [reflexivity |].
    destruct (t - referenceEpoch sched =? 0); reflexivity.
  - unfold getCurrentMatchLive, padPool. cbn [length Nat.ltb Nat.leb].
    rewrite padLoop_empty. reflexivity.
  - intros Hne. unfold getCurrentMatchLive.
    destruct (padPool_returns shuffled Hne) as (live & ->). eexists. reflexivity.
  - intros out. unfold getCurrentMatchLive.
    destruct (padPool fuel shuffled) as [live |] eqn:E; [| discriminate].
    intros H. injection H as <-. exists live.
    pose proof (padPool_length shuffled fuel live E) as Hlen.
    split; [reflexivity |]. split; [exact Hlen |]. split; [reflexivity |].
    intros H0 Ht. unfold getCurrentMatch, getCurrentMatchTraced.
    destruct live as [| m rest]; [cbn in Hlen; lia |]. cbn [length Nat.eqb].
    unfold findScheduleIndexForTime. rewrite H0. cbn [Z.mul Z.eqb].
    assert (Hn : (t - referenceEpoch stored <? 0) = false) by (apply Z.ltb_ge; lia).
    rewrite Hn. destruct (t - referenceEpoch stored =? 0); reflexivity.
Qed.

Lemma lookups_on_edge_inputs_witness :
  samplePool <> [] /\
  matchInterval (mkSchedule 100 0) = 0 /\ referenceEpoch (mkSchedule 100 0) <= 101 /\
  getMatchAtTime (mkSchedule 100 0) 101 samplePool None = None /\
  getCurrentMatchLive (mkSchedule 100 0) 101 54 samplePool = Some Thrown.
Proof.
  assert (Hne : samplePool <> []) by discriminate.
  assert (H0 : matchInterval (mkSchedule 100 0) = 0) by reflexivity.
  assert (Ht : referenceEpoch (mkSchedule 100 0) <= 101) by (cbn; lia).
  split; [exact Hne |]. split; [exact H0 |]. split; [exact Ht |].
  destruct (lookups_on_edge_inputs (mkSchedule 100 0) 101 samplePool samplePool None 54)
    as (_ & Hat & _ & Hret & Hcur).
  split; [exact (Hat H0) |].
  destruct (Hret Hne) as (out & Hout).
  destruct (Hcur out Hout) as (live & _ & _ & _ & Hthrown).
  rewrite Hout. f_equal. exact (Hthrown H0 Ht).
Defined.

End LivePool.

(** ** Phase clock: order of phases, timer ranges, stalls, seasons *)
Section ClockExtras.
Import Clock.

Lemma tick_phase f :
  matchState (tick f) = matchState f \/ matchState (tick f) = nextPhase (matchState f).
Proof.
  destruct f as [ms cd mt bt armed]. unfold tick. cbn [timerArmed matchState countdown
    matchTimer bettingTimer].
  destruct armed; [| left; reflexivity].
  destruct ms; cbn [nextPhase];
    [destruct (cd <=? 1) | destruct (mt >=? 90) | destruct (bt <=? 1) | destruct (cd <=? 1)];
    cbn [matchState]; tauto.
Qed.

Lemma tick_range f : timersInRange f -> timersInRange (tick f).
Proof.
  destruct f as [ms cd mt bt armed]. unfold timersInRange, tick. cbn [timerArmed matchState
    countdown matchTimer bettingTimer].
  intros (Hc & Hb & Hm & H3).
  destruct armed; [| tauto].
  destruct ms.
  - destruct (Z.leb_spec cd 1); cbn; repeat split; try lia; try assumption.
  - unfold minuteStep.
    destruct (Z.geb_spec mt 90); cbn [countdown bettingTimer matchTimer];
      repeat split; try lia; try assumption.
    + pose proof (Z.div_mod mt 3 ltac:(lia)). lia.
    + rewrite <- Z.add_mod_idemp_l by lia. rewrite H3. reflexivity.
  - destruct (Z.leb_spec bt 1); cbn; repeat split; try lia; try assumption.
  - destruct (Z.leb_spec cd 1); cbn; repeat split; try lia; try assumption.
Qed.

Lemma flowEffect_range f : timersInRange f -> timersInRange (flowEffect f).
Proof.
  destruct f as [ms cd mt bt armed]. unfold timersInRange, flowEffect.
  cbn [matchState countdown matchTimer bettingTimer].
  intros (Hc & Hb & Hm & H3). destruct ms; cbn; repeat split; try lia; try assumption.
Qed.

Lemma flowNext_range f : timersInRange f -> timersInRange (flowNext f).
Proof.
  intros H. unfold flowNext.
  destruct (Phase_eqb (matchState (tick f)) (matchState f));
    [apply tick_range | apply flowEffect_range, tick_range]; exact H.
Qed.

(** X10.  The match-flow timers never skip a phase and never leave their
    ranges.  One second later the phase is the same or the next one in the
    order pre-countdown, playing, betting, next-countdown, pre-countdown.
    If the countdown is within 1..10, the betting timer within 1..30 and
    the match minute a multiple of 3 within 0..90, they stay so after any
    number of seconds: the displayed match minute never exceeds 90. *)
Theorem phases_in_order_timers_in_range (f : Flow) (n : nat) :
  timersInRange f ->
  (matchState (flowNext f) = matchState f
   \/ matchState (flowNext f) = nextPhase (matchState f)) /\
  timersInRange (flowAfter n f).
Proof.
  intros H. split.
  - rewrite flowNext_phase. apply tick_phase.
  - revert f H. induction n as [| n IH]; intros f H; [exact H |].
    cbn [flowAfter]. apply IH. apply flowNext_range. exact H.
Qed.

Lemma phases_in_order_timers_in_range_witness :
  timersInRange (mkFlow PreCountdown 10 0 30 true) /\
  timersInRange (flowAfter 50 (mkFlow PreCountdown 10 0 30 true)).
Proof.
  assert (H : timersInRange (mkFlow PreCountdown 10 0 30 true)).
  { unfold timersInRange. cbn. repeat split; lia. }
  split; [exact H |].
  exact (proj2 (phases_in_order_timers_in_range _ 50 H)).
Defined.

(** X11.  The clock can stall.  The match-flow effect starts the countdown
    interval only when [countdown] is exactly 10: if a countdown phase is
    entered with any other value (for instance a value synchronised from
    the shared state), no interval is installed and the phase and all
    timers stay as they are for ever. *)
Theorem countdown_stalls_unless_ten (f : Flow) (n : nat) :
  matchState f = PreCountdown \/ matchState f = NextCountdown ->
  countdown f <> 10 ->
  timerArmed (flowEffect f) = false /\
  flowAfter n (flowEffect f) = flowEffect f.
Proof.
  intros Hms Hcd.
  assert (Harm : timerArmed (flowEffect f) = false).
  { destruct f as [ms cd mt bt armed]. cbn in *.
    destruct Hms as [-> | ->]; cbn; apply Z.eqb_neq; exact Hcd. }
  split; [exact Harm |].
  assert (Hfix : flowNext (flowEffect f) = flowEffect f).
  { unfold flowNext, tick. rewrite Harm.
    destruct (flowEffect f) as [ms cd mt bt armed]. cbn.
    destruct ms; reflexivity. }
  induction n as [| n IH]; [reflexivity |].
  cbn [flowAfter]. rewrite Hfix. exact IH.
Qed.

Lemma countdown_stalls_unless_ten_witness :
  matchState (mkFlow PreCountdown 7 0 30 false) = PreCountdown /\
  flowAfter 100 (flowEffect (mkFlow PreCountdown 7 0 30 false))
  = flowEffect (mkFlow PreCountdown 7 0 30 false).
Proof.
  assert (Hms : matchState (mkFlow PreCountdown 7 0 30 false) = PreCountdown
                \/ matchState (mkFlow PreCountdown 7 0 30 false) = NextCountdown)
    by (left; reflexivity).
  assert (Hcd : countdown (mkFlow PreCountdown 7 0 30 false) <> 10) by (cbn; lia).
  split; [reflexivity |].
  exact (proj2 (countdown_stalls_unless_ten _ 100 Hms Hcd)).
Defined.

Lemma reshuffle_answer week b :
  fst (checkAndAutoReshuffle week b) = (week >=? 36) && (getLastReshuffleWeek b <? 36) /\
  getLastReshuffleWeek (snd (checkAndAutoReshuffle week b))
  = (if fst (checkAndAutoReshuffle week b) then 36 else getLastReshuffleWeek b).
Proof.
  unfold checkAndAutoReshuffle.
  destruct ((week >=? 36) && (getLastReshuffleWeek b <? 36)); split; reflexivity.
Qed.

Lemma reshuffleAnswers_after_marker weeksPassed : forall b,
  36 <= getLastReshuffleWeek b ->
  fst (reshuffleAnswers weeksPassed b) = map (fun _ => false) weeksPassed.
Proof.
  induction weeksPassed as [| w rest IH]; intros b Hb; [reflexivity |].
  cbn [reshuffleAnswers map].
  destruct (reshuffle_answer w b) as (Ha & Hl).
  destruct (checkAndAutoReshuffle w b) as [answer b1]. cbn [fst snd] in Ha, Hl.
  assert (Hfalse : (w >=? 36) && (getLastReshuffleWeek b <? 36) = false).
  { apply andb_false_iff. right. apply Z.ltb_ge. exact Hb. }
  rewrite Hfalse in Ha. subst answer. specialize (IH b1 ltac:(lia)).
  destruct (reshuffleAnswers rest b1) as [answers b2]. cbn [fst] in *.
  rewrite IH. reflexivity.
Qed.

(** X12.  The automatic reshuffle happens at most once per browser
    storage.  [checkAndAutoReshuffle] answers true exactly when the week
    passed is at least 36 and the stored marker is below 36; answering
    true sets the marker to 36 and nothing lowers it, so in any sequence
    of calls at most one answers true. *)
Theorem auto_reshuffle_at_most_once (weeksPassed : list Z) (b : Browser) :
  (forall week,
     fst (checkAndAutoReshuffle week b)
     = (week >=? 36) && (getLastReshuffleWeek b <? 36)) /\
  (length (List.filter (fun a : bool => a) (fst (reshuffleAnswers weeksPassed b))) <= 1)%nat.
Proof.
  split; [intros week; apply reshuffle_answer |].
  revert b. induction weeksPassed as [| w rest IH]; intros b; [cbn; lia |].
  cbn [reshuffleAnswers].
  destruct (reshuffle_answer w b) as (Ha & Hl).
  destruct (checkAndAutoReshuffle w b) as [answer b1]. cbn [fst snd] in Ha, Hl.
  destruct answer.
  - pose proof (reshuffleAnswers_after_marker rest b1 ltac:(lia)) as Hrest.
    destruct (reshuffleAnswers rest b1) as [answers b2]. cbn [fst] in *.
    rewrite Hrest. cbn. clear. induction rest as [| x rest IH]; cbn; lia.
  - specialize (IH b1).
    destruct (reshuffleAnswers rest b1) as [answers b2]. cbn [fst] in *. exact IH.
Qed.

End ClockExtras.

Section ClockSeasons.
Import Clock.






End ClockSeasons.

(** ** Odds engine: the board gives the result away *)
Section OddsExtras.
Import Odds.
Import Simulator.



End OddsExtras.

(** ** Settlement: what a run touches, what it keeps, running it twice *)
Section SettlementExtras.
Import Settlement.
Import Simulator.

(** X15.  A settlement run changes only the rows of its own matches and
    never takes anything back, in whatever order its requests are answered
    and whichever of them fail.  Rows of [match_results] and [matches]
    whose id is not among the timeframe's matches are left as they are; no
    [match_results] row is ever removed; a row that is final stays final;
    and the run creates no row in [matches] (it only updates existing
    ones). *)
Theorem settlement_keeps_other_rows (net : Network) (snap : Snapshot) (w : World)
    (id : string) :
  let b := backend w in
  let b' := backend (fst (handleMatchResults net snap w)) in
  (~ In id (map matchId (snapMatches snap)) ->
   matchResults b' !! id = matchResults b !! id /\
   matchesTbl b' !! id = matchesTbl b !! id) /\
  (forall r, matchResults b !! id = Some r ->
     exists r', matchResults b' !! id = Some r' /\
                (is_final r = true -> is_final r' = true)) /\
  (is_Some (matchesTbl b' !! id) <-> is_Some (matchesTbl b !! id)).
Proof.
  cbv zeta. rewrite handleMatchResults_backend. unfold settleAll.
  apply settleUntil_frame.
Qed.

Lemma settlement_keeps_other_rows_witness :
  ~ In "ke-2000-0" (map matchId (snapMatches sampleSnapshot)) /\
  matchResults (backend (fst (handleMatchResults inTurns sampleSnapshot sampleWorld)))
    !! "ke-2000-0"
  = matchResults (backend sampleWorld) !! "ke-2000-0".
Proof.
  assert (H : ~ In "ke-2000-0" (map matchId (snapMatches sampleSnapshot))).
  { cbn. intros [H | [H | []]]; discriminate H. }
  split; [exact H |].
  exact (proj1 (proj1 (settlement_keeps_other_rows inTurns sampleSnapshot
                         sampleWorld "ke-2000-0") H)).
Defined.

(** X16.  The local match history gets one record for every match of the
    timeframe that has a cached simulation, in match order, whether or not
    the match exists in the database and whatever the order of the
    answers; matches without a cached simulation leave no record.  Unlike
    the result rows, these records are appended on every run: the history
    is not de-duplicated. *)
Theorem history_records_simulated_matches (net net' : Network) (snap : Snapshot) (w : World) :
  let w1 := fst (handleMatchResults net snap w) in
  let w2 := fst (handleMatchResults net' snap w1) in
  map hId (history (backend w1))
    = map hId (history (backend w)) ++ map matchId (simulatedIn snap (snapMatches snap)) /\
  map hId (history (backend w2))
    = map hId (history (backend w)) ++ map matchId (simulatedIn snap (snapMatches snap))
        ++ map matchId (simulatedIn snap (snapMatches snap)).
Proof.
  cbv zeta. rewrite !handleMatchResults_backend. unfold settleAll.
  rewrite !settleUntil_history. rewrite <- app_assoc. split; reflexivity.
Qed.

Lemma advanceTime_stores dt w :
  matchResults (backend (advanceTime dt w)) = matchResults (backend w) /\
  matchesTbl (backend (advanceTime dt w)) = matchesTbl (backend w).
Proof.
  unfold advanceTime. cbn [backend]. generalize (backend w).
  induction (List.filter _ _) as [| t ts IH]; intros b0; [split; reflexivity |].
  cbn [foldl]. destruct (IH (logCall (ForceResolveStale (sweepMatch t)) b0)) as (-> & ->).
  split; reflexivity.
Qed.

(** X17.  Settling again cannot undo a settlement.  When every request of
    a run is served, the run leaves the final row of every simulated match
    that is in [matches]; and once those rows are stored, a further run of
    the same timeframe, at any later time, in any order of answers and
    whichever of its requests fail, leaves [match_results] exactly as it
    was. *)
Theorem resettling_keeps_results (net net' : Network) (snap : Snapshot) (w : World) (dt : Z) :
  (forall k, reply net k = Served) ->
  let w1 := fst (handleMatchResults net snap w) in
  let w2 := fst (handleMatchResults net' snap (advanceTime dt w1)) in
  alreadySettled snap (snapMatches snap) (backend w1) /\
  matchResults (backend w2) = matchResults (backend w1) /\
  (forall x, alreadySettled snap (snapMatches snap) (backend x) ->
     matchResults (backend (fst (handleMatchResults net' snap x))) = matchResults (backend x)).
Proof.
  intros Hnet w1 w2.
  assert (Hfirst : alreadySettled snap (snapMatches snap) (backend w1)).
  { subst w1. rewrite handleMatchResults_backend. apply settleAll_settles. exact Hnet. }
  assert (Hagain : forall x, alreadySettled snap (snapMatches snap) (backend x) ->
            matchResults (backend (fst (handleMatchResults net' snap x)))
            = matchResults (backend x)).
  { intros x Hx. rewrite handleMatchResults_backend. unfold settleAll.
    apply settleUntil_settled. exact Hx. }
  split; [exact Hfirst |]. split; [| exact Hagain].
  subst w2. destruct (advanceTime_stores dt w1) as (Hr & Ht).
  rewrite Hagain; [exact Hr |].
  intros m sim Hin Hsim Htbl. rewrite Hr. rewrite Ht in Htbl.
  exact (Hfirst m sim Hin Hsim Htbl).
Qed.

(** On the sample timeframe: settled with every request served and the
    answers in turns, then settled again 200 seconds later with the insert
    refused, the result rows are those of the first run. *)
Lemma resettling_keeps_results_witness :
  (forall k, reply inTurns k = Served) /\
  let w1 := fst (handleMatchResults inTurns sampleSnapshot sampleWorld) in
  matchResults (backend (fst (handleMatchResults insertRefused sampleSnapshot
                                (advanceTime 200000 w1))))
  = matchResults (backend w1).
Proof.
  assert (H : forall k, reply inTurns k = Served) by (intros k; reflexivity).
  split; [exact H |].
  exact (proj1 (proj2 (resettling_keeps_results inTurns insertRefused sampleSnapshot
                         sampleWorld 200000 H))).
Defined.

End SettlementExtras.

(** ** Fixtures: weekly pairings, all pairings, time slots *)
Section FixtureExtras.
Import Fixtures.

Lemma mod_shift_injective (n w j1 j2 : nat) :
  (j1 < n)%nat -> (j2 < n)%nat ->
  ((w + j1) mod n = (w + j2) mod n)%nat -> j1 = j2.
Proof.
  intros H1 H2 Heq.
  assert (Hn : n <> 0%nat) by lia.
  pose proof (Nat.div_mod (w + j1) n Hn) as D1.
  pose proof (Nat.div_mod (w + j2) n Hn) as D2.
  rewrite Heq in D1.
  pose proof (Nat.mod_upper_bound (w + j2) n Hn) as Hb.
  assert (Hq : ((w + j1) / n = (w + j2) / n)%nat) by nia.
  rewrite Hq in D1. lia.
Qed.

(** The offsets added to the week number in one week of an even league:
    the first half for the home sides, the second half, backwards, for the
    away sides. *)
Definition weekOffsets (n : nat) : list nat :=
  seq 0 (n / 2) ++ map (fun i => (n - 1 - i)%nat) (seq 0 (n / 2)).

Lemma weekOffsets_NoDup n : Nat.even n = true -> NoDup (weekOffsets n).
Proof.
  intros He. apply Nat.even_spec in He as (k & ->).
  unfold weekOffsets. replace (2 * k / 2)%nat with k by (rewrite Nat.mul_comm, Nat.div_mul; lia).
  apply NoDup_app. split; [apply NoDup_seq |]. split.
  - intros x Hx Hy. apply elem_of_seq in Hx.
    apply list_elem_of_fmap in Hy as (i & -> & Hi). apply elem_of_seq in Hi. lia.
  - apply NoDup_fmap_2_strong; [| apply NoDup_seq].
    intros x y Hx Hy Heq. apply elem_of_seq in Hx. apply elem_of_seq in Hy. lia.
Qed.

Lemma weekPairings_sides n week :
  Nat.even n = true ->
  map fst (weekPairings n week) ++ map snd (weekPairings n week)
  = map (fun j => ((week + j) mod n)%nat) (weekOffsets n).
Proof.
  intros He. apply Nat.even_spec in He as (k & ->).
  unfold weekPairings, weekOffsets.
  replace ((2 * k + 1) / 2)%nat with k
    by (apply (Nat.div_unique _ 2 k 1); lia).
  replace (2 * k / 2)%nat with k by (rewrite Nat.mul_comm, Nat.div_mul; lia).
  rewrite map_app, !map_map. cbn [fst snd]. f_equal.
  apply map_ext_in. intros i Hi. apply in_seq in Hi. f_equal. lia.
Qed.

(** X18.  [generateLeagueFixtures] returns the weeks 1 to 36, each with
    [ceil(n/2)] matches between teams of the league (no array access out
    of range).  For an even number of teams every team plays exactly once
    in every week; for an odd number the last match of every week pairs
    the middle team of the rotation with itself. *)
Theorem league_fixtures_shape {A} (teams : list A) :
  let n := length teams in
  map fst (generateLeagueFixtures teams) = seq 1 36 /\
  Forall (fun wk => length (snd wk) = ((n + 1) / 2)%nat /\
                    Forall (fun p => is_Some (fst p) /\ is_Some (snd p)) (snd wk))
         (generateLeagueFixtures teams) /\
  (Nat.even n = true ->
   forall week,
     NoDup (map fst (weekPairings n week) ++ map snd (weekPairings n week)) /\
     length (map fst (weekPairings n week) ++ map snd (weekPairings n week)) = n) /\
  (Nat.odd n = true ->
   forall week,
     weekPairings n week !! (n / 2)%nat
     = Some (((week + n / 2) mod n)%nat, ((week + n / 2) mod n)%nat) /\
     length (weekPairings n week) = S (n / 2)).
Proof.
  intros n. unfold generateLeagueFixtures. change (length teams) with n.
  assert (Hlen : n = length teams) by reflexivity. clearbody n.
  split; [| split; [| split]].
  - rewrite map_map. cbn [fst]. apply map_id.
  - apply Forall_map. apply List.Forall_forall.
    intros week _. cbn [snd]. split.
    + rewrite length_map. unfold weekPairings. rewrite length_map, length_seq. reflexivity.
    + apply Forall_map. unfold weekPairings. apply Forall_map.
      apply List.Forall_forall. intros i Hi. apply in_seq in Hi. cbn [fst snd].
      assert (Hn : n <> 0%nat).
      { intros H0. rewrite H0 in Hi. cbn in Hi. lia. }
      split; apply lookup_lt_is_Some_2; rewrite <- Hlen; apply Nat.mod_upper_bound; exact Hn.
  - intros He week. rewrite (weekPairings_sides n week He). split.
    + apply NoDup_fmap_2_strong; [| apply weekOffsets_NoDup; exact He].
      assert (Hlt : forall j, j ∈ weekOffsets n -> (j < n)%nat).
      { intros j Hj. unfold weekOffsets in Hj. apply Nat.even_spec in He as (k & Hk).
        rewrite Hk in *. replace (2 * k / 2)%nat with k in Hj
          by (rewrite Nat.mul_comm, Nat.div_mul; lia).
        apply elem_of_app in Hj as [Hj | Hj].
        - apply elem_of_seq in Hj. lia.
        - apply list_elem_of_fmap in Hj as (i & -> & Hi). apply elem_of_seq in Hi. lia. }
      intros x y Hx Hy. apply mod_shift_injective; apply Hlt; assumption.
    + rewrite length_map. unfold weekOffsets. rewrite length_app, length_map, !length_seq.
      apply Nat.even_spec in He as (k & Hk). rewrite Hk.
      replace (2 * k / 2)%nat with k by (rewrite Nat.mul_comm, Nat.div_mul; lia). lia.
  - intros Ho week. apply Nat.odd_spec in Ho as (k & Hk).
    assert (Hhalf : (n / 2 = k)%nat)
      by (symmetry; apply (Nat.div_unique _ 2 k 1); lia).
    assert (Hceil : ((n + 1) / 2 = S k)%nat)
      by (symmetry; apply (Nat.div_unique _ 2 (S k) 0); lia).
    unfold weekPairings. rewrite Hceil, Hhalf. split.
    + rewrite list_lookup_fmap. rewrite lookup_seq_lt by lia. cbn.
      do 3 f_equal. lia.
    + rewrite length_map, length_seq. reflexivity.
Qed.

Lemma league_fixtures_shape_witness :
  Nat.even (length [1; 2; 3; 4]%nat) = true /\
  NoDup (map fst (weekPairings 4 7) ++ map snd (weekPairings 4 7)).
Proof.
  assert (He : Nat.even (length [1; 2; 3; 4]%nat) = true) by reflexivity.
  split; [exact He |].
  exact (proj1 (proj1 (proj2 (proj2 (league_fixtures_shape [1; 2; 3; 4]%nat))) He 7%nat)).
Defined.

Lemma allPairs_length {A} (teams : list A) :
  (2 * length (allPairs teams) = length teams * (length teams - 1))%nat.
Proof.
  induction teams as [| x rest IH]; [reflexivity |].
  cbn [allPairs length]. rewrite length_app, length_map. nia.
Qed.

Lemma allPairs_members {A} (teams : list A) (a b : A) :
  In (a, b) (allPairs teams) -> In a teams /\ In b teams.
Proof.
  induction teams as [| x rest IH]; [intros [] |].
  cbn [allPairs]. intros H. apply in_app_or in H as [H | H].
  - apply in_map_iff in H as (y & Heq & Hy). injection Heq as <- <-.
    split; [left; reflexivity | right; exact Hy].
  - destruct (IH H). split; right; assumption.
Qed.

(** X19.  The all-pairings loops produce [n(n-1)/2] matches.  When the
    teams are distinct, no match pairs a team with itself, no pairing
    appears twice (in either orientation), and every two distinct teams
    of the league meet in exactly one of the two orientations. *)
Theorem all_pairs_once {A} (teams : list A) :
  (2 * length (allPairs teams) = length teams * (length teams - 1))%nat /\
  (NoDup teams ->
   NoDup (allPairs teams) /\
   (forall a b, In (a, b) (allPairs teams) -> a <> b /\ ~ In (b, a) (allPairs teams)) /\
   (forall a b, In a teams -> In b teams -> a <> b ->
      In (a, b) (allPairs teams) \/ In (b, a) (allPairs teams))).
Proof.
  split; [apply allPairs_length |].
  induction teams as [| x rest IH]; intros Hnd.
  - cbn. split; [constructor |]. split; [intros a b [] | intros a b []].
  - apply NoDup_cons in Hnd as (Hx & Hrest).
    rewrite list_elem_of_In in Hx.
    destruct (IH Hrest) as (Hnd' & Hirr & Hall).
    cbn [allPairs]. split; [| split].
    + apply NoDup_app. split; [| split; [| exact Hnd']].
      * apply NoDup_fmap_2; [intros y z Heq; congruence | exact Hrest].
      * intros p Hp Hq. apply list_elem_of_fmap in Hp as (y & -> & Hy).
        rewrite list_elem_of_In in Hq. apply allPairs_members in Hq as (Hq & _).
        contradiction.
    + intros a b H. apply in_app_or in H as [H | H].
      * apply in_map_iff in H as (y & Heq & Hy). injection Heq as <- <-.
        split; [intros ->; contradiction |].
        intros H'. apply in_app_or in H' as [H' | H'].
        -- apply in_map_iff in H' as (z & Heq & Hz). injection Heq as <- _. contradiction.
        -- apply allPairs_members in H' as (_ & H'). contradiction.
      * destruct (Hirr a b H) as (Hne & Hno). split; [exact Hne |].
        intros H'. apply in_app_or in H' as [H' | H']; [| contradiction].
        apply in_map_iff in H' as (z & Heq & Hz). injection Heq as <- <-.
        apply allPairs_members in H as (_ & H). contradiction.
    + intros a b Ha Hb Hne. destruct Ha as [<- | Ha]; destruct Hb as [<- | Hb].
      * contradiction.
      * left. apply in_or_app. left. apply in_map. exact Hb.
      * right. apply in_or_app. left. apply in_map. exact Ha.
      * destruct (Hall a b Ha Hb Hne) as [H | H]; [left | right];
          apply in_or_app; right; exact H.
Qed.

Lemma all_pairs_once_witness :
  NoDup ["GOR"; "AFC"; "TUS"]%string /\
  NoDup (allPairs ["GOR"; "AFC"; "TUS"]%string).
Proof.
  assert (H : NoDup ["GOR"; "AFC"; "TUS"]%string).
  { repeat constructor; rewrite ?list_elem_of_In; cbn; intuition discriminate. }
  split; [exact H |].
  exact (proj1 (proj2 (all_pairs_once ["GOR"; "AFC"; "TUS"]%string) H)).
Defined.

End FixtureExtras.

Section TimeSlotExtras.
Import Fixtures.

(** Slot number [k] of [getTimeSlots now count]. *)
Definition slotTime (now : Z) (k : nat) : Z := now + (Z.of_nat k - 2) * 2 * 60000.

Lemma findSlotFrom_hit now t i m : forall a,
  (a <= i < a + m)%nat ->
  Z.abs (slotTime now i - t) < 60000 ->
  findSlotFrom (Z.of_nat a) t (map (slotTime now) (seq a m)) = Z.of_nat i.
Proof.
  induction m as [| m IH]; intros a Hi Ht; [lia |].
  cbn [seq map findSlotFrom].
  destruct (Z.ltb_spec (Z.abs (slotTime now a - t)) 60000) as [Hhit | Hmiss].
  - destruct (Nat.eq_dec a i) as [-> | Hne]; [reflexivity |].
    unfold slotTime in *. lia.
  - destruct (Nat.eq_dec a i) as [-> | Hne]; [lia |].
    replace (Z.of_nat a + 1) with (Z.of_nat (S a)) by lia.
    apply IH; [lia | exact Ht].
Qed.

Lemma findSlotFrom_miss now t m : forall a,
  (forall k, (a <= k < a + m)%nat -> 60000 <= Z.abs (slotTime now k - t)) ->
  findSlotFrom (Z.of_nat a) t (map (slotTime now) (seq a m)) = -1.
Proof.
  induction m as [| m IH]; intros a H; [reflexivity |].
  cbn [seq map findSlotFrom].
  destruct (Z.ltb_spec (Z.abs (slotTime now a - t)) 60000) as [Hhit | Hmiss].
  - specialize (H a ltac:(lia)). lia.
  - replace (Z.of_nat a + 1) with (Z.of_nat (S a)) by lia.
    apply IH. intros k Hk. apply H. lia.
Qed.

(** X20.  [getTimeSlots] returns [count] slots two minutes apart with the
    current time as its third slot, and [getSlotIndexForTime] finds them
    again: any time less than one minute away from slot [i] is mapped to
    [i], while a time exactly one minute after a slot (halfway to the
    next) is mapped to no slot (-1). *)
Theorem time_slots_round_trip (now : Z) (count i : nat) (t : Z) :
  (i < count)%nat ->
  length (getTimeSlots now count) = count /\
  getTimeSlots now count !! i = Some (now + (Z.of_nat i - 2) * 120000) /\
  (Z.abs (now + (Z.of_nat i - 2) * 120000 - t) < 60000 ->
   getSlotIndexForTime t (getTimeSlots now count) = Z.of_nat i) /\
  getSlotIndexForTime (now + (Z.of_nat i - 2) * 120000 + 60000) (getTimeSlots now count) = -1.
Proof.
  intros Hi. unfold getTimeSlots, getSlotIndexForTime.
  change (fun k => now + (Z.of_nat k - 2) * 2 * 60000) with (slotTime now).
  split; [rewrite length_map, length_seq; reflexivity |].
  split; [rewrite list_lookup_fmap, lookup_seq_lt by exact Hi; cbn; unfold slotTime;
          f_equal; lia |].
  split.
  - intros Ht. apply (findSlotFrom_hit now t i count 0%nat); [lia |].
    unfold slotTime. lia.
  - apply (findSlotFrom_miss now _ count 0%nat). intros k _. unfold slotTime. lia.
Qed.

Lemma time_slots_round_trip_witness :
  (2 < 36)%nat /\ getTimeSlots 1700000000000 36 !! 2%nat = Some 1700000000000 /\
  getSlotIndexForTime 1700000000000 (getTimeSlots 1700000000000 36) = 2.
Proof.
  assert (Hi : (2 < 36)%nat) by lia.
  split; [exact Hi |].
  destruct (time_slots_round_trip 1700000000000 36 2 1700000000000 Hi)
    as (_ & Hget & Hfind & _).
  split; [exact Hget |]. apply Hfind. cbn. lia.
Defined.

End TimeSlotExtras.

(** ** Timeframe loading: the cache settlement later reads *)
Section TimeframeExtras.
Import Fixtures.
Import Simulator.

(** What a cached result must satisfy for display and settlement to
    agree: the invariant of the data model, and a full-time progressive
    score equal to the final score. *)
Definition trustworthy (r : SimResult) : Prop :=
  consistent r /\ getProgressiveScore (events r) 90 40 = (homeGoals r, awayGoals r).

Lemma unforced_trustworthy (rand : nat -> Q) matchId k :
  trustworthy (fst (simulateMatch rand matchId 40 None k)).
Proof.
  unfold simulateMatch. cbn [forcedTargets]. rewrite simulateUnforced_fst. cbv zeta.
  destruct (unforcedLoop_result rand 40 k) as (Hh & Ha & Hs & Hb).
  change (Z.max 0 40) with 40 in Hb.
  split.
  - unfold consistent. cbn [events homeGoals awayGoals winner]. repeat split; assumption.
  - cbn [events homeGoals awayGoals]. unfold getProgressiveScore.
    rewrite simSecond_fullTime, scoreUpTo_all by exact Hb.
    rewrite !Z.add_0_l, <- Hh, <- Ha. reflexivity.
Qed.

Lemma fillToNine_finishes {A} (shuffled : list A) fuel : forall available,
  shuffled <> [] -> (9 <= length available + fuel)%nat ->
  exists l, fillToNine fuel shuffled available = Some l /\ (9 <= length l)%nat.
Proof.
  induction fuel as [| fuel IH]; intros available Hne Hfuel.
  - exists available. cbn [fillToNine].
    destruct (Nat.ltb_spec (length available) 9); [lia |]. split; [reflexivity | lia].
  - cbn [fillToNine]. destruct (Nat.ltb_spec (length available) 9) as [Hlt | Hge].
    + apply IH; [exact Hne |]. rewrite length_app.
      destruct shuffled; [contradiction | cbn; lia].
    + exists available. split; [reflexivity | exact Hge].
Qed.

Lemma fillToNine_empty {A} fuel : fillToNine fuel (@nil A) [] = None.
Proof. induction fuel as [| fuel IH]; [reflexivity | cbn [fillToNine]; exact IH]. Qed.

Section Loading.
Context {A : Type}.
Variable rand : nat -> Q.
Variable country : string.
Variable available : list (A * A).
Hypothesis available_nonempty : available <> [].

(** Every cached result is trustworthy. *)
Definition cacheOK (cache : gmap string SimResult) : Prop :=
  forall id r, cache !! id = Some r -> trustworthy r.

(** Every card of the slot has its kick-off at the slot time and a cached
    result. *)
Definition cardsOK (slot : Z) (cache : gmap string SimResult) (cards : list (Card A)) : Prop :=
  Forall (fun c => cardKickoff c = slot /\ is_Some (cache !! cardId c)) cards.

Lemma cardsOK_grow slot cache cache' cards :
  (forall id, is_Some (cache !! id) -> is_Some (cache' !! id)) ->
  cardsOK slot cache cards -> cardsOK slot cache' cards.
Proof.
  intros Hmono H. unfold cardsOK in *. eapply List.Forall_impl; [| exact H].
  cbn. intros c (Hk & Hc). split; [exact Hk | apply Hmono; exact Hc].
Qed.

Lemma buildSlot_spec idx slot n : forall i cards cache k,
  cacheOK cache -> cardsOK slot cache cards ->
  let '(cards', cache', _) := buildSlot rand country available idx slot n i cards cache k in
  cacheOK cache' /\ cardsOK slot cache' cards' /\
  length cards' = (length cards + n)%nat /\
  (forall id, is_Some (cache !! id) -> is_Some (cache' !! id)).
Proof.
  induction n as [| n IH]; intros i cards cache k Hc Hcards.
  - cbn [buildSlot]. split; [exact Hc | split; [exact Hcards | split; [lia | tauto]]].
  - cbn [buildSlot].
    assert (Hlen : (0 < length available)%nat)
      by (destruct available; [contradiction | cbn; lia]).
    destruct (lookup_lt_is_Some_2 available ((idx * 9 + i) mod length available)%nat
                ltac:(apply Nat.mod_upper_bound; lia)) as (matchData & Hm).
    rewrite Hm.
    pose proof (unforced_trustworthy rand (cardIdOf country slot i) k) as Hsim.
    destruct (simulateMatch rand (cardIdOf country slot i) 40 None k) as [sim k'].
    cbn [fst] in Hsim.
    assert (Hmono : forall id, is_Some (cache !! id) ->
                      is_Some (<[cardIdOf country slot i := sim]> cache !! id)).
    { intros id His. destruct (decide (cardIdOf country slot i = id)) as [<- | Hne].
      - rewrite lookup_insert_eq. eexists. reflexivity.
      - rewrite lookup_insert_ne by exact Hne. exact His. }
    specialize (IH (S i)
                  (cards ++ [mkCard (cardIdOf country slot i) (fst matchData)
                               (snd matchData) slot])
                  (<[cardIdOf country slot i := sim]> cache) k').
    destruct (buildSlot rand country available idx slot n (S i) _ _ k')
      as [[cards' cache'] k''].
    destruct IH as (Hc' & Hcards' & Hlen' & Hmono').
    + intros id r Hr. destruct (decide (cardIdOf country slot i = id)) as [<- | Hne].
      * rewrite lookup_insert_eq in Hr. injection Hr as <-. exact Hsim.
      * rewrite lookup_insert_ne in Hr by exact Hne. apply (Hc id r Hr).
    + apply Forall_app. split; [apply (cardsOK_grow slot cache); assumption |].
      constructor; [| constructor]. cbn [cardKickoff cardId]. split; [reflexivity |].
      rewrite lookup_insert_eq. eexists. reflexivity.
    + split; [exact Hc' | split; [exact Hcards' | split]].
      * rewrite Hlen', length_app. cbn. lia.
      * intros id His. apply Hmono', Hmono, His.
Qed.

(** Every slot loaded so far has nine good cards. *)
Definition loadedOK (l : Loaded A) : Prop :=
  cacheOK (simCache l) /\
  Forall (fun sc => length (snd sc) = 9%nat /\ cardsOK (fst sc) (simCache l) (snd sc))
         (matchups l).

Lemma buildSlots_spec slots : forall idx acc,
  loadedOK acc ->
  loadedOK (buildSlots rand country available idx slots acc) /\
  map fst (matchups (buildSlots rand country available idx slots acc))
  = map fst (matchups acc) ++ slots.
Proof.
  induction slots as [| slot rest IH]; intros idx acc (Hc & Hm).
  - cbn [buildSlots]. rewrite app_nil_r. split; [split; assumption | reflexivity].
  - cbn [buildSlots].
    pose proof (buildSlot_spec idx slot 9 0 [] (simCache acc) (nextDraw acc) Hc
                  ltac:(constructor)) as Hslot.
    destruct (buildSlot rand country available idx slot 9 0 [] (simCache acc) (nextDraw acc))
      as [[cards cache] k].
    destruct Hslot as (Hc' & Hcards & Hlen & Hmono).
    destruct (IH (S idx) (mkLoaded (matchups acc ++ [(slot, cards)]) cache k)) as (Hok & Hfst).
    + split; [exact Hc' |]. cbn [matchups simCache]. apply Forall_app. split.
      * eapply List.Forall_impl; [| exact Hm]. cbn. intros sc (Hl & Hk).
        split; [exact Hl | apply (cardsOK_grow _ (simCache acc)); assumption].
      * constructor; [| constructor]. cbn [fst snd]. split; [exact Hlen | exact Hcards].
    + split; [exact Hok |]. rewrite Hfst. cbn [matchups].
      rewrite map_app, <- app_assoc. reflexivity.
Qed.
End Loading.

(** X21.  Loading the timeframes of a league.  From a non-empty shuffled
    list of pairings (nine rounds of padding always suffice) every time
    slot gets exactly nine match cards kicking off at the slot time, every
    card has a cached simulation, and every cached simulation is an
    unforced one: it satisfies the invariant of the data model and its
    full-time progressive score equals its final score, so live display
    and settlement read the same score.  With no pairing at all (a league
    of fewer than two teams) the padding loop never ends. *)
Theorem timeframes_loaded {A} (rand : nat -> Q) (country : string) (slots : list Z)
    (shuffled : list (A * A)) (k : nat) :
  (shuffled <> [] ->
   exists loaded,
     loadGlobalTimeMatches rand country slots shuffled 9 k = Some loaded /\
     map fst (matchups loaded) = slots /\
     Forall (fun sc =>
               length (snd sc) = 9%nat /\
               Forall (fun c => cardKickoff c = fst sc /\
                                exists r, simCache loaded !! cardId c = Some r)
                      (snd sc))
            (matchups loaded) /\
     (forall id r, simCache loaded !! id = Some r ->
        consistent r /\
        getProgressiveScore (events r) 90 40 = (homeGoals r, awayGoals r))) /\
  (forall fuel, loadGlobalTimeMatches rand country slots (@nil (A * A)) fuel k = None).
Proof.
  split.
  - intros Hne. unfold loadGlobalTimeMatches.
    destruct (fillToNine_finishes shuffled 9 shuffled Hne ltac:(lia)) as (available & Hf & Hlen).
    rewrite Hf.
    assert (Hav : available <> []) by (destruct available; [cbn in Hlen; lia | discriminate]).
    destruct (buildSlots_spec rand country available Hav slots 0 (mkLoaded [] ∅ k))
      as ((Hc & Hm) & Hfst).
    { split; [intros id r Hr; cbn [simCache] in Hr; rewrite lookup_empty in Hr;
              discriminate | constructor]. }
    eexists. split; [reflexivity |]. split; [exact Hfst |]. split; [| exact Hc].
    eapply List.Forall_impl; [| exact Hm]. cbn. intros sc (Hl & Hk).
    split; [exact Hl |]. eapply List.Forall_impl; [| exact Hk].
    cbn. intros c (Hkick & r & Hr). split; [exact Hkick | exists r; exact Hr].
  - intros fuel. unfold loadGlobalTimeMatches. rewrite fillToNine_empty. reflexivity.
Qed.

Lemma timeframes_loaded_witness :
  [("GOR", "AFC")]%string <> [] /\
  exists loaded,
    loadGlobalTimeMatches neverScores "ke" [1000; 121000] [("GOR", "AFC")]%string 9 0
      = Some loaded /\
    map fst (matchups loaded) = [1000; 121000].
Proof.
  assert (Hne : [("GOR", "AFC")]%string <> []) by discriminate.
  split; [exact Hne |].
  destruct (proj1 (timeframes_loaded neverScores "ke" [1000; 121000]
                     [("GOR", "AFC")]%string 0) Hne) as (loaded & Hl & Hf & _).
  exists loaded. split; [exact Hl | exact Hf].
Defined.

End TimeframeExtras.

(** ** Bet validation and shuffled fixtures *)
Section BettingExtras.
Import Betting.

Lemma isBlank_false s : isBlank s = false <-> s <> EmptyString.
Proof. destruct s; cbn; split; intros H; congruence. Qed.

Lemma errorsOf_nil index bet : errorsOf index bet = [] <-> accepted bet.
Proof.
  unfold errorsOf, accepted.
  destruct bet as [mid bt sel am od]. cbn [match_id bet_type selection amount odds].
  rewrite <- !isBlank_false.
  destruct (isBlank mid), (isBlank bt), (isBlank sel); cbn [app];
    try (split; [intros H; discriminate H | intros (H1 & H2 & H3 & _); congruence]).
  assert (Ham : (if leZero am then [betError index "Invalid amount"] else []) ++
                (if belowMinimum am then [betError index "Minimum stake is 50 KES"] else [])
                = [] <-> stakeAccepted am).
  { destruct am as [q | | |]; cbn; try tauto.
    - unfold Qltb. destruct (Qle_bool q 0) eqn:E0; destruct (Qle_bool 50 q) eqn:E50; cbn.
      + split; [discriminate |]. intros _. apply Qle_bool_iff in E0, E50.
        exfalso. apply (Qle_not_lt _ _ (Qle_trans _ _ _ E50 E0)). reflexivity.
      + split; [discriminate |]. intros H. apply Qle_bool_iff in H. congruence.
      + split; [intros _; apply Qle_bool_iff; exact E50 | reflexivity].
      + split; [discriminate |]. intros H. apply Qle_bool_iff in H. congruence.
    - split; [discriminate | contradiction]. }
  assert (Hod : (if leZero od then [betError index "Invalid odds"] else []) = []
                <-> oddsAccepted od).
  { destruct od as [q | | |]; cbn; try tauto.
    - destruct (Qle_bool q 0) eqn:E0.
      + split; [discriminate |]. intros H. apply Qle_bool_iff in E0.
        exfalso. apply (Qle_not_lt _ _ E0 H).
      + split; [| reflexivity]. intros _. apply Qnot_le_lt. intros H.
        apply Qle_bool_iff in H. congruence.
    - split; [discriminate | contradiction]. }
  rewrite <- Ham, <- Hod. rewrite app_assoc. split.
  - intros H. apply app_eq_nil in H as (H1 & H2). repeat split; assumption.
  - intros (_ & _ & _ & H1 & H2). rewrite H1, H2. reflexivity.
Qed.

Lemma errorsFrom_nil bets : forall index,
  errorsFrom index bets = [] <-> Forall accepted bets.
Proof.
  induction bets as [| bet rest IH]; intros index.
  - cbn. split; [constructor | reflexivity].
  - cbn [errorsFrom]. split.
    + intros H. apply app_eq_nil in H as (H1 & H2).
      constructor; [apply (errorsOf_nil index); exact H1 | apply (IH (S index)); exact H2].
    + intros H. inversion H as [| ? ? Hb Hr]; subst.
      apply (errorsOf_nil index) in Hb. apply (IH (S index)) in Hr.
      rewrite Hb, Hr. reflexivity.
Qed.

(** X22.  [validateBetsBeforePlacement] rejects an empty slip with the
    single error "No bets to place".  A non-empty slip is valid exactly
    when every bet names a match, a bet type and a selection, has a stake
    of at least 50 and odds above 0; a stake or odds that is NaN passes
    both comparisons and is let through.  A finite stake of 0 or less is
    reported twice, as an invalid amount and as below the minimum. *)
Theorem validation_accepts (bets : list BetToBePlaced) (bet : BetToBePlaced) (index : nat) :
  validateBetsBeforePlacement [] = (false, ["No bets to place"%string]) /\
  (fst (validateBetsBeforePlacement bets) = true <-> bets <> [] /\ Forall accepted bets) /\
  (fst (validateBetsBeforePlacement
          [mkBet (match_id bet) (bet_type bet) (selection bet) NotANumber NotANumber]) = true
   <-> match_id bet <> EmptyString /\ bet_type bet <> EmptyString
       /\ selection bet <> EmptyString) /\
  (forall q, (q <= 0)%Q ->
     errorsOf index (mkBet "m" "1X2" "1" (Finite q) (Finite 2))
     = [betError index "Invalid amount"; betError index "Minimum stake is 50 KES"]).
Proof.
  assert (Hiff : forall bs, fst (validateBetsBeforePlacement bs) = true
                            <-> bs <> [] /\ Forall accepted bs).
  { intros bs. destruct bs as [| b rest].
    - cbn. split; [discriminate | intros (H & _); contradiction].
    - unfold validateBetsBeforePlacement. cbn [fst].
      rewrite <- (errorsFrom_nil (b :: rest) 0).
      destruct (errorsFrom 0 (b :: rest)); split; try discriminate; try tauto.
      + intros _. split; [discriminate | reflexivity].
      + intros (_ & H). discriminate H. }
  split; [reflexivity |]. split; [apply Hiff |]. split.
  - rewrite Hiff. split.
    + intros (_ & H). inversion H as [| ? ? Hb _]; subst.
      destruct Hb as (H1 & H2 & H3 & _). cbn in *. repeat split; assumption.
    + intros (H1 & H2 & H3). split; [discriminate |]. constructor; [| constructor].
      unfold accepted. cbn. repeat split; assumption.
  - intros q Hq. unfold errorsOf. cbn [match_id bet_type selection amount odds isBlank app].
    cbn [leZero belowMinimum].
    assert (E0 : Qle_bool q 0 = true) by (apply Qle_bool_iff; exact Hq).
    assert (E50 : Qltb q 50 = true).
    { unfold Qltb. apply negb_true_iff. destruct (Qle_bool 50 q) eqn:E; [| reflexivity].
      apply Qle_bool_iff in E. exfalso.
      apply (Qle_not_lt _ _ (Qle_trans _ _ _ E Hq)). reflexivity. }
    rewrite E0, E50. reflexivity.
Qed.

Lemma validation_accepts_witness :
  (0 <= 0)%Q /\
  errorsOf 3 (mkBet "m" "1X2" "1" (Finite 0) (Finite 2))
  = ["Bet 3: Invalid amount"; "Bet 3: Minimum stake is 50 KES"]%string.
Proof.
  assert (Hq : (0 <= 0)%Q) by apply Qle_refl.
  split; [exact Hq |].
  exact (proj2 (proj2 (proj2 (validation_accepts [] (mkBet "" "" "" NotANumber NotANumber) 3)))
           0%Q Hq).
Defined.

Lemma pairNeighbours_sides {A} (shuffled : list A) :
  sidesOf (pairNeighbours shuffled) = take (2 * (length shuffled / 2)) shuffled /\
  length (pairNeighbours shuffled) = (length shuffled / 2)%nat.
Proof.
  assert (H : forall n (l : list A), (length l <= n)%nat ->
            sidesOf (pairNeighbours l) = take (2 * (length l / 2)) l /\
            length (pairNeighbours l) = (length l / 2)%nat).
  { induction n as [| n IH]; intros l Hl.
    - destruct l; [split; reflexivity | cbn in Hl; lia].
    - destruct l as [| a [| b rest]]; [split; reflexivity | split; reflexivity |].
      cbn [pairNeighbours sidesOf flat_map fst snd length app].
      destruct (IH rest ltac:(cbn in Hl; lia)) as (Hs & Hlen).
      fold (sidesOf (pairNeighbours rest)). rewrite Hs, Hlen.
      assert (Hdiv : (S (S (length rest)) / 2 = S (length rest / 2))%nat).
      { change (S (S (length rest))) with (1 * 2 + length rest)%nat.
        rewrite Nat.div_add_l by lia. reflexivity. }
      rewrite Hdiv.
      replace (2 * S (length rest / 2))%nat with (S (S (2 * (length rest / 2)))) by lia.
      split; reflexivity. }
  apply (H (length shuffled)). lia.
Qed.

(** X23.  Shuffled fixtures pair neighbours of each week's shuffled order:
    every week has [floor(n/2)] matches made of the first [2*floor(n/2)]
    teams of that order.  So when a week's order lists distinct teams, no
    team plays twice in that week and none plays itself; with an odd
    number of teams the last team of the order sits the week out. *)
Theorem shuffled_fixtures_pairing {A} (shuffleOf : nat -> list A) (weeks : nat) :
  map fst (generateShuffledFixtures shuffleOf weeks) = seq 1 weeks /\
  Forall (fun wk =>
            let order := shuffleOf (fst wk) in
            length (snd wk) = (length order / 2)%nat /\
            sidesOf (snd wk) = take (2 * (length order / 2)) order /\
            (NoDup order ->
             NoDup (sidesOf (snd wk)) /\ Forall (fun p => fst p <> snd p) (snd wk)))
         (generateShuffledFixtures shuffleOf weeks).
Proof.
  unfold generateShuffledFixtures. split.
  - rewrite map_map. cbn [fst]. apply map_id.
  - apply Forall_map. apply List.Forall_forall. intros week _. cbn [fst snd].
    destruct (pairNeighbours_sides (shuffleOf week)) as (Hs & Hl).
    split; [exact Hl |]. split; [exact Hs |]. intros Hnd.
    assert (Hnd' : NoDup (sidesOf (pairNeighbours (shuffleOf week))))
      by (rewrite Hs; exact (sublist_NoDup _ _ Hnd (sublist_take _ _))).
    split; [exact Hnd' |].
    clear Hs Hl Hnd. induction (pairNeighbours (shuffleOf week)) as [| p ps IH];
      [constructor |].
    cbn [sidesOf flat_map app] in Hnd'. fold (sidesOf ps) in Hnd'.
    apply NoDup_cons in Hnd' as (Hfst & Hrest).
    apply NoDup_cons in Hrest as (_ & Hrest).
    constructor; [| apply IH; exact Hrest].
    intros Heq. apply Hfst. rewrite Heq. apply list_elem_of_here.
Qed.

Lemma shuffled_fixtures_pairing_witness :
  NoDup ["TUS"; "GOR"; "AFC"]%string /\
  NoDup (sidesOf (pairNeighbours ["TUS"; "GOR"; "AFC"]%string)).
Proof.
  assert (H : NoDup ["TUS"; "GOR"; "AFC"]%string).
  { repeat constructor; rewrite ?list_elem_of_In; cbn; intuition discriminate. }
  split; [exact H |].
  pose proof (proj2 (shuffled_fixtures_pairing (fun _ => ["TUS"; "GOR"; "AFC"]%string) 1)) as Hw.
  apply Forall_inv in Hw. exact (proj1 (proj2 (proj2 Hw) H)).
Defined.

End BettingExtras.
